(** * hw2/agent.py: the policy-gradient worker and its phase protocol

    A shallow embedding of [Agent] (src/hw2/agent.py): the numeric
    post-processing of a rollout ([_compute_q_values], baseline rescaling,
    advantage normalisation), the simulation loop [_simulate] that
    collects a batch, and the finite-state loop [run] that moves a
    worker through ROLLOUT, TRAIN, UPDATE and TERMINATE while it talks to
    four shared queues. *)

From Stdlib Require Import PrimFloat.
From Stdlib Require Import String Bool ZArith QArith Qround Lia.
From Stdlib Require Import Ring_theory Ring.
From Stdlib Require Import Reals Lra.
From Stdlib Require Import List.
Import ListNotations.

Close Scope Q_scope.

Set Implicit Arguments.

(** ** Numbers

    NumPy's float64 is idealised: finite values are real numbers with exact
    arithmetic (no rounding, no overflow), and every value that is not a real
    number ([inf], [-inf], [nan], as produced by a division by zero) is
    collapsed into the single absorbing value [nonfinite].

    What is proved of [float64] is therefore proved of the formulas of the
    code in exact arithmetic.  It is not what the code returns where
    rounding, overflow or underflow decide the value, nor where NumPy goes
    on from an infinity ([x / inf] is [0] in NumPy and [nonfinite] here).
    Where the value the code returns is itself the matter, the arithmetic
    is left open and evaluated on binary64 numbers (the returns of
    [_compute_q_values], further down), or the rounding is written out
    (the division of [__init__]). *)

Inductive float64 : Type :=
| finite (r : R)
| nonfinite.

Definition lift2 (f : R -> R -> R) (x y : float64) : float64 :=
  match x, y with
  | finite a, finite b => finite (f a b)
  | _, _ => nonfinite
  end.

Definition f_add : float64 -> float64 -> float64 := lift2 Rplus.
Definition f_sub : float64 -> float64 -> float64 := lift2 Rminus.
Definition f_mul : float64 -> float64 -> float64 := lift2 Rmult.

(** [x / 0] is [inf] or [nan] in NumPy (with a warning), never an error. *)
Definition f_div (x y : float64) : float64 :=
  match x, y with
  | finite a, finite b =>
      if Req_EM_T b 0 then nonfinite else finite (a / b)
  | _, _ => nonfinite
  end.

Definition f_sqrt (x : float64) : float64 :=
  match x with
  | finite a => if Rlt_dec a 0 then nonfinite else finite (sqrt a)
  | nonfinite => nonfinite
  end.

(** The literal [1e-8] of the advantage normalisation. *)
Definition eps : R := / 100000000.

(** [np.sum], [np.mean] and [np.std] of a one-dimensional array.  The
    order of summation is immaterial in exact arithmetic. *)
Definition np_sum (v : list float64) : float64 :=
  fold_right f_add (finite 0) v.

Definition np_mean (v : list float64) : float64 :=
  f_div (np_sum v) (finite (INR (length v))).

Definition np_std (v : list float64) : float64 :=
  let m := np_mean v in
  f_sqrt (np_mean (map (fun x => f_mul (f_sub x m) (f_sub x m)) v)).

(** The same statistics on real numbers, for arrays whose entries are all
    finite. *)
Definition Rsum (v : list R) : R := fold_right Rplus 0%R v.

Definition Rmean (v : list R) : R := (Rsum v / INR (length v))%R.

Definition Rvar (v : list R) : R :=
  Rmean (map (fun x => ((x - Rmean v) * (x - Rmean v))%R) v).

Definition Rstd (v : list R) : R := sqrt (Rvar v).

(** Python exceptions the agent can die of. *)
Inductive Exn : Type :=
| IndexError
| ValueError
| AssertionError.

Inductive result (A : Type) : Type :=
| Ok (a : A)
| Err (e : Exn).
Arguments Err {A} e.

(** Element-wise binary operation on two one-dimensional arrays, with
    NumPy's broadcasting of a length-one operand; other length mismatches
    raise [ValueError]. *)
Definition np_broadcast (f : float64 -> float64 -> float64)
           (a b : list float64) : result (list float64) :=
  if Nat.eqb (length a) (length b) then Ok (map (fun p => f (fst p) (snd p)) (combine a b))
  else match a, b with
       | [x], _ => Ok (map (f x) b)
       | _, [y] => Ok (map (fun x => f x y) a)
       | _, _ => Err ValueError
       end.

Section Agent.

(** Observations, actions and serialised network weights are opaque to the
    agent: it only stores, concatenates and forwards them. *)
Variables Obs Act Weights : Type.

(** One trajectory, the dictionary built at the end of an episode in
    [_simulate]. *)
Record Path : Type := {
  observation : list Obs;
  reward : list float64;
  action : list Act
}.

(** ** [Agent._compute_q_values]

    The inner loop walks the rewards backwards with [q = reward + q * gamma]
    and appends; the list is reversed afterwards. *)

Fixpoint reward_to_go_loop (gamma : float64) (reversed_rewards : list float64)
         (q : float64) (q_trajectory : list float64) : list float64 :=
  match reversed_rewards with
  | [] => q_trajectory
  | r :: rest =>
      let q' := f_add r (f_mul q gamma) in
      reward_to_go_loop gamma rest q' (q_trajectory ++ [q'])
  end.

Definition q_trajectory_of (gamma : float64) (path : Path)
           (reward_to_go : bool) : result (list float64) :=
  let q_trajectory :=
    rev (reward_to_go_loop gamma (rev (reward path)) (finite 0) []) in
  if negb reward_to_go then
    match q_trajectory with
    | [] => Err IndexError                      (* q_trajectory[0] *)
    | q0 :: _ => Ok (repeat q0 (length q_trajectory))
    end
  else Ok q_trajectory.

Fixpoint _compute_q_values (gamma : float64) (paths : list Path)
         (reward_to_go : bool) : result (list float64) :=
  match paths with
  | [] => Ok []
  | path :: rest =>
      match q_trajectory_of gamma path reward_to_go with
      | Err e => Err e
      | Ok q_trajectory =>
          match _compute_q_values gamma rest reward_to_go with
          | Err e => Err e
          | Ok q_n => Ok (q_trajectory ++ q_n)
          end
      end
  end.

(** ** Data of the protocol *)

Inductive States : Type := ROLLOUT | TRAIN | TERMINATE | UPDATE.

(** The dictionary a worker puts on the results queue after a rollout. *)
Record PartialResult : Type := {
  observations : list Obs;
  actions : list Act;
  advantages : list float64;
  normalized_q_n : list float64;
  baseline_prediction : list float64
}.

(** The attributes of [Agent] that [run] reads; [epoch_since_last_sync] is
    the only one it writes. *)
Record Agent : Type := {
  gamma : float64;
  reward_to_go : bool;
  normalize_advantages : bool;
  nn_baseline : bool;
  num_agents : nat;
  async_transitions : bool;
  epoch_since_last_sync : Z;
  EPOCHES_PER_SYNC : Z
}.

(** [Agent.__init__], for the arguments that matter here.  The division
    [min_timesteps_per_batch / num_agents] raises [ZeroDivisionError] for
    zero agents, so no agent is built with [num_agents = 0]. *)
Definition Agent__init__ (gamma : float64)
           (reward_to_go normalize_advantages nn_baseline : bool)
           (num_agents : nat) (async_transitions : bool) : option Agent :=
  match num_agents with
  | O => None
  | S _ =>
      Some {| gamma := gamma;
              reward_to_go := reward_to_go;
              normalize_advantages := normalize_advantages;
              nn_baseline := nn_baseline;
              num_agents := num_agents;
              async_transitions := async_transitions;
              epoch_since_last_sync := 1;
              EPOCHES_PER_SYNC := 5 |}
  end.

Definition set_epoch_since_last_sync (self : Agent) (n : Z) : Agent :=
  {| gamma := gamma self;
     reward_to_go := reward_to_go self;
     normalize_advantages := normalize_advantages self;
     nn_baseline := nn_baseline self;
     num_agents := num_agents self;
     async_transitions := async_transitions self;
     epoch_since_last_sync := n;
     EPOCHES_PER_SYNC := EPOCHES_PER_SYNC self |}.

(** ** Operations on the outside world

    Everything the worker does to something it shares or does not own: the
    four queues ([results], [state_queue], [network_weights],
    [paths_queue]), the policy model of model.py, the simulator and the
    clock.  The index is the type of the answer.

    [_setup] builds the gym environment and the policy model, and
    [_simulate] rolls out episodes with them until the batch is large
    enough; both belong to the collaborators and are one operation each,
    [_simulate] answering its pair of paths and number of time steps.  A
    queue is read and written at once: an item put is there for the next
    operation of any process.

    [state_queue_get] may deliver any Python object; [None] stands for one
    that is no member of [States].  [state_queue_task_done] answers [false]
    where [JoinableQueue.task_done] raises [ValueError] (called more often
    than items were put).  [state_queue_wait_empty] is the whole loop
    [while not self.state_queue.empty(): pass], one operation that is over
    once a poll finds the queue empty. *)
Inductive Op : Type -> Type :=
| _setup : Op unit
| _agent_debug (debug_msg : string) : Op unit
| _simulate : Op (list Path * nat)
| predict_baseline (ob_no : list Obs) : Op (list float64)
| train_baseline (obs : list Obs) (bp nq : list float64) : Op unit
| train_agent (obs : list Obs) (acs : list Act) (adv : list float64) : Op Weights
| load_weights (weights : Weights) : Op unit
| sleep : Op unit
| results_put (r : PartialResult) : Op unit
| results_get : Op PartialResult
| results_empty : Op bool
| state_queue_get : Op (option States)
| state_queue_wait_empty : Op unit
| state_queue_task_done : Op bool
| network_weights_put (weights : Weights) : Op unit
| network_weights_get : Op Weights
| network_weights_empty : Op bool
| paths_queue_put (paths : list Path) : Op unit
| paths_queue_empty : Op bool.

(** Programs: return, raise, or perform an operation and continue with its
    answer. *)
Inductive Prog (A : Type) : Type :=
| Ret (a : A)
| Raise (e : Exn)
| Vis (X : Type) (op : Op X) (k : X -> Prog A).
Arguments Raise {A} e.

Fixpoint bind {A B : Type} (p : Prog A) (f : A -> Prog B) : Prog B :=
  match p with
  | Ret a => f a
  | Raise e => Raise e
  | Vis op k => Vis op (fun x => bind (k x) f)
  end.

Definition call {X : Type} (op : Op X) : Prog X := Vis op (fun x => Ret x).

Definition lift_result {A : Type} (r : result A) : Prog A :=
  match r with
  | Ok a => Ret a
  | Err e => Raise e
  end.

Definition assert (b : bool) : Prog unit :=
  if b then Ret tt else Raise AssertionError.

Notation "x <- p ;; q" := (bind p (fun x => q))
  (at level 61, p at next level, right associativity).
Notation "p ;;; q" := (bind p (fun _ => q))
  (at level 61, right associativity).

(** [np.concatenate] of a list of arrays along the first axis; an empty
    list of arrays raises [ValueError]. *)
Definition np_concatenate {A : Type} (arrays : list (list A)) : result (list A) :=
  match arrays with
  | [] => Err ValueError
  | _ => Ok (concat arrays)
  end.

(** [self.state_queue.task_done()] *)
Definition task_done : Prog unit :=
  ok <- call state_queue_task_done ;;
  if ok : bool then Ret tt else Raise ValueError.

(** ** [Agent._rollout] *)

(** [b_n = np.mean(q_n) + baseline_prediction * np.std(q_n)] *)
Definition rescale_baseline (q_n baseline_prediction : list float64) : list float64 :=
  map (fun b => f_add (np_mean q_n) (f_mul b (np_std q_n))) baseline_prediction.

(** [(adv_n - np.mean(adv_n)) / (np.std(adv_n) + 1e-8)] *)
Definition normalize (adv_n : list float64) : list float64 :=
  map (fun a => f_div (f_sub a (np_mean adv_n))
                      (f_add (np_std adv_n) (finite eps))) adv_n.

(** [q_n / np.std(q_n) - np.mean(q_n)] *)
Definition baseline_targets (q_n : list float64) : list float64 :=
  map (fun q => f_sub (f_div q (np_std q_n)) (np_mean q_n)) q_n.

Definition _rollout (self : Agent) : Prog unit :=
  sim <- call _simulate ;;
  let paths := fst sim in
  ob_no <- lift_result (np_concatenate (map observation paths)) ;;
  ac_na <- lift_result (np_concatenate (map action paths)) ;;
  q_n <- lift_result (_compute_q_values (gamma self) paths (reward_to_go self)) ;;
  ba <- (if nn_baseline self then
           baseline_prediction <- call (predict_baseline ob_no) ;;
           adv_n <- lift_result
                      (np_broadcast f_sub q_n
                         (rescale_baseline q_n baseline_prediction)) ;;
           Ret (baseline_prediction, adv_n)
         else Ret ([], q_n)) ;;
  let baseline_prediction := fst ba in
  let adv_n := if normalize_advantages self then normalize (snd ba) else snd ba in
  let normalize_q_n := if nn_baseline self then baseline_targets q_n else [] in
  call (results_put {| observations := ob_no;
                       actions := ac_na;
                       advantages := adv_n;
                       normalized_q_n := normalize_q_n;
                       baseline_prediction := baseline_prediction |}) ;;;
  call (paths_queue_put paths).

(** ** [Agent.get_state_transition]

    Python's implicit [return None] after the last [elif] is the [None] of
    the autonomous table. *)
Definition next_state (prev_state : option States) : option States :=
  match prev_state with
  | None => Some ROLLOUT
  | Some ROLLOUT => Some TRAIN
  | Some TRAIN => Some UPDATE
  | Some UPDATE => Some ROLLOUT
  | Some TERMINATE => None
  end.

Definition get_state_transition (self : Agent) (prev_state : option States)
  : Prog (option States) :=
  if negb (async_transitions self) then call state_queue_get
  else Ret (next_state prev_state).

(** ** The branches of [Agent.run] *)

Definition rollout_branch (self : Agent) : Prog unit :=
  call (_agent_debug ".ROLLOUT") ;;;
  _rollout self ;;;
  call state_queue_wait_empty ;;;
  task_done.

(** The five accumulators of the TRAIN branch, kept in one record. *)
Definition no_results : PartialResult :=
  {| observations := []; actions := []; advantages := [];
     normalized_q_n := []; baseline_prediction := [] |}.

Definition extend (acc r : PartialResult) : PartialResult :=
  {| observations := observations acc ++ observations r;
     actions := actions acc ++ actions r;
     advantages := advantages acc ++ advantages r;
     normalized_q_n := normalized_q_n acc ++ normalized_q_n r;
     baseline_prediction := baseline_prediction acc ++ baseline_prediction r |}.

(** [for _ in range(n): results = self.results.get(); ...extend(...)] *)
Fixpoint drain (n : nat) (acc : PartialResult) : Prog PartialResult :=
  match n with
  | O => Ret acc
  | S n' => r <- call results_get ;; drain n' (extend acc r)
  end.

(** [for _ in range(n): self.network_weights.put(weights)] *)
Fixpoint put_weights (n : nat) (weights : Weights) : Prog unit :=
  match n with
  | O => Ret tt
  | S n' => call (network_weights_put weights) ;;; put_weights n' weights
  end.

(** What TRAIN does with the fresh weights; answers the agent with its
    updated sync counter. *)
Definition publish (self : Agent) (weights : Weights) : Prog Agent :=
  if async_transitions self then
    if (EPOCHES_PER_SYNC self <=? epoch_since_last_sync self)%Z then
      call (network_weights_put weights) ;;;
      Ret (set_epoch_since_last_sync self 1)
    else
      Ret (set_epoch_since_last_sync self (epoch_since_last_sync self + 1))
  else
    put_weights (num_agents self) weights ;;;
    task_done ;;;
    Ret self.

Definition train_on (self : Agent) (batch : PartialResult) : Prog Weights :=
  (if nn_baseline self then
     call (train_baseline (observations batch) (baseline_prediction batch)
                          (normalized_q_n batch))
   else Ret tt) ;;;
  call (train_agent (observations batch) (actions batch) (advantages batch)).

Definition train_branch (self : Agent) : Prog Agent :=
  call (_agent_debug ".TRAIN") ;;;
  batch <- drain (num_agents self) no_results ;;
  e <- call results_empty ;;
  assert e ;;;
  weights <- train_on self batch ;;
  publish self weights.

(** [prev_state is not Agent.States.UPDATE] *)
Definition is_not_UPDATE (prev_state : option States) : bool :=
  match prev_state with
  | Some UPDATE => false
  | _ => true
  end.

Definition update_branch (prev_state : option States) : Prog unit :=
  call (_agent_debug ".UDPATE") ;;;
  assert (is_not_UPDATE prev_state) ;;;
  weights <- call network_weights_get ;;
  call (load_weights weights) ;;;
  call sleep ;;;
  task_done.

Definition terminate_branch : Prog unit :=
  call (_agent_debug ".TERMINATE") ;;;
  task_done ;;;
  e <- call results_empty ;; assert e ;;;
  e <- call network_weights_empty ;; assert e ;;;
  e <- call paths_queue_empty ;; assert e.

(** ** [Agent.run]

    [while True] is unrolled [fuel] times.  The loop ends by [break] after
    TERMINATE ([Exited]) or is still going when the fuel is spent
    ([Running], with the agent and [prev_state] at the loop head). *)
Inductive LoopEnd : Type :=
| Exited (prev_state : option States)
| Running (self : Agent) (prev_state : option States).

Fixpoint run_loop (fuel : nat) (self : Agent) (prev_state : option States)
  : Prog LoopEnd :=
  match fuel with
  | O => Ret (Running self prev_state)
  | S fuel' =>
      state <- get_state_transition self prev_state ;;
      match state with
      | Some ROLLOUT =>
          rollout_branch self ;;;
          run_loop fuel' self (Some ROLLOUT)
      | Some TRAIN =>
          self' <- train_branch self ;;
          run_loop fuel' self' (Some TRAIN)
      | Some UPDATE =>
          update_branch prev_state ;;;
          run_loop fuel' self (Some UPDATE)
      | Some TERMINATE =>
          terminate_branch ;;;
          Ret (Exited (Some TERMINATE))
      | None => Raise ValueError
      end
  end.

Definition run (fuel : nat) (self : Agent) : Prog LoopEnd :=
  call _setup ;;;
  run_loop fuel self None.

(** ** What a run looks like from outside

    A label records one operation together with its answer. *)
Inductive Label : Type :=
| L_setup
| L_debug (debug_msg : string)
| L_simulate (answer : list Path * nat)
| L_predict_baseline (ob_no : list Obs) (answer : list float64)
| L_train_baseline (obs : list Obs) (bp nq : list float64)
| L_train_agent (obs : list Obs) (acs : list Act) (adv : list float64)
                (answer : Weights)
| L_load_weights (weights : Weights)
| L_sleep
| L_results_put (r : PartialResult)
| L_results_get (answer : PartialResult)
| L_results_empty (answer : bool)
| L_state_get (answer : option States)
| L_state_wait_empty
| L_task_done (answer : bool)
| L_weights_put (weights : Weights)
| L_weights_get (answer : Weights)
| L_weights_empty (answer : bool)
| L_paths_put (paths : list Path)
| L_paths_empty (answer : bool).

Definition label {X : Type} (op : Op X) : X -> Label :=
  match op in Op X return X -> Label with
  | _setup => fun _ => L_setup
  | _agent_debug msg => fun _ => L_debug msg
  | _simulate => fun a => L_simulate a
  | predict_baseline ob_no => fun a => L_predict_baseline ob_no a
  | train_baseline obs bp nq => fun _ => L_train_baseline obs bp nq
  | train_agent obs acs adv => fun a => L_train_agent obs acs adv a
  | load_weights w => fun _ => L_load_weights w
  | sleep => fun _ => L_sleep
  | results_put r => fun _ => L_results_put r
  | results_get => fun a => L_results_get a
  | results_empty => fun a => L_results_empty a
  | state_queue_get => fun a => L_state_get a
  | state_queue_wait_empty => fun _ => L_state_wait_empty
  | state_queue_task_done => fun a => L_task_done a
  | network_weights_put w => fun _ => L_weights_put w
  | network_weights_get => fun a => L_weights_get a
  | network_weights_empty => fun a => L_weights_empty a
  | paths_queue_put paths => fun _ => L_paths_put paths
  | paths_queue_empty => fun a => L_paths_empty a
  end.

(** How an observed run stands: returned, raised, or cut while an operation
    is outstanding (the worker is blocked in it, or was not watched any
    longer). *)
Inductive Final (A : Type) : Type :=
| Returned (a : A)
| Raised (e : Exn)
| Pending.
Arguments Raised {A} e.
Arguments Pending {A}.

(** [runs p t f]: program [p] can produce trace [t] and stand at [f], for
    some answers of the outside world.  Nothing is assumed of the other
    processes: every operation may be answered by any value of its type. *)
Fixpoint runs {A : Type} (p : Prog A) (t : list Label) (f : Final A) : Prop :=
  match p with
  | Ret a => t = [] /\ f = Returned a
  | Raise e => t = [] /\ f = Raised e
  | Vis op k =>
      (t = [] /\ f = Pending) \/
      exists x t', t = label op x :: t' /\ runs (k x) t' f
  end.

(** ** What a trace shows of the protocol. *)
Definition is_debug (msg : string) (l : Label) : bool :=
  match l with
  | L_debug m => String.eqb m msg
  | _ => false
  end.

Definition phase_of (l : Label) : option States :=
  if is_debug ".ROLLOUT" l then Some ROLLOUT
  else if is_debug ".TRAIN" l then Some TRAIN
  else if is_debug ".UDPATE" l then Some UPDATE
  else if is_debug ".TERMINATE" l then Some TERMINATE
  else None.

(** The phases a worker entered, in order. *)
Fixpoint phases (t : list Label) : list States :=
  match t with
  | [] => []
  | l :: t' =>
      match phase_of l with
      | Some s => s :: phases t'
      | None => phases t'
      end
  end.

(** The results it took from the results queue, in order. *)
Fixpoint received (t : list Label) : list PartialResult :=
  match t with
  | [] => []
  | L_results_get r :: t' => r :: received t'
  | _ :: t' => received t'
  end.

(** The weights it put on the parameters queue, in order. *)
Fixpoint published (t : list Label) : list Weights :=
  match t with
  | [] => []
  | L_weights_put w :: t' => w :: published t'
  | _ :: t' => published t'
  end.

(** Operations on the command queue. *)
Definition touches_state_queue (l : Label) : bool :=
  match l with
  | L_state_get _ | L_state_wait_empty | L_task_done _ => true
  | _ => false
  end.

(** The batch TRAIN builds from the results it received. *)
Definition batch_of (rs : list PartialResult) : PartialResult :=
  fold_left extend rs no_results.

(** The autonomous schedule ROLLOUT, TRAIN, UPDATE, ROLLOUT, ... from a
    given phase on. *)
Fixpoint schedule_from (s : States) (n : nat) : list States :=
  match n with
  | O => []
  | S n' =>
      s :: schedule_from (match s with
                          | ROLLOUT => TRAIN
                          | TRAIN => UPDATE
                          | _ => ROLLOUT
                          end) n'
  end.

Definition schedule (n : nat) : list States := schedule_from ROLLOUT n.

(** ** The queues as state *)

(** [multiprocessing.Queue] is a FIFO list, oldest item first;
    [state_queue] is a [JoinableQueue] and carries the count of items put
    and not yet acknowledged by [task_done]. *)
Record Channels : Type := {
  results : list PartialResult;
  state_queue : list (option States);
  unfinished_tasks : nat;
  network_weights : list Weights;
  paths_queue : list (list Path)
}.

Definition set_results (c : Channels) (q : list PartialResult) : Channels :=
  {| results := q; state_queue := state_queue c;
     unfinished_tasks := unfinished_tasks c;
     network_weights := network_weights c; paths_queue := paths_queue c |}.

Definition set_state_queue (c : Channels) (q : list (option States))
           (unfinished : nat) : Channels :=
  {| results := results c; state_queue := q;
     unfinished_tasks := unfinished;
     network_weights := network_weights c; paths_queue := paths_queue c |}.

Definition set_network_weights (c : Channels) (q : list Weights) : Channels :=
  {| results := results c; state_queue := state_queue c;
     unfinished_tasks := unfinished_tasks c;
     network_weights := q; paths_queue := paths_queue c |}.

Definition set_paths_queue (c : Channels) (q : list (list Path)) : Channels :=
  {| results := results c; state_queue := state_queue c;
     unfinished_tasks := unfinished_tasks c;
     network_weights := network_weights c; paths_queue := q |}.

Definition is_empty {A : Type} (q : list A) : bool :=
  match q with
  | [] => true
  | _ => false
  end.

(** The process-local collaborators of model.py and gym, taken as
    parameters: [Model] is the state of the policy network and of the
    environment of one process. *)
Variable Model : Type.
Variable simulate : Model -> (list Path * nat) * Model.
Variable model_predict_baseline : Model -> list Obs -> list float64.
Variable model_train_baseline :
  Model -> list Obs -> list float64 -> list float64 -> Model.
Variable model_train_agent :
  Model -> list Obs -> list Act -> list float64 -> Weights * Model.
Variable model_load_weights : Model -> Weights -> Model.

(** One operation on the local model and the shared queues; [None] when
    the operation blocks ([get] on an empty queue, the busy wait on a
    non-empty one). *)
Definition handle {X : Type} (op : Op X) (m : Model) (c : Channels)
  : option (X * Model * Channels) :=
  match op in Op X return option (X * Model * Channels) with
  | _setup => Some (tt, m, c)
  | _agent_debug _ => Some (tt, m, c)
  | _simulate => Some (fst (simulate m), snd (simulate m), c)
  | predict_baseline ob_no => Some (model_predict_baseline m ob_no, m, c)
  | train_baseline obs bp nq => Some (tt, model_train_baseline m obs bp nq, c)
  | train_agent obs acs adv =>
      Some (fst (model_train_agent m obs acs adv),
            snd (model_train_agent m obs acs adv), c)
  | load_weights w => Some (tt, model_load_weights m w, c)
  | sleep => Some (tt, m, c)
  | results_put r => Some (tt, m, set_results c (results c ++ [r]))
  | results_get =>
      match results c with
      | [] => None
      | r :: q => Some (r, m, set_results c q)
      end
  | results_empty => Some (is_empty (results c), m, c)
  | state_queue_get =>
      match state_queue c with
      | [] => None
      | s :: q => Some (s, m, set_state_queue c q (unfinished_tasks c))
      end
  | state_queue_wait_empty =>
      if is_empty (state_queue c) then Some (tt, m, c) else None
  | state_queue_task_done =>
      match unfinished_tasks c with
      | O => Some (false, m, c)
      | S n => Some (true, m, set_state_queue c (state_queue c) n)
      end
  | network_weights_put w =>
      Some (tt, m, set_network_weights c (network_weights c ++ [w]))
  | network_weights_get =>
      match network_weights c with
      | [] => None
      | w :: q => Some (w, m, set_network_weights c q)
      end
  | network_weights_empty => Some (is_empty (network_weights c), m, c)
  | paths_queue_put paths =>
      Some (tt, m, set_paths_queue c (paths_queue c ++ [paths]))
  | paths_queue_empty => Some (is_empty (paths_queue c), m, c)
  end.

(** A worker alone with the queues: nobody else touches them while it
    runs, so an operation that blocks blocks for good.  The outcome of such
    a run is its trace, how it stands, and the state it leaves. *)
Record Run (A : Type) : Type := {
  trace : list Label;
  final : Final A;
  model_after : Model;
  channels_after : Channels
}.

Definition observe {A : Type} (l : Label) (r : Run A) : Run A :=
  {| trace := l :: trace r; final := final r;
     model_after := model_after r; channels_after := channels_after r |}.

Fixpoint exec {A : Type} (p : Prog A) (m : Model) (c : Channels) : Run A :=
  match p with
  | Ret a =>
      {| trace := []; final := Returned a;
         model_after := m; channels_after := c |}
  | Raise e =>
      {| trace := []; final := Raised e;
         model_after := m; channels_after := c |}
  | Vis op k =>
      match handle op m c with
      | None =>
          {| trace := []; final := Pending;
             model_after := m; channels_after := c |}
      | Some (x, m', c') => observe (label op x) (exec (k x) m' c')
      end
  end.

(** ** A pool of workers on the same queues *)

Definition step {A : Type} (p : Prog A) (m : Model) (c : Channels)
  : option (Prog A * Model * Channels) :=
  match p with
  | Vis op k =>
      match handle op m c with
      | Some (x, m', c') => Some (k x, m', c')
      | None => None
      end
  | _ => None
  end.

(** A worker process: what is left of its [run] and its local model. *)
Record Worker : Type := {
  code : Prog LoopEnd;
  local : Model
}.

(** Any worker that is not blocked may perform its next operation. *)
Inductive pool_step : list Worker * Channels -> list Worker * Channels -> Prop :=
| pool_step_at ws1 p m ws2 c p' m' c' :
    step p m c = Some (p', m', c') ->
    pool_step (ws1 ++ {| code := p; local := m |} :: ws2, c)
              (ws1 ++ {| code := p'; local := m' |} :: ws2, c').

Inductive pool_steps : list Worker * Channels -> list Worker * Channels -> Prop :=
| pool_steps_refl s : pool_steps s s
| pool_steps_next s1 s2 s3 :
    pool_step s1 s2 -> pool_steps s2 s3 -> pool_steps s1 s3.

(** Modelled from the spec: the coordinator of the synchronous mode is not
    part of agent.py.  Section 4.2 has it broadcast the next phase as one
    assignment per worker, once every earlier assignment is acknowledged
    and the command channel has drained.  [JoinableQueue.put] appends the
    item and counts it as unfinished. *)
Definition broadcast (phase : States) (n : nat) (c : Channels) : Channels :=
  set_state_queue c (state_queue c ++ repeat (Some phase) n)
                  (unfinished_tasks c + n).

Local Open Scope R_scope.

(** * Vocabulary of the statements and of the proofs *)

(** The reading of C5 as stated: mean within [eps] of 0 and standard
    deviation within [eps] of 1. *)
Definition normalized_within_eps (adv : list float64) : Prop :=
  exists m s,
    np_mean (normalize adv) = finite m /\
    np_std (normalize adv) = finite s /\
    Rabs m <= eps /\ Rabs (s - 1) <= eps.

Local Close Scope R_scope.

(** Sequencing for the lone worker. *)
Definition exec_then {A B : Type} (r : Run A) (k : A -> Prog B) : Run B :=
  match final r with
  | Returned a =>
      let r2 := exec (k a) (model_after r) (channels_after r) in
      {| trace := trace r ++ trace r2; final := final r2;
         model_after := model_after r2; channels_after := channels_after r2 |}
  | Raised e =>
      {| trace := trace r; final := Raised e;
         model_after := model_after r; channels_after := channels_after r |}
  | Pending =>
      {| trace := trace r; final := Pending;
         model_after := model_after r; channels_after := channels_after r |}
  end.

(** The labels of the training calls on a batch, the answer of
    [train_agent] being [w]. *)
Definition training_labels (self : Agent) (batch : PartialResult) (w : Weights)
  : list Label :=
  (if nn_baseline self
   then [L_train_baseline (observations batch) (baseline_prediction batch)
                          (normalized_q_n batch)]
   else [])
  ++ [L_train_agent (observations batch) (actions batch) (advantages batch) w].

(** What the model of a lone worker answers to the training calls on a
    batch: the new weights, and its state afterwards. *)
Definition trained (self : Agent) (m : Model) (batch : PartialResult)
  : Weights * Model :=
  model_train_agent
    (if nn_baseline self
     then model_train_baseline m (observations batch)
                               (baseline_prediction batch) (normalized_q_n batch)
     else m)
    (observations batch) (actions batch) (advantages batch).

(** [within P Q p]: whatever the answers, every label [p] produces
    satisfies [P] and every exception it raises satisfies [Q]. *)
Fixpoint within {A : Type} (P : Label -> Prop) (Q : Exn -> Prop) (p : Prog A)
  : Prop :=
  match p with
  | Ret _ => True
  | Raise e => Q e
  | Vis op k => forall x, P (label op x) /\ within P Q (k x)
  end.

(** Which labels belong to which queue. *)
Definition touches_results_queue (l : Label) : bool :=
  match l with
  | L_results_put _ | L_results_get _ => true
  | _ => false
  end.

Definition is_weights_put (l : Label) : bool :=
  match l with
  | L_weights_put _ => true
  | _ => false
  end.

Definition is_any_debug (l : Label) : bool :=
  match l with
  | L_debug _ => true
  | _ => false
  end.

(** Labels that are neither a debug line nor a put on the parameters
    queue. *)
Definition quiet (l : Label) : Prop :=
  is_any_debug l = false /\ is_weights_put l = false.

Definition succ_phase (s : States) : States :=
  match s with
  | ROLLOUT => TRAIN
  | TRAIN => UPDATE
  | _ => ROLLOUT
  end.

Definition first_phase (prev_state : option States) : States :=
  match next_state prev_state with
  | Some s => s
  | None => ROLLOUT
  end.

(** The number of TRAIN phases entered. *)
Fixpoint trains (t : list Label) : nat :=
  match t with
  | [] => 0
  | l :: t' => if is_debug ".TRAIN" l then S (trains t') else trains t'
  end.

(** A monitor that reads a trace with the number [T] of TRAIN phases
    entered and the number [P] of weights put so far: a put must fall in
    a TRAIN phase whose number is a multiple of 5 and be the next one due,
    and when UPDATE is entered no put may be owed. *)
Fixpoint sync_monitor (T P : nat) (t : list Label) : Prop :=
  match t with
  | [] => True
  | l :: t' =>
      (is_weights_put l = true -> T mod 5 = 0 /\ P + 1 = T / 5)
      /\ (is_debug ".UDPATE" l = true -> P = T / 5)
      /\ sync_monitor (if is_debug ".TRAIN" l then S T else T)
                      (if is_weights_put l then S P else P) t'
  end.

(** The state of the loop head that the monitor needs: the counter is one
    more than the number of TRAIN phases since the last sync, and no put
    is owed. *)
Definition sync_invariant (self : Agent) (T P : nat) : Prop :=
  async_transitions self = true
  /\ EPOCHES_PER_SYNC self = 5%Z
  /\ Z.of_nat (T mod 5) = (epoch_since_last_sync self - 1)%Z
  /\ P = T / 5.

Unset Implicit Arguments.

(** Operations that leave the items of all four queues where they are. *)
Definition quiet_op {X : Type} (op : Op X) : bool :=
  match op with
  | _agent_debug _ | state_queue_task_done
  | results_empty | network_weights_empty | paths_queue_empty => true
  | _ => false
  end.

(** The answers the three emptiness checks get from queues [c]. *)
Definition truthful {X : Type} (op : Op X) (c : Channels) : X -> Prop :=
  match op in Op X return X -> Prop with
  | results_empty => fun x => x = is_empty (results c)
  | network_weights_empty => fun x => x = is_empty (network_weights c)
  | paths_queue_empty => fun x => x = is_empty (paths_queue c)
  | _ => fun _ => True
  end.

(** A worker that has taken its TERMINATE: all it still does is quiet, and
    it can only return, with [Exited], when the results, parameters and
    trajectory queues [c] are empty. *)
Fixpoint winding_down (c : Channels) (p : Prog LoopEnd) : Prop :=
  match p with
  | Ret r =>
      r = Exited (Some TERMINATE)
      /\ results c = [] /\ network_weights c = [] /\ paths_queue c = []
  | Raise _ => True
  | Vis op k =>
      quiet_op op = true /\ forall x, truthful op c x -> winding_down c (k x)
  end.

(** A worker at the head of its loop, about to take a command that will
    be TERMINATE. *)
Definition at_head (c : Channels) (p : Prog LoopEnd) : Prop :=
  match p with
  | Vis op k =>
      match op in Op X return (X -> Prog LoopEnd) -> Prop with
      | state_queue_get => fun k => winding_down c (k (Some TERMINATE))
      | _ => fun _ => False
      end k
  | _ => False
  end.

Definition head_is_get (p : Prog LoopEnd) : bool :=
  match p with
  | Vis op _ =>
      match op with
      | state_queue_get => true
      | _ => false
      end
  | _ => false
  end.

Definition heads (ws : list Worker) : nat :=
  length (filter (fun w => head_is_get (code w)) ws).

Definition same_data (c c' : Channels) : Prop :=
  results c' = results c
  /\ network_weights c' = network_weights c
  /\ paths_queue c' = paths_queue c.

(** The state of a pool in which TERMINATE is being processed. *)
Definition worker_ok (c : Channels) (w : Worker) : Prop :=
  at_head c (code w) \/ winding_down c (code w).

Definition shutting_down (s : list Worker * Channels) : Prop :=
  Forall (worker_ok (snd s)) (fst s)
  /\ state_queue (snd s) = repeat (Some TERMINATE) (heads (fst s)).

(** Run a pool along a schedule: each entry names the worker that performs
    its next operation; an entry whose worker is blocked, has ended or
    does not exist is skipped. *)
Fixpoint run_schedule (schedule : list nat) (ws : list Worker) (c : Channels)
  : list Worker * Channels :=
  match schedule with
  | [] => (ws, c)
  | i :: rest =>
      match nth_error ws i with
      | Some w =>
          match step (code w) (local w) c with
          | Some (p', m', c') =>
              run_schedule rest
                (firstn i ws ++ {| code := p'; local := m' |} :: skipn (S i) ws) c'
          | None => run_schedule rest ws c
          end
      | None => run_schedule rest ws c
      end
  end.

(** ** Further vocabulary: returns of arbitrary rewards *)

(** The returns of a trajectory read forwards: each is its reward plus
    [gamma] times the return that follows it, and nothing follows the
    last. *)
Fixpoint returns_from (gamma : float64) (rewards : list float64) : list float64 :=
  match rewards with
  | [] => []
  | r :: rest =>
      f_add r (f_mul (hd (finite 0) (returns_from gamma rest)) gamma)
      :: returns_from gamma rest
  end.

(** The running values of the backward loop, for any rewards. *)
Fixpoint scan_f (gamma q : float64) (l : list float64) : list float64 :=
  match l with
  | [] => []
  | r :: rest =>
      f_add r (f_mul q gamma) :: scan_f gamma (f_add r (f_mul q gamma)) rest
  end.

(** The number of rewards of a batch, which is its number of time steps. *)
Definition total_rewards (paths : list Path) : nat :=
  length (concat (map reward paths)).

(** ** Further vocabulary: batches and results *)

(** A path as [_simulate] builds them: one observation, one action and
    one reward per step, and at least one step. *)
Definition path_ok (path : Path) : Prop :=
  length (observation path) = length (reward path)
  /\ length (action path) = length (reward path)
  /\ reward path <> [].

(** A batch as [_simulate] builds them: at least one such path. *)
Definition batch_ok (paths : list Path) : Prop :=
  paths <> [] /\ Forall path_ok paths.

(** A result with one action and one advantage per observation. *)
Definition aligned (r : PartialResult) : Prop :=
  length (actions r) = length (observations r)
  /\ length (advantages r) = length (observations r).

(** The dictionary [_rollout] puts on the results queue, for the paths of
    the batch, their Q-values, the predictions of the baseline and the
    advantages before normalisation. *)
Definition rollout_result (self : Agent) (paths : list Path)
           (q_n bp adv_n : list float64) : PartialResult :=
  {| observations := concat (map observation paths);
     actions := concat (map action paths);
     advantages := if normalize_advantages self then normalize adv_n else adv_n;
     normalized_q_n := if nn_baseline self then baseline_targets q_n else [];
     baseline_prediction := bp |}.

(** ** [Agent._simulate]

    The gym environment and the policy network are collaborators: what
    [env.reset()], [self._model.run_agent(ob)] and [env.step(ac)] answer,
    and what they change, is a function of one state [World] that is
    threaded through the calls.  [self.max_path_length] is the attribute
    as [_setup] leaves it, a whole number or [None];
    [self.min_timesteps_per_batch] is the quotient
    [min_timesteps_per_batch / num_agents] of [__init__], an exact
    rational here. *)

Section Simulate.

Variable World : Type.
Variable env_reset : World -> Obs * World.
Variable run_agent : World -> Obs -> list Act * World.
Variable env_step : World -> Act -> Obs * float64 * bool * World.
Variable max_path_length : option Z.
Variable min_timesteps_per_batch : Q.

(** The two ways [_simulate] itself can raise: [ac[0]] on an empty answer
    of the policy ([IndexError]) and [steps > None] ([TypeError]). *)
Inductive SimulateError : Type :=
| ac_IndexError
| steps_TypeError.

(** A loop that ran on [fuel] iterations at most: it ended with a value
    and the world it left, raised, or is still going. *)
Inductive Outcome (A : Type) : Type :=
| Finished (a : A) (w : World)
| Died (e : SimulateError)
| Unfinished.
Arguments Finished {A} a w.
Arguments Died {A} e.
Arguments Unfinished {A}.

(** The inner loop [while not done_trajectory], entered with
    [done_trajectory = False]: the body runs before the first test. *)
Fixpoint episode (fuel : nat) (w : World) (ob : Obs) (obs : list Obs)
         (acs : list Act) (rewards : list float64) (steps : Z)
  : Outcome (list Obs * list Act * list float64) :=
  match fuel with
  | O => Unfinished
  | S fuel' =>
      let obs := obs ++ [ob] in
      let (ac, w) := run_agent w ob in
      match ac with
      | [] => Died ac_IndexError
      | ac :: _ =>
          let acs := acs ++ [ac] in
          let '(ob, rew, done, w) := env_step w ac in
          let rewards := rewards ++ [rew] in
          let steps := (steps + 1)%Z in
          if done : bool then Finished (obs, acs, rewards) w
          else
            match max_path_length with
            | None => Died steps_TypeError
            | Some limit =>
                if (steps >? limit)%Z then Finished (obs, acs, rewards) w
                else episode fuel' w ob obs acs rewards steps
            end
      end
  end.

(** [timesteps_this_batch > self.min_timesteps_per_batch] *)
Definition enough_timesteps (timesteps_this_batch : nat) : bool :=
  negb (Qle_bool (inject_Z (Z.of_nat timesteps_this_batch))
                 min_timesteps_per_batch).

(** The outer loop [while not enough_timesteps], entered with
    [enough_timesteps = False]. *)
Fixpoint collect_paths (episode_fuel fuel : nat) (w : World)
         (paths : list Path) (timesteps_this_batch : nat)
  : Outcome (list Path * nat) :=
  match fuel with
  | O => Unfinished
  | S fuel' =>
      let (ob, w) := env_reset w in
      match episode episode_fuel w ob [] [] [] 0 with
      | Finished (obs, acs, rewards) w =>
          let path := {| observation := obs;
                         reward := rewards;
                         action := acs |} in
          let paths := paths ++ [path] in
          let timesteps_this_batch :=
            timesteps_this_batch + length (reward path) in
          if enough_timesteps timesteps_this_batch
          then Finished (paths, timesteps_this_batch) w
          else collect_paths episode_fuel fuel' w paths timesteps_this_batch
      | Died e => Died e
      | Unfinished => Unfinished
      end
  end.

(** The body of [_simulate], which answers [paths, timesteps_this_batch]. *)
Definition simulate_batch (episode_fuel fuel : nat) (w : World)
  : Outcome (list Path * nat) :=
  collect_paths episode_fuel fuel w [] 0.

(** Iterations that always suffice: an episode is over after
    [max_path_length + 1] steps (one step if there is no limit to compare
    with), and every episode adds a time step to the batch. *)
Definition episode_bound : nat :=
  match max_path_length with
  | None => 1
  | Some limit => S (Z.to_nat limit)
  end.

Definition batch_bound : nat :=
  S (Z.to_nat (Qfloor min_timesteps_per_batch)).

End Simulate.

Arguments Finished {World A} a w.
Arguments Died {World A} e.
Arguments Unfinished {World A}.

(** How long a path may be under [max_path_length]: the test is
    [steps > max_path_length] after the step, so one step more than the
    limit; a single step if there is no limit. *)
Definition within_limit (max_path_length : option Z) (path : Path) : Prop :=
  match max_path_length with
  | None => length (reward path) = 1
  | Some limit => (Z.of_nat (length (reward path)) <= Z.max 1 (limit + 1))%Z
  end.

(** ** Python's [int / int]

    The true division of two integers is the float64 nearest to the
    exact quotient, ties going to the even mantissa.  It raises
    [ZeroDivisionError] for a zero divisor, and [OverflowError] where
    the nearest float64 would be [2 ^ 1024] or more.  A float64 is held
    as the rational number it is. *)
Inductive DivisionError : Type := ZeroDivisionError | OverflowError.

(** The integer part of the binary logarithm of [a / b], for positive
    [a] and [b]. *)
Definition floor_log2 (a b : Z) : Z :=
  if (b <=? a)%Z then Z.log2 (a / b) else (- Z.log2_up ((b + a - 1) / a))%Z.

(** The integer nearest to [N / D] for positive [D], ties to even. *)
Definition round_half_even (N D : Z) : Z :=
  let k := (N / D)%Z in
  let r := (N mod D)%Z in
  if (2 * r <? D)%Z then k
  else if (D <? 2 * r)%Z then (k + 1)%Z
       else if Z.even k then k else (k + 1)%Z.

(** Mantissa and exponent of the float64 nearest to [a / b], for
    positive [a] and [b]: 53 bits of mantissa where the quotient is at
    least [2 ^ -1022], the fixed exponent [-1074] below. *)
Definition nearest_float64 (a b : Z) : Z * Z :=
  let e := Z.max (floor_log2 a b - 52) (-1074) in
  let m := if (0 <=? e)%Z then round_half_even a (b * 2 ^ e)
           else round_half_even (a * 2 ^ (- e)) b in
  (m, e).

Definition float64_value (m e : Z) : Q :=
  Qred (if (0 <=? e)%Z then inject_Z (m * 2 ^ e)
        else Qmake m (Z.to_pos (2 ^ (- e)))).

Definition int_true_divide (a b : Z) : DivisionError + Q :=
  if (b =? 0)%Z then inl ZeroDivisionError
  else
    let (m, e) := nearest_float64 (Z.abs a) (Z.abs b) in
    if (a =? 0)%Z then inr 0%Q
    else if (2 ^ 1024 <=? m * 2 ^ e)%Z then inl OverflowError
         else if (0 <? a * b)%Z then inr (float64_value m e)
              else inr (Qopp (float64_value m e)).

(** [self.min_timesteps_per_batch = min_timesteps_per_batch / num_agents]
    of [__init__], for whole numbers of time steps. *)
Definition per_agent_timesteps (min_timesteps_per_batch : Z) (num_agents : nat)
  : DivisionError + Q :=
  int_true_divide min_timesteps_per_batch (Z.of_nat num_agents).

(** ** Further vocabulary: commands and acknowledgements *)

(** The commands a worker took from the command queue, in order. *)
Fixpoint commands (t : list Label) : list (option States) :=
  match t with
  | [] => []
  | L_state_get s :: t' => s :: commands t'
  | _ :: t' => commands t'
  end.

(** The number of commands it acknowledged. *)
Fixpoint acks (t : list Label) : nat :=
  match t with
  | [] => 0
  | L_task_done true :: t' => S (acks t')
  | _ :: t' => acks t'
  end.

(** Labels of the inside of a branch: no debug line, no command taken. *)
Definition inner (l : Label) : Prop :=
  is_any_debug l = false /\ commands [l] = [].

(** [owes n p]: whatever the answers, [p] acknowledges at most [n]
    commands, and exactly [n] if it returns. *)
Fixpoint owes {A : Type} (n : nat) (p : Prog A) : Prop :=
  match p with
  | Ret _ => n = 0
  | Raise _ => True
  | Vis op k =>
      forall x, acks [label op x] <= n /\ owes (n - acks [label op x]) (k x)
  end.

(** The phase before the loop head, as a list of phases. *)
Definition entered (prev_state : option States) : list States :=
  match prev_state with
  | Some s => [s]
  | None => []
  end.

(** What the phases of a run of the loop look like in any mode: nothing
    follows TERMINATE, a second UPDATE in a row is the end of the run by
    [AssertionError], and the loop is left only after TERMINATE. *)
Definition loop_shape (prev_state : option States) (t : list Label)
           (f : Final LoopEnd) : Prop :=
  (forall pre post, phases t = pre ++ TERMINATE :: post -> post = [])
  /\ (forall pre post,
         entered prev_state ++ phases t = pre ++ UPDATE :: UPDATE :: post ->
         post = [] /\ f = Raised AssertionError)
  /\ (forall p, f = Returned (Exited p) ->
                p = Some TERMINATE /\ exists pre, phases t = pre ++ [TERMINATE]).

(** How the commands taken and the phases entered stand to each other in
    synchronous mode: the phases are the commands, but for a last command
    that is taken and not yet logged, or that is no phase at all; and a
    command that is no phase is the last thing the worker sees. *)
Definition commands_shape (t : list Label) (f : Final LoopEnd) : Prop :=
  (commands t = map Some (phases t)
   \/ (exists s, commands t = map Some (phases t) ++ [Some s] /\ f = Pending)
   \/ (commands t = map Some (phases t) ++ [None] /\ f = Raised ValueError))
  /\ (In None (commands t) ->
      f = Raised ValueError /\ exists t1, t = t1 ++ [L_state_get None]).

(** The acknowledgements of a run against the commands it took: never
    ahead, at most one behind, and level when the run has returned. *)
Definition acks_balance (t : list Label) (f : Final LoopEnd) : Prop :=
  acks t <= length (commands t) <= S (acks t)
  /\ (forall r, f = Returned r -> acks t = length (commands t)).

(** ** [Agent._compute_q_values] with its arithmetic left open

    The loop of [_compute_q_values] once more, over any type [Num] of
    numbers: [zero] is the initial [q = 0], and [add] and [mul] are what
    [reward + q * gamma] means for the rewards at hand, IEEE binary64
    addition and multiplication (which round) for a float64 array and a
    float [gamma], exact operations for Python integers.  Nothing is
    assumed of them.  [_compute_q_values] above is this loop at the
    idealised [float64]. *)
Section Returns.

Variable Num : Type.
Variable zero : Num.
Variables add mul : Num -> Num -> Num.

Fixpoint reward_to_go_loop_on (gamma : Num) (reversed_rewards : list Num)
         (q : Num) (q_trajectory : list Num) : list Num :=
  match reversed_rewards with
  | [] => q_trajectory
  | reward :: rest =>
      let q' := add reward (mul q gamma) in
      reward_to_go_loop_on gamma rest q' (q_trajectory ++ [q'])
  end.

Definition q_trajectory_on (gamma : Num) (rewards : list Num)
           (reward_to_go : bool) : result (list Num) :=
  let q_trajectory :=
    rev (reward_to_go_loop_on gamma (rev rewards) zero []) in
  if negb reward_to_go then
    match q_trajectory with
    | [] => Err IndexError                      (* q_trajectory[0] *)
    | q0 :: _ => Ok (repeat q0 (length q_trajectory))
    end
  else Ok q_trajectory.

Fixpoint compute_q_values_on (gamma : Num) (rewards_of_paths : list (list Num))
         (reward_to_go : bool) : result (list Num) :=
  match rewards_of_paths with
  | [] => Ok []
  | rewards :: rest =>
      match q_trajectory_on gamma rewards reward_to_go with
      | Err e => Err e
      | Ok q_trajectory =>
          match compute_q_values_on gamma rest reward_to_go with
          | Err e => Err e
          | Ok q_n => Ok (q_trajectory ++ q_n)
          end
      end
  end.

(** The values of the loop read forwards: each is its reward plus the
    value that follows it times [gamma], and [zero] follows the last. *)
Fixpoint returns_on (gamma : Num) (rewards : list Num) : list Num :=
  match rewards with
  | [] => []
  | r :: rest =>
      add r (mul (hd zero (returns_on gamma rest)) gamma)
      :: returns_on gamma rest
  end.

(** The discounted return [rs[0] + g * rs[1] + g^2 * rs[2] + ...] as the
    spec writes it, and the list of it over the suffixes of a
    trajectory. *)
Variable one : Num.

Fixpoint power_on (g : Num) (k : nat) : Num :=
  match k with
  | O => one
  | S k' => mul g (power_on g k')
  end.

Fixpoint discounted_from (k : nat) (g : Num) (rs : list Num) : Num :=
  match rs with
  | [] => zero
  | r :: rest => add (mul (power_on g k) r) (discounted_from (S k) g rest)
  end.

Definition discounted_return (g : Num) (rs : list Num) : Num :=
  discounted_from 0 g rs.

Fixpoint discounted_returns (g : Num) (rs : list Num) : list Num :=
  match rs with
  | [] => []
  | _ :: rest => discounted_return g rs :: discounted_returns g rest
  end.

End Returns.

Arguments reward_to_go_loop_on {Num} add mul gamma reversed_rewards q q_trajectory.
Arguments q_trajectory_on {Num} zero add mul gamma rewards reward_to_go.
Arguments compute_q_values_on {Num} zero add mul gamma rewards_of_paths reward_to_go.
Arguments returns_on {Num} zero add mul gamma rewards.
Arguments power_on {Num} mul one g k.
Arguments discounted_from {Num} zero add mul one k g rs.
Arguments discounted_return {Num} zero add mul one g rs.
Arguments discounted_returns {Num} zero add mul one g rs.

(** ** Further vocabulary: answers that let the loop go on *)

(** Answers of the outside world under which no operation makes an
    autonomous worker raise: the simulation answers a batch as
    [_simulate] builds them, the baseline predicts one value per
    observation, the results queue is found empty after the drain of
    TRAIN, and [task_done] finds a command to acknowledge. *)
Definition obliging (l : Label) : Prop :=
  match l with
  | L_simulate answer => batch_ok (fst answer)
  | L_predict_baseline ob_no answer => length answer = length ob_no
  | L_results_empty answer => answer = true
  | L_task_done answer => answer = true
  | _ => True
  end.

(** [proceeds P R p]: as long as the answers keep the labels in [P],
    program [p] raises nothing, and what it returns is in [R]. *)
Fixpoint proceeds {A : Type} (P : Label -> Prop) (R : A -> Prop)
         (p : Prog A) : Prop :=
  match p with
  | Ret a => R a
  | Raise _ => False
  | Vis op k => forall x, P (label op x) -> proceeds P R (k x)
  end.

Set Implicit Arguments.

Local Open Scope R_scope.

(** * Properties *)

(** ** Returns *)

Section ReturnsProperties.

Variable Num : Type.
Variable zero : Num.
Variables add mul : Num -> Num -> Num.

Lemma reward_to_go_loop_on_snoc (gamma : Num) (l : list Num) (r : Num) :
  forall q acc,
    reward_to_go_loop_on add mul gamma (l ++ [r]) q acc
    = reward_to_go_loop_on add mul gamma l q acc
        ++ [add r (mul (fold_left (fun q r => add r (mul q gamma)) l q) gamma)].
Proof.
  induction l as [|x l IH]; intros q acc; cbn [app reward_to_go_loop_on fold_left].
  - reflexivity.
  - apply IH.
Qed.

Lemma fold_left_rev_returns_on (gamma : Num) (rs : list Num) :
  fold_left (fun q r => add r (mul q gamma)) (rev rs) zero
  = hd zero (returns_on zero add mul gamma rs).
Proof.
  induction rs as [|r rs IH]; cbn [rev returns_on hd fold_left].
  - reflexivity.
  - rewrite fold_left_app. cbn [fold_left]. now rewrite IH.
Qed.

Lemma reward_to_go_loop_on_returns (gamma : Num) (rs : list Num) :
  rev (reward_to_go_loop_on add mul gamma (rev rs) zero [])
  = returns_on zero add mul gamma rs.
Proof.
  induction rs as [|r rs IH]; cbn [rev returns_on].
  - reflexivity.
  - rewrite reward_to_go_loop_on_snoc, rev_app_distr. cbn [rev app].
    now rewrite IH, fold_left_rev_returns_on.
Qed.

Lemma returns_on_length (gamma : Num) (rs : list Num) :
  length (returns_on zero add mul gamma rs) = length rs.
Proof. induction rs; cbn [returns_on length]; congruence. Qed.

(** The backward loop and the reversal are the forward recurrence. *)
Lemma q_trajectory_on_returns (gamma : Num) (rs : list Num) (rtg : bool) :
  q_trajectory_on zero add mul gamma rs rtg
  = if rtg then Ok (returns_on zero add mul gamma rs)
    else match rs with
         | [] => Err IndexError
         | r :: rest =>
             Ok (repeat (hd zero (returns_on zero add mul gamma (r :: rest)))
                        (length (r :: rest)))
         end.
Proof.
  unfold q_trajectory_on. rewrite reward_to_go_loop_on_returns.
  destruct rtg; cbn [negb]; [reflexivity|].
  destruct rs as [|r rest]; [reflexivity|].
  rewrite returns_on_length. reflexivity.
Qed.

(** Arithmetic that is exact obeys the laws of a semiring; the values of
    the loop are then the discounted returns of the spec. *)
Section Exact.

Variable one : Num.
Hypothesis exact : semi_ring_theory zero one add mul eq.

Add Ring exact_numbers : exact.

Lemma discounted_from_S (g : Num) (rs : list Num) :
  forall k,
    discounted_from zero add mul one (S k) g rs
    = mul g (discounted_from zero add mul one k g rs).
Proof.
  induction rs as [|r rs IH]; intros k; cbn [discounted_from power_on].
  - ring.
  - rewrite IH. ring.
Qed.

Lemma hd_returns_on_discounted (g : Num) (rs : list Num) :
  hd zero (returns_on zero add mul g rs)
  = discounted_return zero add mul one g rs.
Proof.
  unfold discounted_return.
  induction rs as [|r rs IH]; cbn [returns_on hd discounted_from power_on].
  - reflexivity.
  - rewrite IH, discounted_from_S. ring.
Qed.

Lemma returns_on_discounted (g : Num) (rs : list Num) :
  returns_on zero add mul g rs = discounted_returns zero add mul one g rs.
Proof.
  induction rs as [|r rs IH]; [reflexivity|].
  cbn [discounted_returns]. rewrite <- IH, <- hd_returns_on_discounted.
  reflexivity.
Qed.

Lemma three_rewards_exact (g r0 r1 r2 : Num) :
  add r0 (mul (add r1 (mul (add r2 (mul zero g)) g)) g)
  = add (add r0 (mul g r1)) (mul (mul g g) r2)
  /\ add r1 (mul (add r2 (mul zero g)) g) = add r1 (mul g r2)
  /\ add r2 (mul zero g) = r2.
Proof. repeat split; ring. Qed.

End Exact.

End ReturnsProperties.

(** [_compute_q_values] is the loop at the idealised [float64]. *)
Lemma reward_to_go_loop_instance (gamma : float64) (l : list float64) :
  forall q acc,
    reward_to_go_loop gamma l q acc
    = reward_to_go_loop_on f_add f_mul gamma l q acc.
Proof.
  induction l as [|r l IH]; intros q acc; [reflexivity|].
  cbn [reward_to_go_loop reward_to_go_loop_on]. apply IH.
Qed.

Lemma compute_q_values_instance (gamma : float64) (paths : list Path)
      (rtg : bool) :
  _compute_q_values gamma paths rtg
  = compute_q_values_on (finite 0) f_add f_mul gamma (map reward paths) rtg.
Proof.
  induction paths as [|path paths IH]; [reflexivity|].
  cbn [_compute_q_values compute_q_values_on map]. rewrite IH.
  unfold q_trajectory_of, q_trajectory_on.
  now rewrite reward_to_go_loop_instance.
Qed.

(** C4.  As the code has it: whatever the arithmetic of the rewards, for
    rewards [[r0; r1; r2]] and discount [g] the returns with reward-to-go
    are [[q0; q1; q2]], where [q2 = r2 + 0 * g], [q1 = r1 + q2 * g] and
    [q0 = r0 + q1 * g] are computed in this order by the operations of
    the rewards; without reward-to-go all three entries are [q0].  For a
    trajectory of any length the returns with reward-to-go follow the
    same recurrence, an empty trajectory having none; without
    reward-to-go every entry of a trajectory that is not empty is the
    first of them, and an empty trajectory raises [IndexError].  Where
    the arithmetic is exact (the laws of a semiring hold), these values
    are [[r0 + g*r1 + g*g*r2; r1 + g*r2; r2]] and, for any length, the
    discounted returns of the suffixes of the trajectory.  The embedding
    [_compute_q_values] that [_rollout] uses is the instance at the
    idealised [float64]. *)
Theorem compute_q_values_returns (Num : Type) (zero : Num)
        (add mul : Num -> Num -> Num) (g : Num) :
  (forall r0 r1 r2,
      compute_q_values_on zero add mul g [[r0; r1; r2]] true
      = Ok [add r0 (mul (add r1 (mul (add r2 (mul zero g)) g)) g);
            add r1 (mul (add r2 (mul zero g)) g);
            add r2 (mul zero g)]
      /\
      compute_q_values_on zero add mul g [[r0; r1; r2]] false
      = Ok (repeat (add r0 (mul (add r1 (mul (add r2 (mul zero g)) g)) g)) 3))
  /\
  (forall rs,
      compute_q_values_on zero add mul g [rs] true
      = Ok (returns_on zero add mul g rs))
  /\
  (forall r rs,
      compute_q_values_on zero add mul g [r :: rs] false
      = Ok (repeat (hd zero (returns_on zero add mul g (r :: rs)))
                   (length (r :: rs))))
  /\
  compute_q_values_on zero add mul g [[]] false = Err IndexError
  /\
  (forall one,
      semi_ring_theory zero one add mul eq ->
      (forall r0 r1 r2,
          compute_q_values_on zero add mul g [[r0; r1; r2]] true
          = Ok [add (add r0 (mul g r1)) (mul (mul g g) r2);
                add r1 (mul g r2);
                r2])
      /\ (forall rs,
             compute_q_values_on zero add mul g [rs] true
             = Ok (discounted_returns zero add mul one g rs))
      /\ (forall r rs,
             compute_q_values_on zero add mul g [r :: rs] false
             = Ok (repeat (discounted_return zero add mul one g (r :: rs))
                          (length (r :: rs)))))
  /\
  (forall gamma paths reward_to_go,
      _compute_q_values gamma paths reward_to_go
      = compute_q_values_on (finite 0) f_add f_mul gamma (map reward paths)
                            reward_to_go).
Proof.
  assert (Hgo : forall rs,
             compute_q_values_on zero add mul g [rs] true
             = Ok (returns_on zero add mul g rs)).
  { intros rs. cbn [compute_q_values_on].
    rewrite q_trajectory_on_returns. now rewrite app_nil_r. }
  assert (Hfull : forall r rs,
             compute_q_values_on zero add mul g [r :: rs] false
             = Ok (repeat (hd zero (returns_on zero add mul g (r :: rs)))
                          (length (r :: rs)))).
  { intros r rs. cbn [compute_q_values_on].
    rewrite q_trajectory_on_returns. now rewrite app_nil_r. }
  split; [|split; [exact Hgo|split; [exact Hfull|split; [reflexivity|split]]]].
  - intros r0 r1 r2. split.
    + rewrite Hgo. reflexivity.
    + rewrite Hfull. reflexivity.
  - intros one exact. split; [|split].
    + intros r0 r1 r2. rewrite Hgo. cbn [returns_on hd].
      destruct (three_rewards_exact exact g r0 r1 r2) as (-> & -> & ->).
      reflexivity.
    + intros rs. rewrite Hgo. f_equal. now apply returns_on_discounted.
    + intros r rs. rewrite Hfull. f_equal. f_equal.
      now apply hd_returns_on_discounted.
  - apply compute_q_values_instance.
Qed.

(** C4 as stated fails on the code in two places.  On float64 rewards
    [[-1e16; 1e16; 1]] with discount 1 the code returns 0 first, since
    [1e16 + 1] rounds to [1e16], while [r0 + g*r1 + g^2*r2] is 1, both as
    the float64 expression and in exact arithmetic (the same loop on
    integers).  And with reward-to-go disabled an empty trajectory
    raises [IndexError]. *)
Lemma compute_q_values_float_counterexample :
  compute_q_values_on 0%float PrimFloat.add PrimFloat.mul 1%float
                      [[-1e16; 1e16; 1]%float] true
  = Ok [0; 1e16; 1]%float
  /\ PrimFloat.add (PrimFloat.add (-1e16) (PrimFloat.mul 1 1e16))
                   (PrimFloat.mul (PrimFloat.mul 1 1) 1)
     = 1%float
  /\ compute_q_values_on 0%float PrimFloat.add PrimFloat.mul 1%float
                         [[-1e16; 1e16; 1]%float] true
     <> Ok [PrimFloat.add (PrimFloat.add (-1e16) (PrimFloat.mul 1 1e16))
                          (PrimFloat.mul (PrimFloat.mul 1 1) 1);
            PrimFloat.add 1e16 (PrimFloat.mul 1 1);
            1]%float
  /\ compute_q_values_on 0%Z Z.add Z.mul 1%Z [[-10 ^ 16; 10 ^ 16; 1]%Z] true
     = Ok [1; 10 ^ 16 + 1; 1]%Z
  /\ compute_q_values_on 0%float PrimFloat.add PrimFloat.mul 1%float [[]] false
     = Err IndexError.
Proof.
  split; [reflexivity|]. split; [reflexivity|]. split; [|split; reflexivity].
  intros E.
  apply (f_equal (fun r => match r with
                           | Ok (x :: _) => PrimFloat.eqb x 1
                           | _ => false
                           end)) in E.
  vm_compute in E. discriminate.
Qed.

(** ** Statistics of affine images *)

Lemma Rsum_affine (c e : R) (v : list R) :
  Rsum (map (fun x => x * c + e) v) = Rsum v * c + INR (length v) * e.
Proof.
  induction v as [|x v IH].
  - simpl. ring.
  - change (Rsum (map (fun x => x * c + e) (x :: v)))
      with (x * c + e + Rsum (map (fun x => x * c + e) v)).
    change (Rsum (x :: v)) with (x + Rsum v).
    change (length (x :: v)) with (S (length v)).
    rewrite IH, S_INR. ring.
Qed.

Lemma INR_length_neq_0 {A : Type} (v : list A) : v <> [] -> INR (length v) <> 0.
Proof.
  intros H. apply not_0_INR. destruct v; [congruence | discriminate].
Qed.

Lemma Rmean_affine (c e : R) (v : list R) :
  v <> [] -> Rmean (map (fun x => x * c + e) v) = Rmean v * c + e.
Proof.
  intros H. unfold Rmean. rewrite Rsum_affine, length_map.
  field. now apply INR_length_neq_0.
Qed.

Lemma Rvar_affine (c e : R) (v : list R) :
  v <> [] -> Rvar (map (fun x => x * c + e) v) = Rvar v * (c * c).
Proof.
  intros H. unfold Rvar. rewrite (Rmean_affine c e H), map_map.
  rewrite <- (Rplus_0_r (Rmean _ * (c * c))).
  rewrite <- (@Rmean_affine (c * c) 0).
  - rewrite map_map. f_equal. apply map_ext. intros x. ring.
  - destruct v; [congruence | discriminate].
Qed.

Lemma Rsum_squares_nonneg (m : R) (v : list R) :
  0 <= Rsum (map (fun x => (x - m) * (x - m)) v).
Proof.
  induction v as [|x v IH]; simpl.
  - lra.
  - pose proof (Rle_0_sqr (x - m)) as Hx. unfold Rsqr in Hx. lra.
Qed.

Lemma Rvar_nonneg (v : list R) : v <> [] -> 0 <= Rvar v.
Proof.
  intros H. unfold Rvar, Rmean at 1. rewrite length_map.
  apply Rmult_le_pos.
  - apply Rsum_squares_nonneg.
  - left. apply Rinv_0_lt_compat, lt_0_INR.
    destruct v; [congruence | simpl; lia].
Qed.

Lemma Rstd_affine (c e : R) (v : list R) :
  v <> [] -> Rstd (map (fun x => x * c + e) v) = Rstd v * Rabs c.
Proof.
  intros H. unfold Rstd. rewrite (Rvar_affine c e H).
  rewrite sqrt_mult_alt by now apply Rvar_nonneg.
  f_equal. apply sqrt_Rsqr_abs.
Qed.

(** ** Arrays of finite numbers *)

Lemma np_sum_finite (v : list R) : np_sum (map finite v) = finite (Rsum v).
Proof.
  induction v as [|x v IH].
  - reflexivity.
  - change (np_sum (map finite (x :: v)))
      with (f_add (finite x) (np_sum (map finite v))).
    now rewrite IH.
Qed.

Lemma f_div_finite (a b : R) : b <> 0 -> f_div (finite a) (finite b) = finite (a / b).
Proof.
  intros H. unfold f_div. destruct (Req_dec_T b 0); [contradiction | reflexivity].
Qed.


Lemma np_mean_finite (v : list R) :
  v <> [] -> np_mean (map finite v) = finite (Rmean v).
Proof.
  intros H. unfold np_mean. rewrite np_sum_finite, length_map.
  apply f_div_finite. now apply INR_length_neq_0.
Qed.

Lemma np_std_finite (v : list R) :
  v <> [] -> np_std (map finite v) = finite (Rstd v).
Proof.
  intros H. unfold np_std. rewrite (np_mean_finite H), map_map.
  cbn [f_sub f_mul lift2].
  change (fun x : R => finite ((x - Rmean v) * (x - Rmean v)))
    with (fun x : R => finite ((fun y => (y - Rmean v) * (y - Rmean v)) x)).
  rewrite <- (map_map (fun y => (y - Rmean v) * (y - Rmean v)) finite).
  rewrite np_mean_finite by (destruct v; [congruence | discriminate]).
  fold (Rvar v). unfold f_sqrt.
  destruct (Rlt_dec (Rvar v) 0) as [Hlt|_]; [|reflexivity].
  pose proof (Rvar_nonneg H). lra.
Qed.

(** An array with a non-finite entry, or none at all, has no finite sum
    divided by its length, hence no finite mean or standard deviation. *)
Lemma np_sum_finite_inv (v : list float64) (x : R) :
  np_sum v = finite x -> exists a, v = map finite a.
Proof.
  revert x. induction v as [|y v IH]; intros x H.
  - now exists [].
  - simpl in H. destruct y as [r|]; [|discriminate].
    destruct (np_sum v) as [z|] eqn:E; [|discriminate].
    destruct (IH z eq_refl) as [a ->]. now exists (r :: a).
Qed.

Lemma np_mean_finite_inv (v : list float64) (x : R) :
  np_mean v = finite x -> exists a, a <> [] /\ v = map finite a.
Proof.
  unfold np_mean. intros H.
  destruct (np_sum v) as [z|] eqn:E; [|discriminate].
  destruct (np_sum_finite_inv _ E) as [a ->].
  exists a. split; [|reflexivity].
  intros ->. simpl in H. destruct (Req_dec_T 0 0); [discriminate | congruence].
Qed.

Lemma np_std_finite_inv (v : list float64) (s : R) :
  np_std v = finite s -> exists a, a <> [] /\ v = map finite a.
Proof.
  unfold np_std, f_sqrt. intros H.
  destruct (np_mean (map _ v)) as [z|] eqn:E; [|discriminate].
  destruct (np_mean_finite_inv _ E) as (b & Hb & Eb).
  assert (Hv : v <> []) by (intros ->; destruct b; [congruence | discriminate]).
  assert (Hall : forall y, In y v -> exists r, y = finite r).
  { intros y Hy.
    assert (Hin : In (f_mul (f_sub y (np_mean v)) (f_sub y (np_mean v)))
                     (map finite b)).
    { rewrite <- Eb. now apply (in_map (fun x => f_mul (f_sub x (np_mean v))
                                                      (f_sub x (np_mean v)))). }
    apply in_map_iff in Hin. destruct Hin as (r & Hr & _).
    destruct y as [r'|]; [now exists r' | discriminate]. }
  clear - Hv Hall.
  assert (exists a, v = map finite a) as [a ->].
  { induction v as [|y v IH].
    - now exists [].
    - destruct (Hall y (or_introl eq_refl)) as [r ->].
      destruct v as [|y' v'].
      + now exists [r].
      + destruct IH as [a Ha]; [discriminate | intros; apply Hall; now right |].
        exists (r :: a). now rewrite Ha. }
  exists a. split; [|reflexivity]. intros ->. now apply Hv.
Qed.

(** ** Advantage normalisation *)

Lemma eps_pos : 0 < eps.
Proof. unfold eps. apply Rinv_0_lt_compat. lra. Qed.

Lemma normalize_finite (a : list R) :
  a <> [] ->
  normalize (map finite a)
  = map finite (map (fun x => x * / (Rstd a + eps)
                              + - Rmean a / (Rstd a + eps)) a).
Proof.
  intros H. unfold normalize.
  rewrite (np_mean_finite H), (np_std_finite H), !map_map.
  apply map_ext. intros x. cbn [f_sub f_add lift2].
  pose proof eps_pos. pose proof (sqrt_pos (Rvar a)). fold (Rstd a) in *.
  rewrite f_div_finite by lra. f_equal. field. lra.
Qed.

(** In exact arithmetic the normalised advantages have mean zero, and
    their standard deviation is the old one divided by itself plus
    [eps]. *)
Lemma normalize_mean_std (adv : list float64) (s : R) :
  np_std adv = finite s ->
  np_mean (normalize adv) = finite 0
  /\ np_std (normalize adv) = finite (s / (s + eps)).
Proof.
  intros Hs. destruct (np_std_finite_inv _ Hs) as (a & Ha & ->).
  rewrite (np_std_finite Ha) in Hs. injection Hs as <-.
  pose proof eps_pos. pose proof (sqrt_pos (Rvar a)). fold (Rstd a) in *.
  assert (Hm : map (fun x => x * / (Rstd a + eps) + - Rmean a / (Rstd a + eps)) a <> []).
  { destruct a; [congruence | discriminate]. }
  rewrite (normalize_finite Ha), (np_mean_finite Hm), (np_std_finite Hm).
  rewrite (Rmean_affine _ _ Ha), (Rstd_affine _ _ Ha).
  split; f_equal.
  - field. lra.
  - rewrite Rabs_pos_eq; [reflexivity|].
    left. apply Rinv_0_lt_compat. lra.
Qed.

(** C5, as the code has it. Whenever the advantages have a standard
    deviation [s > 0], the normalised advantages have mean 0 and standard
    deviation [s / (s + eps)] (exact arithmetic).  That is below 1 by
    [eps / (s + eps)], and within [eps] of 1 once [s >= 1 - eps]. *)
Theorem normalize_statistics (adv : list float64) (s : R) :
  np_std adv = finite s ->
  0 < s ->
  np_mean (normalize adv) = finite 0
  /\ np_std (normalize adv) = finite (s / (s + eps))
  /\ 1 - s / (s + eps) = eps / (s + eps)
  /\ 0 < s / (s + eps) < 1
  /\ (1 - eps <= s -> normalized_within_eps adv).
Proof.
  intros Hs Hpos. destruct (normalize_mean_std _ Hs) as [Hm Hd].
  pose proof eps_pos as He.
  assert (Hq : 1 - s / (s + eps) = eps / (s + eps)) by (field; lra).
  assert (Hlt : 0 < eps / (s + eps)).
  { apply Rdiv_lt_0_compat; lra. }
  assert (Hgt : 0 < s / (s + eps)).
  { apply Rdiv_lt_0_compat; lra. }
  repeat split; try assumption; try lra.
  intros Hbig. exists 0, (s / (s + eps)). repeat split; try assumption.
  - rewrite Rabs_R0. lra.
  - replace (s / (s + eps) - 1) with (- (eps / (s + eps))) by lra.
    rewrite Rabs_Ropp, Rabs_pos_eq by lra.
    apply (Rmult_le_reg_r (s + eps)); [lra|].
    unfold Rdiv. rewrite Rmult_assoc, Rinv_l by lra. nra.
Qed.

Lemma np_std_two_eps : np_std [finite 0; finite (2 * eps)] = finite eps.
Proof.
  change [finite 0; finite (2 * eps)] with (map finite [0; 2 * eps]).
  rewrite np_std_finite by discriminate. f_equal.
  pose proof eps_pos.
  unfold Rstd. apply sqrt_lem_1; [apply Rvar_nonneg; discriminate | lra |].
  unfold Rvar, Rmean. simpl. field.
Qed.

(** C5 as stated fails for a small spread: the advantages
    [[0; 2e-8]] have standard deviation [1e-8 > 0], and after
    normalisation the standard deviation is 1/2. *)
Lemma normalize_small_std_counterexample :
  np_std [finite 0; finite (2 * eps)] = finite eps
  /\ 0 < eps
  /\ np_std (normalize [finite 0; finite (2 * eps)]) = finite (1 / 2)
  /\ ~ normalized_within_eps [finite 0; finite (2 * eps)].
Proof.
  pose proof eps_pos as He.
  pose proof np_std_two_eps as Hs.
  destruct (normalize_mean_std _ Hs) as [_ Hd].
  replace (eps / (eps + eps)) with (1 / 2) in Hd by (field; lra).
  repeat split; try assumption.
  intros (m & s & _ & Hs' & _ & Habs).
  rewrite Hd in Hs'. injection Hs' as <-.
  replace (1 / 2 - 1) with (- (1 / 2)) in Habs by lra.
  rewrite Rabs_Ropp, Rabs_pos_eq in Habs by lra.
  unfold eps in *. lra.
Qed.

(** ** Targets of the baseline fit *)




Local Close Scope R_scope.

(** ** Programs and their runs *)

Lemma runs_bind_inv {A B : Type} (p : Prog A) (k : A -> Prog B) :
  forall t f,
    runs (bind p k) t f ->
    (exists a t1 t2, t = t1 ++ t2 /\ runs p t1 (Returned a) /\ runs (k a) t2 f)
    \/ (exists e, runs p t (Raised e) /\ f = Raised e)
    \/ (runs p t Pending /\ f = Pending).
Proof.
  induction p as [a|e|X op k' IH]; intros t f H; simpl in *.
  - left. exists a, [], t. auto.
  - right. left. destruct H as [-> ->]. exists e. auto.
  - destruct H as [[-> ->]|(x & t' & -> & H)].
    + right. right. auto.
    + destruct (IH x _ _ H) as [(a & t1 & t2 & -> & H1 & H2)|[(e & H1 & ->)|[H1 ->]]].
      * left. exists a, (label op x :: t1), t2. split; [reflexivity|].
        split; [|assumption]. right. eauto.
      * right. left. exists e. split; [|reflexivity]. right. eauto.
      * right. right. split; [|reflexivity]. right. eauto.
Qed.

Lemma runs_bind {A B : Type} (p : Prog A) (k : A -> Prog B) :
  forall t1 a t2 f,
    runs p t1 (Returned a) -> runs (k a) t2 f -> runs (bind p k) (t1 ++ t2) f.
Proof.
  induction p as [a'|e|X op k' IH]; intros t1 a t2 f H1 H2; simpl in *.
  - destruct H1 as [-> H1]. injection H1 as ->. assumption.
  - destruct H1 as [_ H1]. discriminate.
  - destruct H1 as [[_ H1]|(x & t' & -> & H1)]; [discriminate|].
    right. exists x, (t' ++ t2). split; [reflexivity|]. eapply IH; eassumption.
Qed.

(** The lone worker's run is one of the runs. *)
Lemma exec_runs {A : Type} (p : Prog A) :
  forall m c, runs p (trace (exec p m c)) (final (exec p m c)).
Proof.
  induction p as [a|e|X op k IH]; intros m c; simpl.
  - auto.
  - auto.
  - destruct (handle op m c) as [[[x m'] c']|]; simpl.
    + right. exists x, (trace (exec (k x) m' c')). split; [reflexivity|]. apply IH.
    + left. auto.
Qed.

Lemma exec_bind {A B : Type} (p : Prog A) (k : A -> Prog B) :
  forall m c, exec (bind p k) m c = exec_then (exec p m c) k.
Proof.
  induction p as [a|e|X op k' IH]; intros m c; simpl.
  - unfold exec_then. simpl. now destruct (exec (k a) m c).
  - reflexivity.
  - destruct (handle op m c) as [[[x m'] c']|]; [|reflexivity].
    rewrite IH. unfold exec_then, observe. simpl.
    now destruct (final (exec (k' x) m' c')).
Qed.

(** ** The loops of TRAIN *)

Lemma extend_fold_fields (rs : list PartialResult) :
  forall acc,
    observations (fold_left extend rs acc)
    = observations acc ++ concat (map observations rs)
    /\ actions (fold_left extend rs acc)
       = actions acc ++ concat (map actions rs)
    /\ advantages (fold_left extend rs acc)
       = advantages acc ++ concat (map advantages rs)
    /\ normalized_q_n (fold_left extend rs acc)
       = normalized_q_n acc ++ concat (map normalized_q_n rs)
    /\ baseline_prediction (fold_left extend rs acc)
       = baseline_prediction acc ++ concat (map baseline_prediction rs).
Proof.
  induction rs as [|r rs IH]; intros acc; simpl.
  - now rewrite !app_nil_r.
  - destruct (IH (extend acc r)) as (-> & -> & -> & -> & ->). simpl.
    now rewrite <- !app_assoc.
Qed.

(** The aggregated batch is the concatenation, field by field and in
    arrival order, of the results received. *)
Lemma batch_of_fields (rs : list PartialResult) :
  observations (batch_of rs) = concat (map observations rs)
  /\ actions (batch_of rs) = concat (map actions rs)
  /\ advantages (batch_of rs) = concat (map advantages rs)
  /\ normalized_q_n (batch_of rs) = concat (map normalized_q_n rs)
  /\ baseline_prediction (batch_of rs) = concat (map baseline_prediction rs).
Proof. exact (extend_fold_fields rs no_results). Qed.

Lemma drain_runs {B : Type} (k : PartialResult -> Prog B) (n : nat) :
  forall acc t f,
    runs (bind (drain n acc) k) t f ->
    exists rs,
      (length rs < n /\ t = map L_results_get rs /\ f = Pending)
      \/ (length rs = n /\
          exists t', t = map L_results_get rs ++ t'
                     /\ runs (k (fold_left extend rs acc)) t' f).
Proof.
  induction n as [|n IH]; intros acc t f H.
  - exists []. right. split; [reflexivity|]. exists t. auto.
  - simpl in H. destruct H as [[-> ->]|(r & t' & -> & H)].
    + exists []. left. simpl. repeat split. lia.
    + destruct (IH _ _ _ H) as [rs [(Hl & -> & ->)|(Hl & t'' & -> & H')]].
      * exists (r :: rs). left. simpl. repeat split. lia.
      * exists (r :: rs). right. simpl. split; [lia|]. eauto.
Qed.

Lemma put_weights_runs {B : Type} (k : unit -> Prog B) (w : Weights) (n : nat) :
  forall t f,
    runs (bind (put_weights n w) k) t f ->
    (exists j, j < n /\ t = repeat (L_weights_put w) j /\ f = Pending)
    \/ (exists t', t = repeat (L_weights_put w) n ++ t' /\ runs (k tt) t' f).
Proof.
  induction n as [|n IH]; intros t f H.
  - right. exists t. auto.
  - simpl in H. destruct H as [[-> ->]|([] & t' & -> & H)].
    + left. exists 0. repeat split. lia.
    + destruct (IH _ _ H) as [(j & Hj & -> & ->)|(t'' & -> & H')].
      * left. exists (S j). repeat split. lia.
      * right. exists t''. auto.
Qed.

(** ** Traces of the TRAIN branch *)

Lemma train_on_runs {B : Type} (self : Agent) (batch : PartialResult)
      (k : Weights -> Prog B) (t : list Label) (f : Final B) :
  runs (bind (train_on self batch) k) t f ->
  (f = Pending /\
   (t = [] \/
    nn_baseline self = true /\
    t = [L_train_baseline (observations batch) (baseline_prediction batch)
                          (normalized_q_n batch)]))
  \/ exists w t', t = training_labels self batch w ++ t' /\ runs (k w) t' f.
Proof.
  unfold train_on, training_labels. intros H.
  destruct (nn_baseline self); simpl in H.
  - destruct H as [[-> ->]|([] & t1 & -> & H)]; [left; auto|].
    simpl in H.
    destruct H as [[-> ->]|(w & t2 & -> & H)]; [left; auto|].
    right. exists w, t2. auto.
  - destruct H as [[-> ->]|(w & t2 & -> & H)]; [left; auto|].
    right. exists w, t2. auto.
Qed.

Lemma task_done_runs (t : list Label) (f : Final unit) :
  runs task_done t f ->
  (t = [] /\ f = Pending)
  \/ (t = [L_task_done false] /\ f = Raised ValueError)
  \/ (t = [L_task_done true] /\ f = Returned tt).
Proof.
  simpl. intros [[-> ->]|(ok & t' & -> & H)]; [auto|].
  destruct ok; simpl in H; destruct H as [-> ->]; auto.
Qed.

(** In synchronous mode the weights go out once per agent, then the
    command is acknowledged. *)
Lemma publish_sync_runs (self : Agent) (w : Weights) (t : list Label)
      (f : Final Agent) :
  async_transitions self = false ->
  runs (publish self w) t f ->
  (exists j, j <= num_agents self /\ t = repeat (L_weights_put w) j /\ f = Pending)
  \/ (t = repeat (L_weights_put w) (num_agents self) ++ [L_task_done false]
      /\ f = Raised ValueError)
  \/ (t = repeat (L_weights_put w) (num_agents self) ++ [L_task_done true]
      /\ f = Returned self).
Proof.
  unfold publish. intros -> H.
  apply put_weights_runs in H.
  destruct H as [(j & Hj & -> & ->)|(t' & -> & H)].
  - left. exists j. repeat split. lia.
  - apply runs_bind_inv in H.
    destruct H as [(a & t1 & t2 & -> & H1 & H2)|[(e & H1 & ->)|[H1 ->]]].
    + apply task_done_runs in H1.
      destruct H1 as [[_ H1]|[[_ H1]|[-> _]]]; try discriminate.
      simpl in H2. destruct H2 as [-> ->]. right. right. auto.
    + apply task_done_runs in H1.
      destruct H1 as [[_ H1]|[[-> H1]|[_ H1]]]; try discriminate.
      injection H1 as ->. right. left. auto.
    + apply task_done_runs in H1.
      destruct H1 as [[-> _]|[[_ H1]|[_ H1]]]; try discriminate.
      left. exists (num_agents self). rewrite app_nil_r. auto.
Qed.

(** In autonomous mode the weights go out once, when the counter has
    reached [EPOCHES_PER_SYNC], and not at all otherwise. *)
Lemma publish_async_runs (self : Agent) (w : Weights) (t : list Label)
      (f : Final Agent) :
  async_transitions self = true ->
  runs (publish self w) t f ->
  if (EPOCHES_PER_SYNC self <=? epoch_since_last_sync self)%Z then
    (t = [] /\ f = Pending)
    \/ (t = [L_weights_put w] /\ f = Returned (set_epoch_since_last_sync self 1))
  else
    t = [] /\
    f = Returned (set_epoch_since_last_sync self (epoch_since_last_sync self + 1)).
Proof.
  unfold publish. intros -> H.
  destruct (EPOCHES_PER_SYNC self <=? epoch_since_last_sync self)%Z; simpl in H.
  - destruct H as [[-> ->]|([] & t' & -> & -> & ->)]; auto.
  - assumption.
Qed.

(** Every run of the TRAIN branch, whatever the other processes do: the
    debug line, then results taken one by one.  With fewer than
    [num_agents] of them the worker is still waiting.  After exactly
    [num_agents] it asks whether the queue is empty; [False] is fatal,
    [True] leads to training on the batch of exactly these results. *)
Lemma train_branch_runs (self : Agent) (t : list Label) (f : Final Agent) :
  runs (train_branch self) t f ->
  (t = [] /\ f = Pending)
  \/ exists rs,
      length rs <= num_agents self /\
      ((t = L_debug ".TRAIN" :: map L_results_get rs /\ f = Pending)
       \/ (length rs = num_agents self /\
           t = L_debug ".TRAIN" :: map L_results_get rs ++ [L_results_empty false] /\
           f = Raised AssertionError)
       \/ (length rs = num_agents self /\
           exists t',
             t = L_debug ".TRAIN" :: map L_results_get rs
                   ++ L_results_empty true :: t' /\
             runs (bind (train_on self (batch_of rs)) (publish self)) t' f)).
Proof.
  unfold train_branch. simpl.
  intros [[-> ->]|([] & t1 & -> & H)]; [auto|]. right.
  apply drain_runs in H.
  destruct H as [rs [(Hl & -> & ->)|(Hl & t2 & -> & H)]].
  - exists rs. split; [lia|]. auto.
  - exists rs. split; [lia|]. simpl in H.
    destruct H as [[-> ->]|(e & t3 & -> & H)].
    + left. now rewrite app_nil_r.
    + destruct e; simpl in H.
      * right. right. split; [assumption|]. exists t3. auto.
      * destruct H as [-> ->]. right. left. auto.
Qed.

(** ** What a program can do at all *)

Lemma within_runs {A : Type} (P : Label -> Prop) (Q : Exn -> Prop) (p : Prog A) :
  within P Q p ->
  forall t f, runs p t f -> Forall P t /\ forall e, f = Raised e -> Q e.
Proof.
  induction p as [a|e|X op k IH]; simpl; intros HP t f H.
  - destruct H as [-> ->]. split; [constructor | discriminate].
  - destruct H as [-> ->]. split; [constructor|]. now intros e' [= <-].
  - destruct H as [[-> ->]|(x & t' & -> & H)].
    + split; [constructor | discriminate].
    + destruct (HP x) as [Hx Hk]. destruct (IH x Hk _ _ H) as [Ht Hf].
      split; [now constructor | assumption].
Qed.

Lemma within_bind {A B : Type} (P : Label -> Prop) (Q : Exn -> Prop)
      (p : Prog A) (k : A -> Prog B) :
  within P Q p -> (forall a, within P Q (k a)) -> within P Q (bind p k).
Proof.
  induction p as [a|e|X op k' IH]; simpl; intros HP Hk.
  - apply Hk.
  - assumption.
  - intros x. destruct (HP x). split; [assumption|]. now apply IH.
Qed.

Lemma within_call {X : Type} (P : Label -> Prop) (Q : Exn -> Prop) (op : Op X) :
  (forall x, P (label op x)) -> within P Q (call op).
Proof. intros H x. simpl. auto. Qed.

Lemma within_lift_result {A : Type} (P : Label -> Prop) (Q : Exn -> Prop)
      (r : result A) :
  (forall e, r = Err e -> Q e) -> within P Q (lift_result r).
Proof. destruct r; simpl; auto. Qed.

Lemma within_assert (P : Label -> Prop) (Q : Exn -> Prop) (b : bool) :
  (b = false -> Q AssertionError) -> within P Q (assert b).
Proof. destruct b; simpl; auto. Qed.

Lemma within_task_done (P : Label -> Prop) (Q : Exn -> Prop) :
  (forall ok, P (L_task_done ok)) -> Q ValueError -> within P Q task_done.
Proof. intros H HQ ok. simpl. split; [apply H | now destruct ok]. Qed.

Lemma within_put_weights (P : Label -> Prop) (Q : Exn -> Prop) (w : Weights)
      (n : nat) :
  P (L_weights_put w) -> within P Q (put_weights n w).
Proof.
  intros H. induction n as [|n IH]; simpl; [exact I|].
  intros []. auto.
Qed.

Lemma within_drain (P : Label -> Prop) (Q : Exn -> Prop) (n : nat) :
  (forall r, P (L_results_get r)) -> forall acc, within P Q (drain n acc).
Proof.
  intros H. induction n as [|n IH]; intros acc; simpl; [exact I|].
  intros r. auto.
Qed.

Ltac within_call := apply within_call; intros; simpl; auto.

Lemma within_train_on (P : Label -> Prop) (Q : Exn -> Prop) (self : Agent)
      (batch : PartialResult) :
  (forall obs bp nq, P (L_train_baseline obs bp nq)) ->
  (forall obs acs adv w, P (L_train_agent obs acs adv w)) ->
  within P Q (train_on self batch).
Proof.
  intros H1 H2. unfold train_on. apply within_bind.
  - destruct (nn_baseline self); [|exact I]. within_call.
  - intros _. within_call.
Qed.

Lemma within_publish (P : Label -> Prop) (Q : Exn -> Prop) (self : Agent)
      (w : Weights) :
  P (L_weights_put w) ->
  (async_transitions self = false -> (forall ok, P (L_task_done ok)) /\ Q ValueError) ->
  within P Q (publish self w).
Proof.
  intros H1 H2. unfold publish. destruct (async_transitions self).
  - destruct (_ <=? _)%Z; [|exact I].
    apply within_bind; [within_call | intros; exact I].
  - destruct (H2 eq_refl) as [H3 H4].
    apply within_bind; [now apply within_put_weights|]. intros _.
    apply within_bind; [now apply within_task_done | intros; exact I].
Qed.

(** A rollout can only die of an [IndexError] or a [ValueError]. *)
Lemma within__rollout (P : Label -> Prop) (Q : Exn -> Prop) (self : Agent) :
  (forall a, P (L_simulate a)) ->
  (forall ob_no a, P (L_predict_baseline ob_no a)) ->
  (forall r, P (L_results_put r)) ->
  (forall paths, P (L_paths_put paths)) ->
  Q IndexError -> Q ValueError ->
  within P Q (_rollout self).
Proof.
  intros H1 H2 H3 H4 Q1 Q2.
  assert (HQ : forall e, e <> AssertionError -> Q e) by (intros []; congruence).
  assert (Hcat : forall (A : Type) (l : list (list A)) e,
             np_concatenate l = Err e -> Q e).
  { intros A [|x l] e; simpl; [now intros [= <-] | discriminate]. }
  assert (Hq : forall g paths rtg e,
             _compute_q_values g paths rtg = Err e -> Q e).
  { intros g paths rtg. induction paths as [|path rest IH]; simpl; intros e.
    - discriminate.
    - unfold q_trajectory_of.
      destruct (negb rtg);
        [destruct (rev _) as [|q0 qs]; [now intros [= <-]|]|];
        (destruct (_compute_q_values g rest rtg) as [q_n|e'];
         [discriminate | intros [= <-]; now apply IH]). }
  unfold _rollout.
  apply within_bind; [within_call | intros sim].
  apply within_bind; [apply within_lift_result, Hcat | intros ob_no].
  apply within_bind; [apply within_lift_result, Hcat | intros ac_na].
  apply within_bind; [apply within_lift_result, Hq | intros q_n].
  apply within_bind.
  - destruct (nn_baseline self); [|exact I].
    apply within_bind; [within_call | intros bp].
    apply within_bind; [|intros; exact I].
    apply within_lift_result. unfold np_broadcast. intros e.
    destruct (Nat.eqb _ _); [discriminate|].
    destruct q_n as [|? [|? ?]]; destruct (rescale_baseline _ bp) as [|? [|? ?]];
      try discriminate; now intros [= <-].
  - intros ba. apply within_bind; [within_call | intros _; within_call].
Qed.

(** Labels that leave the results queue as it is, and the frame they
    give a lone worker. *)
Lemma handle_results_frame {X : Type} (op : Op X) (m : Model) (c : Channels)
      (x : X) (m' : Model) (c' : Channels) :
  handle op m c = Some (x, m', c') ->
  touches_results_queue (label op x) = false ->
  results c' = results c.
Proof.
  destruct op; simpl; intros H Ht; try discriminate;
    try (injection H as <- <- <-; reflexivity).
  - destruct (state_queue c); [discriminate|]. now injection H as <- <- <-.
  - destruct (is_empty (state_queue c)); [|discriminate]. now injection H as <- <- <-.
  - destruct (unfinished_tasks c); now injection H as <- <- <-.
  - destruct (network_weights c); [discriminate|]. now injection H as <- <- <-.
Qed.

Lemma exec_results_frame {A : Type} (p : Prog A) :
  within (fun l => touches_results_queue l = false) (fun _ => True) p ->
  forall m c,
    results (channels_after (exec p m c)) = results c
    /\ received (trace (exec p m c)) = [].
Proof.
  induction p as [a|e|X op k IH]; simpl; intros HP m c; auto.
  destruct (handle op m c) as [[[x m'] c']|] eqn:E; simpl; auto.
  destruct (HP x) as [Hx Hk]. destruct (IH x Hk m' c') as [-> Hr].
  split; [now apply (handle_results_frame _ _ _ E)|].
  destruct (label op x); try assumption. discriminate.
Qed.

Lemma set_results_same (c : Channels) : set_results c (results c) = c.
Proof. now destruct c. Qed.

(** The drain loop of a lone worker: with enough results queued it takes
    the [n] oldest, otherwise it takes them all and blocks. *)
Lemma drain_exec (n : nat) :
  forall acc m c,
    exec (drain n acc) m c =
    if n <=? length (results c) then
      {| trace := map L_results_get (firstn n (results c));
         final := Returned (fold_left extend (firstn n (results c)) acc);
         model_after := m;
         channels_after := set_results c (skipn n (results c)) |}
    else
      {| trace := map L_results_get (results c);
         final := Pending;
         model_after := m;
         channels_after := set_results c [] |}.
Proof.
  induction n as [|n IH]; intros acc m c.
  - simpl. now rewrite set_results_same.
  - cbn [drain bind call exec handle].
    destruct c as [rs sq u nw pq]. destruct rs as [|r rs]; [reflexivity|].
    cbn [results]. rewrite IH. unfold observe. simpl.
    destruct (n <=? length rs); reflexivity.
Qed.

Lemma received_app (t1 t2 : list Label) :
  received (t1 ++ t2) = received t1 ++ received t2.
Proof.
  induction t1 as [|l t1 IH]; [reflexivity|].
  destruct l; simpl; rewrite IH; reflexivity.
Qed.

Lemma received_gets (rs : list PartialResult) :
  received (map L_results_get rs) = rs.
Proof. induction rs; simpl; congruence. Qed.

Lemma published_app (t1 t2 : list Label) :
  published (t1 ++ t2) = published t1 ++ published t2.
Proof.
  induction t1 as [|l t1 IH]; [reflexivity|].
  destruct l; simpl; rewrite IH; reflexivity.
Qed.

Lemma published_gets (rs : list PartialResult) :
  published (map L_results_get rs) = [].
Proof. induction rs; simpl; congruence. Qed.

Lemma published_puts (w : Weights) (n : nat) :
  published (repeat (L_weights_put w) n) = repeat w n.
Proof. induction n; simpl; congruence. Qed.

Lemma train_rest_emits (self : Agent) (batch : PartialResult) :
  within (fun l => touches_results_queue l = false) (fun _ => True)
         (weights <- train_on self batch ;; publish self weights).
Proof.
  apply within_bind.
  - apply within_train_on; reflexivity.
  - intros w. apply within_publish; [reflexivity | auto].
Qed.

(** The TRAIN branch of a lone worker, by the number of results queued. *)
Lemma train_branch_exec (self : Agent) (m : Model) (c : Channels) :
  received (trace (exec (train_branch self) m c))
  = firstn (num_agents self) (results c)
  /\ results (channels_after (exec (train_branch self) m c))
     = skipn (num_agents self) (results c)
  /\ (length (results c) < num_agents self ->
      final (exec (train_branch self) m c) = Pending)
  /\ (num_agents self < length (results c) ->
      final (exec (train_branch self) m c) = Raised AssertionError)
  /\ (length (results c) = num_agents self ->
      In (L_results_empty true) (trace (exec (train_branch self) m c))).
Proof.
  unfold train_branch. cbn [bind call exec handle observe trace final channels_after].
  rewrite exec_bind, drain_exec.
  destruct (num_agents self <=? length (results c)) eqn:E.
  - apply Nat.leb_le in E. unfold exec_then.
    cbn [final trace model_after channels_after exec handle observe results
         set_results label received].
    destruct (skipn (num_agents self) (results c)) as [|r q] eqn:Es.
    + cbn [is_empty assert bind].
      destruct (exec_results_frame _
                  (train_rest_emits self
                     (fold_left extend (firstn (num_agents self) (results c))
                                no_results))
                  m (set_results c [])) as [Hc Hr].
      cbn [trace channels_after final]. rewrite Hc.
      assert (Hlen : length (results c) = num_agents self).
      { apply (f_equal (@length _)) in Es. rewrite length_skipn in Es.
        simpl in Es. lia. }
      repeat split.
      * rewrite received_app, received_gets. simpl. rewrite Hr.
        now rewrite app_nil_r.
      * intros. lia.
      * intros. lia.
      * intros _. right. apply in_or_app. right. now left.
    + cbn [is_empty assert bind exec trace final channels_after results set_results].
      assert (Hlen : num_agents self < length (results c)).
      { apply (f_equal (@length _)) in Es. rewrite length_skipn in Es.
        simpl in Es. lia. }
      repeat split.
      * rewrite received_app, received_gets. simpl. now rewrite app_nil_r.
      * intros. lia.
      * intros. lia.
  - apply Nat.leb_gt in E. unfold exec_then.
    cbn [final trace model_after channels_after exec handle observe results
         set_results label received].
    rewrite received_gets, firstn_all2, skipn_all2 by lia.
    repeat split; intros; lia.
Qed.

(** C1. Every run of the TRAIN branch takes results from the results
    queue one at a time and starts training only after exactly
    [num_agents] of them, on their concatenation in arrival order; between
    the last of them and the training it asks whether the queue is empty,
    and the answer [False] ends the process with [AssertionError].  For a
    worker alone with the queues this means: the [num_agents] oldest
    results are taken, the queue must hold nothing else, and it is empty
    from the end of the drain on. *)
Theorem train_drains_num_agents (self : Agent) :
  (forall t f,
      runs (train_branch self) t f ->
      (t = [] /\ f = Pending)
      \/ exists rs,
          length rs <= num_agents self /\
          ((t = L_debug ".TRAIN" :: map L_results_get rs /\ f = Pending)
           \/ (length rs = num_agents self /\
               t = L_debug ".TRAIN" :: map L_results_get rs
                     ++ [L_results_empty false] /\
               f = Raised AssertionError)
           \/ (length rs = num_agents self /\
               exists t',
                 t = L_debug ".TRAIN" :: map L_results_get rs
                       ++ L_results_empty true :: t' /\
                 runs (weights <- train_on self (batch_of rs) ;;
                       publish self weights) t' f)))
  /\ (forall rs,
         observations (batch_of rs) = concat (map observations rs)
         /\ actions (batch_of rs) = concat (map actions rs)
         /\ advantages (batch_of rs) = concat (map advantages rs))
  /\ (forall m c,
         received (trace (exec (train_branch self) m c))
         = firstn (num_agents self) (results c)
         /\ results (channels_after (exec (train_branch self) m c))
            = skipn (num_agents self) (results c)
         /\ (length (results c) < num_agents self ->
             final (exec (train_branch self) m c) = Pending)
         /\ (num_agents self < length (results c) ->
             final (exec (train_branch self) m c) = Raised AssertionError)
         /\ (length (results c) = num_agents self ->
             In (L_results_empty true) (trace (exec (train_branch self) m c))
             /\ results (channels_after (exec (train_branch self) m c)) = [])).
Proof.
  split; [|split].
  - intros t f H. exact (train_branch_runs H).
  - intros rs. destruct (batch_of_fields rs) as (H1 & H2 & H3 & _). auto.
  - intros m c.
    destruct (train_branch_exec self m c) as (H1 & H2 & H3 & H4 & H5).
    repeat split; auto.
    rewrite H2. apply skipn_all2. lia.
Qed.

Lemma put_weights_exec (w : Weights) (n : nat) :
  forall m c,
    exec (put_weights n w) m c =
    {| trace := repeat (L_weights_put w) n;
       final := Returned tt;
       model_after := m;
       channels_after :=
         set_network_weights c (network_weights c ++ repeat w n) |}.
Proof.
  induction n as [|n IH]; intros m c.
  - simpl. rewrite app_nil_r. now destruct c.
  - cbn [put_weights bind call exec handle]. rewrite IH.
    unfold observe. cbn. now rewrite <- app_assoc.
Qed.

Lemma train_tail_sync_exec (self : Agent) (batch : PartialResult) (m : Model)
      (c : Channels) (u : nat) :
  async_transitions self = false ->
  unfinished_tasks c = S u ->
  exec (weights <- train_on self batch ;; publish self weights) m c =
  {| trace := training_labels self batch (fst (trained self m batch))
              ++ repeat (L_weights_put (fst (trained self m batch))) (num_agents self)
              ++ [L_task_done true];
     final := Returned self;
     model_after := snd (trained self m batch);
     channels_after :=
       set_state_queue
         (set_network_weights c
            (network_weights c
               ++ repeat (fst (trained self m batch)) (num_agents self)))
         (state_queue c) u |}.
Proof.
  intros Ha Hu. unfold train_on, publish, trained, training_labels.
  rewrite Ha. destruct (nn_baseline self);
    cbn [bind call exec handle observe trace final model_after channels_after label app];
    rewrite exec_bind, put_weights_exec; unfold exec_then;
    cbn [final trace model_after channels_after bind task_done call exec handle
         observe label unfinished_tasks set_network_weights];
    rewrite Hu; cbn; reflexivity.
Qed.

(** A lone worker of the synchronous mode that finds exactly [num_agents]
    results and a command to acknowledge gets through TRAIN. *)
Lemma train_branch_sync_exec (self : Agent) (m : Model) (c : Channels) (u : nat) :
  async_transitions self = false ->
  length (results c) = num_agents self ->
  unfinished_tasks c = S u ->
  final (exec (train_branch self) m c) = Returned self
  /\ published (trace (exec (train_branch self) m c))
     = repeat (fst (trained self m (batch_of (results c)))) (num_agents self)
  /\ network_weights (channels_after (exec (train_branch self) m c))
     = network_weights c
         ++ repeat (fst (trained self m (batch_of (results c)))) (num_agents self)
  /\ unfinished_tasks (channels_after (exec (train_branch self) m c)) = u.
Proof.
  intros Ha Hlen Hu.
  unfold train_branch. cbn [bind call exec handle observe trace final channels_after].
  rewrite exec_bind, drain_exec, <- Hlen, Nat.leb_refl, firstn_all, skipn_all.
  unfold exec_then.
  cbn [final trace model_after channels_after exec handle observe results
       set_results label is_empty assert bind].
  fold (batch_of (results c)).
  rewrite (train_tail_sync_exec self (batch_of (results c)) m (set_results c [])
             Ha Hu).
  cbn [final trace channels_after network_weights unfinished_tasks set_results
       set_state_queue set_network_weights published].
  rewrite Hlen. repeat split.
  rewrite published_app, published_gets. cbn [app published].
  unfold training_labels. rewrite !published_app, published_puts.
  destruct (nn_baseline self); simpl; now rewrite app_nil_r.
Qed.

(** C7. In synchronous mode a TRAIN branch that runs to its end has put
    the weights answered by [train_agent] on the parameters queue exactly
    [num_agents] times and then acknowledged the command; no run of it
    puts more; and a worker alone with the queues that finds exactly
    [num_agents] results and a command to acknowledge does run to the end,
    leaving [num_agents] more copies of the new weights on the parameters
    queue and one command less to acknowledge. *)
Theorem train_sync_publishes (self : Agent) :
  async_transitions self = false ->
  (forall t self',
      runs (train_branch self) t (Returned self') ->
      exists rs w,
        length rs = num_agents self /\
        t = L_debug ".TRAIN" :: map L_results_get rs
              ++ L_results_empty true
              :: training_labels self (batch_of rs) w
              ++ repeat (L_weights_put w) (num_agents self)
              ++ [L_task_done true] /\
        published t = repeat w (num_agents self) /\
        self' = self)
  /\ (forall t f,
         runs (train_branch self) t f ->
         length (published t) <= num_agents self)
  /\ (forall m c u,
         length (results c) = num_agents self ->
         unfinished_tasks c = S u ->
         final (exec (train_branch self) m c) = Returned self
         /\ published (trace (exec (train_branch self) m c))
            = repeat (fst (trained self m (batch_of (results c))))
                     (num_agents self)
         /\ network_weights (channels_after (exec (train_branch self) m c))
            = network_weights c
                ++ repeat (fst (trained self m (batch_of (results c))))
                          (num_agents self)
         /\ unfinished_tasks (channels_after (exec (train_branch self) m c)) = u).
Proof.
  intros Hsync. split; [|split; [|intros m c u Hlen Hu;
                                  exact (train_branch_sync_exec self m c Hsync Hlen Hu)]].
  - intros t self' H.
    destruct (train_branch_runs H)
      as [[_ Hf]|(rs & _ & [[_ Hf]|[(_ & _ & Hf)|(Hl & t' & -> & H')]])];
      try discriminate.
    destruct (train_on_runs _ _ _ _ _ H') as [[Hf _]|(w & t'' & -> & H'')];
      [discriminate|].
    destruct (publish_sync_runs _ _ _ _ Hsync H'')
      as [(j & _ & _ & Hf)|[[_ Hf]|[-> Hf]]]; try discriminate.
    injection Hf as <-. exists rs, w. repeat split; try assumption.
    cbn [published]. rewrite published_app, published_gets.
    cbn [app published]. unfold training_labels.
    rewrite !published_app, published_puts.
    destruct (nn_baseline _); simpl; now rewrite app_nil_r.
  - intros t f H.
    destruct (train_branch_runs H)
      as [[-> _]|(rs & _ & [[-> _]|[(_ & -> & _)|(Hl & t' & -> & H')]])];
      cbn [published]; rewrite ?published_app, ?published_gets; simpl; try lia.
    destruct (train_on_runs _ _ _ _ _ H')
      as [[_ [->|[_ ->]]]|(w & t'' & -> & H'')]; simpl; try lia.
    unfold training_labels. rewrite !published_app.
    assert (Hp : length (published t'') <= num_agents self).
    { destruct (publish_sync_runs _ _ _ _ Hsync H'')
        as [(j & Hj & -> & _)|[[-> _]|[-> _]]];
        rewrite ?published_app, published_puts, ?length_app, repeat_length;
        simpl; lia. }
    destruct (nn_baseline self); simpl; assumption.
Qed.

(** ** Traces of the ROLLOUT and UPDATE branches *)

Lemma rollout_branch_runs (self : Agent) (t : list Label) (f : Final unit) :
  runs (rollout_branch self) t f ->
  (t = [] /\ f = Pending)
  \/ exists t', t = L_debug ".ROLLOUT" :: t' /\ Forall quiet t'
                /\ f <> Raised AssertionError.
Proof.
  unfold rollout_branch. simpl.
  intros [[-> ->]|([] & t' & -> & H)]; [auto|]. right. exists t'.
  split; [reflexivity|].
  assert (W : within quiet (fun e => e <> AssertionError)
                     (_rollout self ;;; call state_queue_wait_empty ;;; task_done)).
  { apply within_bind.
    - apply within__rollout; unfold quiet; simpl; auto; discriminate.
    - intros _. apply within_bind; [within_call; now split|]. intros _.
      apply within_task_done; [now split | discriminate]. }
  destruct (within_runs _ _ _ W _ _ H) as [Ht Hf].
  split; [assumption|]. intros ->. now apply (Hf AssertionError).
Qed.

Lemma update_branch_runs (prev_state : option States) (t : list Label)
      (f : Final unit) :
  runs (update_branch prev_state) t f ->
  (t = [] /\ f = Pending)
  \/ exists t', t = L_debug ".UDPATE" :: t' /\ Forall quiet t'
                /\ (f = Raised AssertionError -> prev_state = Some UPDATE).
Proof.
  unfold update_branch. simpl.
  intros [[-> ->]|([] & t' & -> & H)]; [auto|]. right. exists t'.
  split; [reflexivity|].
  assert (W : within quiet (fun e => e = AssertionError -> prev_state = Some UPDATE)
                     (assert (is_not_UPDATE prev_state) ;;;
                      weights <- call network_weights_get ;;
                      call (load_weights weights) ;;; call sleep ;;; task_done)).
  { apply within_bind.
    - apply within_assert. destruct prev_state as [[]|]; simpl; auto; discriminate.
    - intros _. apply within_bind; [within_call; now split | intros w].
      apply within_bind; [within_call; now split | intros _].
      apply within_bind; [within_call; now split | intros _].
      apply within_task_done; [now split | discriminate]. }
  destruct (within_runs _ _ _ W _ _ H) as [Ht Hf].
  split; [assumption|]. intros ->. now apply (Hf AssertionError).
Qed.

Lemma phases_app (t1 t2 : list Label) : phases (t1 ++ t2) = phases t1 ++ phases t2.
Proof.
  induction t1 as [|l t1 IH]; [reflexivity|].
  simpl. destruct (phase_of l); simpl; now rewrite IH.
Qed.

Lemma phase_of_not_debug (l : Label) : is_any_debug l = false -> phase_of l = None.
Proof. now destruct l. Qed.

Lemma phases_no_debug (t : list Label) :
  Forall (fun l => is_any_debug l = false) t -> phases t = [].
Proof.
  induction 1 as [|l t Hl _ IH]; [reflexivity|].
  simpl. now rewrite (phase_of_not_debug _ Hl).
Qed.

Lemma phases_quiet (t : list Label) : Forall quiet t -> phases t = [].
Proof.
  intros H. apply phases_no_debug. eapply Forall_impl; [|exact H].
  now intros l [Hl _].
Qed.

Lemma published_quiet (t : list Label) : Forall quiet t -> published t = [].
Proof.
  induction 1 as [|l t [_ Hl] _ IH]; [reflexivity|].
  destruct l; simpl; try assumption. discriminate.
Qed.

(** The TRAIN branch in autonomous mode: after the debug line nothing is
    logged and nothing is put before the very end, where the weights go
    out once if the counter has reached [EPOCHES_PER_SYNC]. *)
Lemma train_branch_async_runs (self : Agent) (t : list Label) (f : Final Agent) :
  async_transitions self = true ->
  runs (train_branch self) t f ->
  (t = [] /\ f = Pending)
  \/ exists t',
      t = L_debug ".TRAIN" :: t' /\
      ((Forall quiet t' /\
        forall self', f = Returned self' ->
                      (EPOCHES_PER_SYNC self <=? epoch_since_last_sync self)%Z = false
                      /\ self' = set_epoch_since_last_sync self
                                   (epoch_since_last_sync self + 1))
       \/ ((EPOCHES_PER_SYNC self <=? epoch_since_last_sync self)%Z = true /\
           exists t1 w, t' = t1 ++ [L_weights_put w] /\ Forall quiet t1 /\
                        f = Returned (set_epoch_since_last_sync self 1))).
Proof.
  intros Ha H.
  assert (Hg : forall rs, Forall quiet (map L_results_get rs)).
  { intros rs. apply Forall_forall. intros l Hl. apply in_map_iff in Hl.
    destruct Hl as (r & <- & _). now split. }
  assert (Htl : forall b w, Forall quiet (training_labels self b w)).
  { intros b w. unfold training_labels.
    destruct (nn_baseline self); repeat constructor. }
  destruct (train_branch_runs H)
    as [[-> ->]|(rs & _ & [[-> ->]|[(_ & -> & ->)|(Hl & t' & -> & H')]])];
    [auto | right; eexists; split; [reflexivity|]; left; split; [|discriminate] .. |].
  - apply Hg.
  - apply Forall_app. split; [apply Hg | repeat constructor].
  - right. eexists. split; [reflexivity|].
    destruct (train_on_runs _ _ _ _ _ H')
      as [[-> [->|[_ ->]]]|(w & t'' & -> & H'')].
    + left. split; [|discriminate].
      apply Forall_app. split; [apply Hg | repeat constructor].
    + left. split; [|discriminate].
      apply Forall_app. split; [apply Hg | repeat constructor].
    + pose proof (publish_async_runs _ _ _ _ Ha H'') as Hp.
      destruct (EPOCHES_PER_SYNC self <=? epoch_since_last_sync self)%Z.
      * destruct Hp as [[-> ->]|[-> ->]].
        -- left. split; [|discriminate].
           apply Forall_app. split; [apply Hg|].
           constructor; [now split|]. rewrite app_nil_r. apply Htl.
        -- right. split; [reflexivity|].
           exists (map L_results_get rs ++ L_results_empty true
                     :: training_labels self (batch_of rs) w), w.
           split; [now rewrite <- app_assoc|].
           split; [|reflexivity].
           apply Forall_app. split; [apply Hg|].
           constructor; [now split | apply Htl].
      * destruct Hp as [-> ->]. left. split.
        -- apply Forall_app. split; [apply Hg|].
           constructor; [now split|]. rewrite app_nil_r. apply Htl.
        -- intros self' [= <-]. auto.
Qed.

(** ** The phases of the autonomous loop *)

Lemma schedule_from_succ (s : States) (n : nat) :
  schedule_from s (S n) = s :: schedule_from (succ_phase s) n.
Proof. reflexivity. Qed.

(** One turn of the loop: a branch that logs phase [s], then the rest. *)
Lemma loop_turn_phases {A : Type} (branch : Prog A) (k : A -> Prog LoopEnd)
      (s : States) (Good : A -> Prop) :
  (forall t f,
      runs branch t f ->
      (t = [] /\ f = Pending)
      \/ (phases t = [s]
          /\ (forall e, f = Raised e -> e = AssertionError -> s = TRAIN)
          /\ (forall a, f = Returned a -> Good a))) ->
  (forall a t f,
      Good a -> runs (k a) t f ->
      phases t = schedule_from (succ_phase s) (length (phases t))
      /\ (f = Raised AssertionError -> exists pre, phases t = pre ++ [TRAIN])) ->
  forall t f,
    runs (bind branch k) t f ->
    phases t = schedule_from s (length (phases t))
    /\ (f = Raised AssertionError -> exists pre, phases t = pre ++ [TRAIN]).
Proof.
  intros Hb Hk t f H.
  destruct (runs_bind_inv _ _ _ _ H)
    as [(a & t1 & t2 & -> & H1 & H2)|[(e & H1 & ->)|[H1 ->]]].
  - destruct (Hb _ _ H1) as [[_ Hf]|(Hp & _ & Hg)]; [discriminate|].
    destruct (Hk a t2 f (Hg a eq_refl) H2) as [IH1 IH2].
    rewrite phases_app, Hp. cbn [app length]. rewrite schedule_from_succ. split.
    + now rewrite <- IH1.
    + intros Hf. destruct (IH2 Hf) as [pre ->]. now exists (s :: pre).
  - destruct (Hb _ _ H1) as [[_ Hf]|(Hp & He & _)]; [discriminate|].
    rewrite Hp. split; [reflexivity|].
    intros [= ->]. exists []. simpl. now rewrite (He _ eq_refl eq_refl).
  - destruct (Hb _ _ H1) as [[-> _]|(Hp & _ & _)].
    + split; [reflexivity | discriminate].
    + rewrite Hp. split; [reflexivity | discriminate].
Qed.

Lemma run_loop_async_phases (fuel : nat) :
  forall self prev_state t f,
    async_transitions self = true ->
    runs (run_loop fuel self prev_state) t f ->
    phases t = schedule_from (first_phase prev_state) (length (phases t))
    /\ (f = Raised AssertionError -> exists pre, phases t = pre ++ [TRAIN]).
Proof.
  induction fuel as [|fuel IH]; intros self prev_state t f Ha H.
  - simpl in H. destruct H as [-> ->]. split; [reflexivity | discriminate].
  - cbn [run_loop] in H. unfold get_state_transition in H.
    rewrite Ha in H. cbn [negb bind] in H.
    assert (Rollout :
              runs (rollout_branch self ;;; run_loop fuel self (Some ROLLOUT)) t f ->
              phases t = schedule_from ROLLOUT (length (phases t))
              /\ (f = Raised AssertionError -> exists pre, phases t = pre ++ [TRAIN])).
    { apply loop_turn_phases with (Good := fun _ => True).
      - intros t1 f1 H1.
        destruct (rollout_branch_runs H1) as [?|(t' & -> & Hq & Hf)]; [auto|].
        right. simpl. rewrite (phases_quiet Hq). split; [reflexivity|].
        split; [|auto]. intros e -> ->. now destruct Hf.
      - intros a t2 f2 _ H2. exact (IH self (Some ROLLOUT) t2 f2 Ha H2). }
    destruct prev_state as [[| | |]|]; cbn [next_state] in H.
    + (* after ROLLOUT: TRAIN *)
      revert H.
      apply loop_turn_phases
        with (Good := fun self' : Agent => async_transitions self' = true).
      * intros t1 f1 H1.
        destruct (train_branch_async_runs Ha H1)
          as [?|(t' & -> & [[Hq Hr]|(_ & t1' & w & -> & Hq & ->)])]; [auto| |].
        -- right. simpl. rewrite (phases_quiet Hq). split; [reflexivity|].
           split; [auto|]. intros self' E. destruct (Hr _ E) as [_ ->]. exact Ha.
        -- right. simpl. rewrite phases_app, (phases_quiet Hq). simpl.
           split; [reflexivity|]. split; [auto|]. intros self' [= <-]. exact Ha.
      * intros self' t2 f2 Ha' H2. exact (IH self' (Some TRAIN) t2 f2 Ha' H2).
    + (* after TRAIN: UPDATE *)
      revert H. apply loop_turn_phases with (Good := fun _ => True).
      * intros t1 f1 H1.
        destruct (update_branch_runs H1) as [?|(t' & -> & Hq & Hf)]; [auto|].
        right. simpl. rewrite (phases_quiet Hq). split; [reflexivity|].
        split; [|auto]. intros e -> ->. now specialize (Hf eq_refl).
      * intros a t2 f2 _ H2. exact (IH self (Some UPDATE) t2 f2 Ha H2).
    + simpl in H. destruct H as [-> ->]. split; [reflexivity | discriminate].
    + exact (Rollout H).
    + exact (Rollout H).
Qed.

Lemma schedule_from_no_double_update (n : nat) :
  forall s i,
    nth_error (schedule_from s n) i = Some UPDATE ->
    nth_error (schedule_from s n) (S i) <> Some UPDATE.
Proof.
  induction n as [|n IH]; intros s i H.
  - destruct i; discriminate.
  - destruct i as [|i].
    + simpl in H. injection H as ->. destruct n; simpl; discriminate.
    + simpl in H. apply (IH _ _ H).
Qed.

(** ** Counting the syncs of the autonomous loop *)

Local Arguments Nat.modulo : simpl never.
Local Arguments Nat.div : simpl never.

Lemma sync_monitor_app (t1 t2 : list Label) :
  forall T P,
    sync_monitor T P (t1 ++ t2) <->
    sync_monitor T P t1
    /\ sync_monitor (T + trains t1) (P + length (published t1)) t2.
Proof.
  induction t1 as [|l t1 IH]; intros T P.
  - simpl. rewrite !Nat.add_0_r. tauto.
  - cbn [app sync_monitor trains]. rewrite IH.
    assert (E : (if is_debug ".TRAIN" l then S T else T) + trains t1
                = T + (if is_debug ".TRAIN" l then S (trains t1) else trains t1)).
    { destruct (is_debug ".TRAIN" l); lia. }
    assert (E' : (if is_weights_put l then S P else P) + length (published t1)
                 = P + length (published (l :: t1))).
    { destruct l; simpl; lia. }
    rewrite E, E'. tauto.
Qed.

Lemma quiet_not_debug (msg : string) (l : Label) : quiet l -> is_debug msg l = false.
Proof. destruct l; simpl; intros [H _]; [reflexivity | discriminate | reflexivity ..]. Qed.

Lemma sync_monitor_quiet (t : list Label) :
  Forall quiet t -> forall T P, sync_monitor T P t.
Proof.
  induction 1 as [|l t Hl _ IH]; intros T P; simpl; [exact I|].
  rewrite !(quiet_not_debug _ Hl). destruct Hl as [_ ->].
  repeat split; try discriminate. apply IH.
Qed.

Lemma trains_quiet (t : list Label) : Forall quiet t -> trains t = 0.
Proof.
  induction 1 as [|l t Hl _ IH]; simpl; [reflexivity|].
  now rewrite (quiet_not_debug _ Hl).
Qed.

Lemma trains_app (t1 t2 : list Label) : trains (t1 ++ t2) = trains t1 + trains t2.
Proof.
  induction t1 as [|l t1 IH]; simpl; [reflexivity|].
  destruct (is_debug ".TRAIN" l); simpl; now rewrite IH.
Qed.

(** What the monitor says at a given position of the trace. *)
Lemma sync_monitor_at (t1 : list Label) (l : Label) (t2 : list Label) (T P : nat) :
  sync_monitor T P (t1 ++ l :: t2) ->
  (is_weights_put l = true ->
   (T + trains t1) mod 5 = 0 /\ P + length (published t1) + 1 = (T + trains t1) / 5)
  /\ (is_debug ".UDPATE" l = true -> P + length (published t1) = (T + trains t1) / 5).
Proof.
  rewrite sync_monitor_app. simpl. tauto.
Qed.

(** One turn of the loop for the monitor. *)
Lemma loop_turn_monitor {A : Type} (branch : Prog A) (k : A -> Prog LoopEnd)
      (T P : nat) (Good : A -> nat -> nat -> Prop) :
  (forall t f,
      runs branch t f ->
      sync_monitor T P t
      /\ forall a, f = Returned a -> Good a (T + trains t) (P + length (published t))) ->
  (forall a T' P' t f, Good a T' P' -> runs (k a) t f -> sync_monitor T' P' t) ->
  forall t f, runs (bind branch k) t f -> sync_monitor T P t.
Proof.
  intros Hb Hk t f H.
  destruct (runs_bind_inv _ _ _ _ H)
    as [(a & t1 & t2 & -> & H1 & H2)|[(e & H1 & ->)|[H1 ->]]].
  - destruct (Hb _ _ H1) as [Hm Hg]. apply sync_monitor_app. split; [assumption|].
    eapply Hk; [apply (Hg a eq_refl) | eassumption].
  - now destruct (Hb _ _ H1).
  - now destruct (Hb _ _ H1).
Qed.

Ltac mod5 T :=
  pose proof (Nat.div_mod_eq T 5); pose proof (Nat.div_mod_eq (S T) 5);
  pose proof (Nat.mod_upper_bound T 5); pose proof (Nat.mod_upper_bound (S T) 5).

Lemma run_loop_sync_monitor (fuel : nat) :
  forall self prev_state T P t f,
    sync_invariant self T P ->
    runs (run_loop fuel self prev_state) t f ->
    sync_monitor T P t.
Proof.
  induction fuel as [|fuel IH]; intros self prev_state T P t f Hi H.
  - simpl in H. destruct H as [-> _]. exact I.
  - pose proof Hi as (Ha & HK & Hc & HP).
    cbn [run_loop] in H. unfold get_state_transition in H.
    rewrite Ha in H. cbn [negb bind] in H.
    assert (Rollout :
              runs (rollout_branch self ;;; run_loop fuel self (Some ROLLOUT)) t f ->
              sync_monitor T P t).
    { apply loop_turn_monitor with (Good := fun _ T' P' => T' = T /\ P' = P).
      - intros t1 f1 H1.
        destruct (rollout_branch_runs H1) as [[-> ->]|(t' & -> & Hq & _)].
        + split; [exact I | discriminate].
        + split.
          * simpl. repeat split; try discriminate. now apply sync_monitor_quiet.
          * intros _ _. simpl. rewrite (trains_quiet Hq), (published_quiet Hq).
            simpl. lia.
      - intros a T' P' t2 f2 [-> ->] H2. exact (IH _ _ _ _ _ _ Hi H2). }
    destruct prev_state as [[| | |]|]; cbn [next_state] in H.
    + (* after ROLLOUT: TRAIN *)
      revert H.
      apply loop_turn_monitor with (Good := fun self' T' P' => sync_invariant self' T' P').
      * intros t1 f1 H1.
        destruct (train_branch_async_runs Ha H1)
          as [[-> ->]|(t' & -> & [[Hq Hr]|(Hge & t1' & w & -> & Hq & ->)])].
        -- split; [exact I | discriminate].
        -- split.
           ++ simpl. repeat split; try discriminate. now apply sync_monitor_quiet.
           ++ intros self' E. destruct (Hr _ E) as [Hlt ->].
              simpl. rewrite (trains_quiet Hq), (published_quiet Hq).
              rewrite HK in Hlt. apply Z.leb_gt in Hlt.
              unfold sync_invariant. simpl. mod5 T.
              repeat split; try assumption;
                rewrite ?Nat.add_0_r, ?Nat.add_1_r; lia.
        -- rewrite HK in Hge. apply Z.leb_le in Hge. split.
           ++ simpl. repeat split; try discriminate.
              apply sync_monitor_app. split; [now apply sync_monitor_quiet|].
              rewrite (trains_quiet Hq), (published_quiet Hq). simpl. mod5 T.
              repeat split; try discriminate; rewrite ?Nat.add_0_r; lia.
           ++ intros self' [= <-]. simpl.
              rewrite trains_app, published_app, length_app,
                (trains_quiet Hq), (published_quiet Hq). simpl.
              unfold sync_invariant. simpl. mod5 T.
              repeat split; try assumption;
                rewrite ?Nat.add_0_r, ?Nat.add_1_r; lia.
      * intros self' T' P' t2 f2 Hi' H2. exact (IH _ _ _ _ _ _ Hi' H2).
    + (* after TRAIN: UPDATE *)
      revert H.
      apply loop_turn_monitor with (Good := fun _ T' P' => T' = T /\ P' = P).
      * intros t1 f1 H1.
        destruct (update_branch_runs H1) as [[-> ->]|(t' & -> & Hq & _)].
        -- split; [exact I | discriminate].
        -- split.
           ++ simpl. repeat split; try discriminate;
                [intros _; assumption | now apply sync_monitor_quiet].
           ++ intros _ _. simpl. rewrite (trains_quiet Hq), (published_quiet Hq).
              simpl. lia.
      * intros a T' P' t2 f2 [-> ->] H2. exact (IH _ _ _ _ _ _ Hi H2).
    + simpl in H. destruct H as [-> _]. exact I.
    + exact (Rollout H).
    + exact (Rollout H).
Qed.

(** C6. In autonomous mode, with the counter at 1 and a sync every 5
    epochs as [__init__] sets them, and whatever the other processes do:
    every put on the parameters queue falls in a TRAIN phase whose number
    is a multiple of 5 (the 5th, 10th, ...) and is the one put due for it,
    and each time UPDATE is entered, after [k] TRAIN phases, exactly
    [k / 5] puts have been made.  So the 5th, 10th, ... TRAIN phase puts
    once and the others put nothing. *)
Theorem autonomous_sync_every_fifth_train (fuel : nat) (self : Agent)
        (t : list Label) (f : Final LoopEnd) :
  async_transitions self = true ->
  epoch_since_last_sync self = 1%Z ->
  EPOCHES_PER_SYNC self = 5%Z ->
  runs (run fuel self) t f ->
  (forall t1 w t2,
      t = t1 ++ L_weights_put w :: t2 ->
      5 <= trains t1 /\ trains t1 mod 5 = 0
      /\ length (published t1) + 1 = trains t1 / 5)
  /\ (forall t1 t2,
         t = t1 ++ L_debug ".UDPATE" :: t2 ->
         length (published t1) = trains t1 / 5).
Proof.
  intros Ha Hc HK H.
  assert (Hm : sync_monitor 0 0 t).
  { unfold run in H. simpl in H. destruct H as [[-> _]|([] & t' & -> & H)].
    - exact I.
    - simpl. repeat split; try discriminate.
      eapply run_loop_sync_monitor; [|exact H].
      unfold sync_invariant. rewrite Hc. repeat split; auto. }
  split.
  - intros t1 w t2 ->. apply sync_monitor_at in Hm. destruct Hm as [Hput _].
    specialize (Hput eq_refl). simpl in Hput.
    pose proof (Nat.div_mod_eq (trains t1) 5). lia.
  - intros t1 t2 ->. apply sync_monitor_at in Hm. destruct Hm as [_ Hupd].
    specialize (Hupd eq_refl). simpl in Hupd. lia.
Qed.

(** ** Construction and the next phase *)

(** What [__init__] fixes: at least one agent, the counter at 1, a sync
    every 5 epochs. *)
Lemma Agent__init__spec (g : float64) (rtg na nb : bool) (n : nat) (a : bool)
      (self : Agent) :
  Agent__init__ g rtg na nb n a = Some self ->
  1 <= num_agents self
  /\ num_agents self = n
  /\ async_transitions self = a
  /\ epoch_since_last_sync self = 1%Z
  /\ EPOCHES_PER_SYNC self = 5%Z.
Proof.
  unfold Agent__init__. destruct n as [|n]; [discriminate|].
  intros [= <-]. simpl. repeat split. lia.
Qed.

(** C2. In autonomous mode the next phase is [next_state] of the previous
    one, computed without any operation; in synchronous mode it is the
    oldest item of the command queue, and the worker blocks while the
    queue is empty. *)
Theorem get_state_transition_by_mode (self : Agent) (prev_state : option States)
        (m : Model) (c : Channels) :
  next_state None = Some ROLLOUT
  /\ next_state (Some ROLLOUT) = Some TRAIN
  /\ next_state (Some TRAIN) = Some UPDATE
  /\ next_state (Some UPDATE) = Some ROLLOUT
  /\ get_state_transition self prev_state
     = (if async_transitions self then Ret (next_state prev_state)
        else call state_queue_get)
  /\ exec (get_state_transition self prev_state) m c
     = (if async_transitions self then
          {| trace := []; final := Returned (next_state prev_state);
             model_after := m; channels_after := c |}
        else
          match state_queue c with
          | [] =>
              {| trace := []; final := Pending;
                 model_after := m; channels_after := c |}
          | s :: q =>
              {| trace := [L_state_get s]; final := Returned s;
                 model_after := m;
                 channels_after := set_state_queue c q (unfinished_tasks c) |}
          end).
Proof.
  repeat split; try reflexivity; unfold get_state_transition;
    destruct (async_transitions self); try reflexivity.
  simpl. destruct (state_queue c); reflexivity.
Qed.

(** ** What a rollout publishes *)


(** What the calls after the drain show of the batch they are given. *)
Lemma train_tail_runs (self : Agent) (batch : PartialResult) (t : list Label)
      (f : Final Agent) :
  runs (weights <- train_on self batch ;; publish self weights) t f ->
  received t = []
  /\ forall obs bp nq,
      In (L_train_baseline obs bp nq) t ->
      nn_baseline self = true
      /\ obs = observations batch
      /\ bp = baseline_prediction batch
      /\ nq = normalized_q_n batch.
Proof.
  intros H.
  set (P := fun l : Label =>
              touches_results_queue l = false /\
              forall obs bp nq,
                l = L_train_baseline obs bp nq ->
                nn_baseline self = true
                /\ obs = observations batch
                /\ bp = baseline_prediction batch
                /\ nq = normalized_q_n batch).
  assert (W : within P (fun _ => True)
                     (weights <- train_on self batch ;; publish self weights)).
  { apply within_bind.
    - unfold train_on. apply within_bind.
      + destruct (nn_baseline self); [|exact I].
        within_call. split; [reflexivity|]. now intros obs bp nq [= <- <- <-].
      + intros _. within_call. split; [reflexivity | discriminate].
    - intros w. apply within_publish.
      + split; [reflexivity | discriminate].
      + intros _. split; [|exact I]. intros ok.
        split; [reflexivity | discriminate]. }
  destruct (within_runs _ _ _ W _ _ H) as [Ht _]. split.
  - clear H W. induction Ht as [|l t [Hl _] _ IH]; [reflexivity|].
    destruct l; simpl; try assumption. discriminate.
  - intros obs bp nq Hin. rewrite Forall_forall in Ht.
    destruct (Ht _ Hin) as [_ Hl]. now apply Hl.
Qed.


(** ** The command queue in autonomous mode *)

(** A ROLLOUT branch that runs to its end has waited for the command
    queue to be empty and acknowledged a command, in either mode: the
    branch does not look at [async_transitions]. *)
Lemma rollout_branch_touches_state_queue (self : Agent) (t : list Label) :
  runs (rollout_branch self) t (Returned tt) ->
  exists t', t = t' ++ [L_state_wait_empty; L_task_done true].
Proof.
  intros H. unfold rollout_branch in H. cbn [bind call runs label] in H.
  destruct H as [[_ Hf]|([] & t1 & -> & H)]; [discriminate|].
  apply runs_bind_inv in H.
  destruct H as [(a & t2 & t3 & -> & _ & H)|[(e & _ & Hf)|[_ Hf]]];
    try discriminate.
  simpl in H. destruct H as [[_ Hf]|([] & t4 & -> & H)]; [discriminate|].
  destruct H as [[_ Hf]|(ok & t5 & -> & H)]; [discriminate|].
  destruct ok; simpl in H; destruct H as [-> Hf]; [|discriminate].
  exists (L_debug ".ROLLOUT" :: t2). reflexivity.
Qed.

(** So does an UPDATE branch acknowledge one. *)
Lemma update_branch_touches_state_queue (prev_state : option States)
      (t : list Label) :
  runs (update_branch prev_state) t (Returned tt) ->
  exists t', t = t' ++ [L_task_done true].
Proof.
  unfold update_branch. simpl.
  intros [[_ Hf]|([] & t1 & -> & H)]; [discriminate|].
  destruct (is_not_UPDATE prev_state); simpl in H;
    [|destruct H as [_ Hf]; discriminate].
  destruct H as [[_ Hf]|(w & t2 & -> & H)]; [discriminate|].
  destruct H as [[_ Hf]|([] & t3 & -> & H)]; [discriminate|].
  destruct H as [[_ Hf]|([] & t4 & -> & H)]; [discriminate|].
  destruct H as [[_ Hf]|(ok & t5 & -> & H)]; [discriminate|].
  destruct ok; simpl in H; destruct H as [-> Hf]; [|discriminate].
  exists [L_debug ".UDPATE"; L_weights_get w; L_load_weights w; L_sleep].
  reflexivity.
Qed.

(** TRAIN and the choice of the next phase do leave the command queue
    alone in autonomous mode. *)
Lemma train_branch_async_leaves_state_queue (self : Agent) :
  async_transitions self = true ->
  within (fun l => touches_state_queue l = false) (fun _ => True)
         (train_branch self).
Proof.
  intros Ha. unfold train_branch.
  apply within_bind; [within_call | intros _].
  apply within_bind; [apply within_drain; reflexivity | intros batch].
  apply within_bind; [within_call | intros e].
  apply within_bind; [apply within_assert; auto | intros _].
  apply within_bind; [apply within_train_on; reflexivity | intros w].
  apply within_publish; [reflexivity|]. rewrite Ha. discriminate.
Qed.

Lemma get_state_transition_async_leaves_state_queue (self : Agent)
      (prev_state : option States) :
  async_transitions self = true ->
  within (fun l => touches_state_queue l = false) (fun _ => True)
         (get_state_transition self prev_state).
Proof. intros Ha. unfold get_state_transition. rewrite Ha. exact I. Qed.

(** ** Shutdown *)

(** Every run of the loop turn that received TERMINATE: the debug line, the
    acknowledgement, the three emptiness checks in the order results,
    parameters, trajectories, each fatal when answered [False], and then
    the end of the loop. *)
Lemma terminate_turn_runs (fuel : nat) (self : Agent)
      (prev_state : option States) (t : list Label) (f : Final LoopEnd) :
  async_transitions self = false ->
  runs (run_loop (S fuel) self prev_state) (L_state_get (Some TERMINATE) :: t) f ->
  (t = [] /\ f = Pending)
  \/ (t = [L_debug ".TERMINATE"] /\ f = Pending)
  \/ (t = [L_debug ".TERMINATE"; L_task_done false] /\ f = Raised ValueError)
  \/ (t = [L_debug ".TERMINATE"; L_task_done true] /\ f = Pending)
  \/ (t = [L_debug ".TERMINATE"; L_task_done true; L_results_empty false]
      /\ f = Raised AssertionError)
  \/ (t = [L_debug ".TERMINATE"; L_task_done true; L_results_empty true]
      /\ f = Pending)
  \/ (t = [L_debug ".TERMINATE"; L_task_done true; L_results_empty true;
           L_weights_empty false]
      /\ f = Raised AssertionError)
  \/ (t = [L_debug ".TERMINATE"; L_task_done true; L_results_empty true;
           L_weights_empty true]
      /\ f = Pending)
  \/ (t = [L_debug ".TERMINATE"; L_task_done true; L_results_empty true;
           L_weights_empty true; L_paths_empty false]
      /\ f = Raised AssertionError)
  \/ (t = [L_debug ".TERMINATE"; L_task_done true; L_results_empty true;
           L_weights_empty true; L_paths_empty true]
      /\ f = Returned (Exited (Some TERMINATE))).
Proof.
  intros Hs H. cbn [run_loop] in H. unfold get_state_transition in H.
  rewrite Hs in H. simpl in H.
  destruct H as [[H _]|(s & t0 & [= <- <-] & H)]; [discriminate|].
  simpl in H.
  destruct H as [[-> ->]|([] & t1 & -> & H)]; [tauto|].
  destruct H as [[-> ->]|(ok & t2 & -> & H)]; [tauto|].
  destruct ok; simpl in H; [|destruct H as [-> ->]; tauto].
  destruct H as [[-> ->]|(e1 & t3 & -> & H)]; [tauto|].
  destruct e1; simpl in H; [|destruct H as [-> ->]; tauto].
  destruct H as [[-> ->]|(e2 & t4 & -> & H)]; [tauto|].
  destruct e2; simpl in H; [|destruct H as [-> ->]; tauto].
  destruct H as [[-> ->]|(e3 & t5 & -> & H)]; [tauto|].
  destruct e3; simpl in H; destruct H as [-> ->]; tauto.
Qed.

Unset Implicit Arguments.

Lemma winding_down_terminate (c : Channels) :
  winding_down c (terminate_branch ;;; Ret (Exited (Some TERMINATE))).
Proof.
  simpl. split; [reflexivity|]. intros _ _.
  split; [reflexivity|]. intros ok _. destruct ok; simpl; [|exact I].
  split; [reflexivity|]. intros e1 ->.
  destruct (results c) eqn:E1; simpl; [|exact I].
  split; [reflexivity|]. intros e2 ->.
  destruct (network_weights c) eqn:E2; simpl; [|exact I].
  split; [reflexivity|]. intros e3 ->.
  destruct (paths_queue c) eqn:E3; simpl; [|exact I].
  auto.
Qed.

Lemma at_head_run_loop (c : Channels) (fuel : nat) (self : Agent)
      (prev_state : option States) :
  async_transitions self = false ->
  at_head c (run_loop (S fuel) self prev_state).
Proof.
  intros Hs. cbn [run_loop]. unfold get_state_transition. rewrite Hs.
  cbn [negb bind call at_head]. apply winding_down_terminate.
Qed.

Lemma winding_down_same_data (c c' : Channels) (p : Prog LoopEnd) :
  same_data c c' -> winding_down c p -> winding_down c' p.
Proof.
  intros (H1 & H2 & H3). induction p as [r|e|X op k IH]; simpl.
  - now rewrite H1, H2, H3.
  - auto.
  - intros [Hq Hk]. split; [assumption|]. intros x Hx. apply IH, Hk.
    destruct op; simpl in *; congruence.
Qed.

Lemma at_head_same_data (c c' : Channels) (p : Prog LoopEnd) :
  same_data c c' -> at_head c p -> at_head c' p.
Proof.
  intros Hd. destruct p as [r|e|X op k]; simpl; auto.
  destruct op; auto. now apply winding_down_same_data.
Qed.

Lemma at_head_is_get (c : Channels) (p : Prog LoopEnd) :
  at_head c p -> head_is_get p = true.
Proof. destruct p as [r|e|X op k]; simpl; [tauto..|]. destruct op; tauto. Qed.

Lemma winding_down_not_get (c : Channels) (p : Prog LoopEnd) :
  winding_down c p -> head_is_get p = false.
Proof.
  destruct p as [r|e|X op k]; simpl; [reflexivity..|].
  destruct op; simpl; intros [H _]; congruence.
Qed.

Lemma step_winding_down (c : Channels) (p : Prog LoopEnd) (m : Model)
      (p' : Prog LoopEnd) (m' : Model) (c' : Channels) :
  winding_down c p ->
  step p m c = Some (p', m', c') ->
  winding_down c' p' /\ same_data c c' /\ state_queue c' = state_queue c.
Proof.
  destruct p as [r|e|X op k]; simpl; try discriminate.
  intros [Hq Hk].
  destruct (handle op m c) as [[[x m1] c1]|] eqn:E; [|discriminate].
  intros [= <- <- <-].
  assert (H : same_data c c1 /\ state_queue c1 = state_queue c /\ truthful op c x).
  { unfold same_data. destruct op; simpl in *; try discriminate.
    - now injection E as <- <- <-.
    - now injection E as <- <- <-.
    - destruct (unfinished_tasks c); now injection E as <- <- <-.
    - now injection E as <- <- <-.
    - now injection E as <- <- <-. }
  destruct H as (Hd & Hs & Ht). split; [|auto].
  apply (winding_down_same_data c c1 _ Hd). now apply Hk.
Qed.

Lemma step_at_head (c : Channels) (p : Prog LoopEnd) (m : Model)
      (p' : Prog LoopEnd) (m' : Model) (c' : Channels) (q : list (option States)) :
  at_head c p ->
  state_queue c = Some TERMINATE :: q ->
  step p m c = Some (p', m', c') ->
  winding_down c' p' /\ same_data c c' /\ state_queue c' = q.
Proof.
  destruct p as [r|e|X op k]; simpl; try tauto.
  destruct op; try tauto. simpl. intros Hw Hq. rewrite Hq.
  intros [= <- <- <-]. split; [|now split].
  revert Hw. apply winding_down_same_data. now split.
Qed.

Lemma heads_app (ws1 ws2 : list Worker) : heads (ws1 ++ ws2) = heads ws1 + heads ws2.
Proof. unfold heads. now rewrite filter_app, length_app. Qed.

Lemma worker_ok_same_data (c c' : Channels) (w : Worker) :
  same_data c c' -> worker_ok c w -> worker_ok c' w.
Proof.
  intros Hd [H|H]; [left; now apply (at_head_same_data c c' _ Hd)
                   | right; now apply (winding_down_same_data c c' _ Hd)].
Qed.

Lemma pool_step_shutting_down (s s' : list Worker * Channels) :
  pool_step s s' -> shutting_down s -> shutting_down s'.
Proof.
  intros [ws1 p m ws2 c p' m' c' Hstep] [Hall Hq]. simpl in *.
  apply Forall_app in Hall. destruct Hall as [Hall1 Hall2].
  inversion Hall2 as [|w ws Hw Hall3]; subst.
  unfold heads in Hq. rewrite filter_app, length_app in Hq. simpl in Hq.
  assert (Hnew : winding_down c' p' /\ same_data c c'
                 /\ state_queue c'
                    = repeat (Some TERMINATE) (heads ws1 + heads ws2)).
  { destruct Hw as [Hw|Hw]; simpl in Hw.
    - rewrite (at_head_is_get _ _ Hw) in Hq. simpl in Hq.
      rewrite Nat.add_succ_r in Hq. simpl in Hq.
      destruct (step_at_head _ _ _ _ _ _ _ Hw Hq Hstep) as (H1 & H2 & H3). auto.
    - rewrite (winding_down_not_get _ _ Hw) in Hq.
      destruct (step_winding_down _ _ _ _ _ _ Hw Hstep) as (H1 & H2 & H3).
      rewrite H3, Hq. auto. }
  destruct Hnew as (H1 & H2 & H3). split; simpl.
  - apply Forall_app. split.
    + eapply Forall_impl; [|exact Hall1]. intros w. now apply (worker_ok_same_data c c').
    + constructor; [now right|].
      eapply Forall_impl; [|exact Hall3]. intros w. now apply (worker_ok_same_data c c').
  - rewrite H3. f_equal. unfold heads. rewrite filter_app, length_app. simpl.
    now rewrite (winding_down_not_get _ _ H1).
Qed.

Lemma pool_steps_shutting_down (s s' : list Worker * Channels) :
  pool_steps s s' -> shutting_down s -> shutting_down s'.
Proof.
  induction 1 as [s|s1 s2 s3 H _ IH]; [auto|].
  intros Hs. apply IH. now apply (pool_step_shutting_down s1 s2 H).
Qed.

Lemma pool_steps_length (s s' : list Worker * Channels) :
  pool_steps s s' -> length (fst s') = length (fst s).
Proof.
  induction 1 as [s|s1 s2 s3 H _ IH]; [reflexivity|].
  rewrite IH. destruct H. simpl. now rewrite !length_app.
Qed.

(** C9. A worker of the synchronous mode that receives TERMINATE logs it,
    acknowledges the command, checks in turn that the results, parameters
    and trajectory queues are empty, dying of [AssertionError] at the first
    that is not, and leaves the loop: its run ends there, with no further
    phase.  When the coordinator has broadcast one TERMINATE per worker on
    a drained command queue and every worker of the pool has come to its
    end, under any interleaving of their operations, every worker has left
    its loop through TERMINATE and all four queues are empty. *)
Theorem terminate_shuts_down :
  (forall fuel self prev_state t f,
      async_transitions self = false ->
      runs (run_loop (S fuel) self prev_state)
           (L_state_get (Some TERMINATE) :: t) f ->
      (phases t = [] \/ phases t = [TERMINATE])
      /\ (forall r, f = Returned r ->
                    r = Exited (Some TERMINATE) /\
                    t = [L_debug ".TERMINATE"; L_task_done true;
                         L_results_empty true; L_weights_empty true;
                         L_paths_empty true])
      /\ (In (L_results_empty false) t \/ In (L_weights_empty false) t
          \/ In (L_paths_empty false) t ->
          f = Raised AssertionError))
  /\ (forall ws c0 ws' c',
         ws <> [] ->
         Forall (fun w => exists fuel self prev_state,
                     async_transitions self = false /\
                     code w = run_loop (S fuel) self prev_state) ws ->
         state_queue c0 = [] ->
         pool_steps (ws, broadcast TERMINATE (length ws) c0) (ws', c') ->
         Forall (fun w => exists r, code w = Ret r) ws' ->
         Forall (fun w => code w = Ret (Exited (Some TERMINATE))) ws'
         /\ results c' = [] /\ state_queue c' = []
         /\ network_weights c' = [] /\ paths_queue c' = []).
Proof.
  split.
  - intros fuel self prev_state t f Hs H.
    destruct (terminate_turn_runs fuel self prev_state t f Hs H)
      as [[-> ->]|[[-> ->]|[[-> ->]|[[-> ->]|[[-> ->]|[[-> ->]|[[-> ->]|
          [[-> ->]|[[-> ->]|[-> ->]]]]]]]]]];
      (split; [simpl; tauto|]); (split; [intros r; try discriminate|]);
      try (intros [= <-]; now split);
      simpl; intros [Hi|[Hi|Hi]];
      repeat (destruct Hi as [Hi|Hi]; try discriminate); try reflexivity;
      try destruct Hi.
  - intros ws c0 ws' c' Hne Hws Hq Hsteps Hend.
    assert (Hinit : shutting_down (ws, broadcast TERMINATE (length ws) c0)).
    { split; simpl.
      - eapply Forall_impl; [|exact Hws].
        intros w (fuel & self & prev_state & Hs & E). left. rewrite E.
        now apply at_head_run_loop.
      - rewrite Hq. simpl. f_equal. unfold heads.
        clear - Hws c0. induction Hws as [|w ws (fuel & self & prev_state & Hs & E) _ IH].
        + reflexivity.
        + simpl. rewrite E.
          rewrite (at_head_is_get c0 _ (at_head_run_loop c0 fuel self prev_state Hs)).
          simpl. now rewrite IH. }
    pose proof (pool_steps_shutting_down _ _ Hsteps Hinit) as [Hall Hqueue].
    pose proof (pool_steps_length _ _ Hsteps) as Hlen.
    simpl in *.
    assert (Hret : Forall (fun w => code w = Ret (Exited (Some TERMINATE))
                                    /\ results c' = [] /\ network_weights c' = []
                                    /\ paths_queue c' = []) ws').
    { rewrite Forall_forall in *. intros w Hw.
      destruct (Hend w Hw) as [r E]. destruct (Hall w Hw) as [H|H];
        rewrite E in H; simpl in H; [contradiction|].
      destruct H as (-> & H1 & H2 & H3). auto. }
    assert (Hheads : heads ws' = 0).
    { unfold heads. clear - Hend.
      induction Hend as [|w ws' [r E] _ IH]; [reflexivity|].
      simpl. now rewrite E. }
    rewrite Hheads in Hqueue.
    destruct ws' as [|w ws']; [destruct ws; [congruence | discriminate]|].
    inversion Hret as [|? ? (_ & H1 & H2 & H3) _]; subst.
    repeat split; try assumption.
    eapply Forall_impl; [|exact Hret]. now intros ? [? _].
Qed.

(** ** Schedules *)

Lemma run_schedule_steps (schedule : list nat) :
  forall ws c, pool_steps (ws, c) (run_schedule schedule ws c).
Proof.
  induction schedule as [|i rest IH]; intros ws c; simpl.
  - apply pool_steps_refl.
  - destruct (nth_error ws i) as [w|] eqn:E; [|apply IH].
    destruct (step (code w) (local w) c) as [[[p' m'] c']|] eqn:Es; [|apply IH].
    eapply pool_steps_next; [|apply IH].
    assert (Hsplit : ws = firstn i ws ++ w :: skipn (S i) ws).
    { clear - E. revert ws E. induction i as [|i IHi]; intros [|x ws] E;
        try discriminate.
      - now injection E as ->.
      - simpl. f_equal. now apply IHi. }
    rewrite Hsplit at 1. destruct w as [p m]. now apply pool_step_at.
Qed.

(** * Further properties *)

(** ** Returns of arbitrary rewards *)

Lemma reward_to_go_loop_scan_f (gamma : float64) (l : list float64) :
  forall q acc,
    reward_to_go_loop gamma l q acc = acc ++ scan_f gamma q l.
Proof.
  induction l as [|r l IH]; intros q acc; simpl.
  - now rewrite app_nil_r.
  - rewrite IH, <- app_assoc. reflexivity.
Qed.

Lemma scan_f_snoc (gamma : float64) (l : list float64) (r : float64) :
  forall q,
    scan_f gamma q (l ++ [r])
    = scan_f gamma q l
        ++ [f_add r (f_mul (fold_left (fun q r => f_add r (f_mul q gamma)) l q)
                           gamma)].
Proof.
  induction l as [|x l IH]; intros q; simpl.
  - reflexivity.
  - now rewrite IH.
Qed.

Lemma fold_left_rev_returns_from (gamma : float64) (rs : list float64) :
  fold_left (fun q r => f_add r (f_mul q gamma)) (rev rs) (finite 0)
  = hd (finite 0) (returns_from gamma rs).
Proof.
  induction rs as [|r rs IH]; simpl.
  - reflexivity.
  - now rewrite fold_left_app, IH.
Qed.

Lemma scan_f_rev_returns_from (gamma : float64) (rs : list float64) :
  rev (scan_f gamma (finite 0) (rev rs)) = returns_from gamma rs.
Proof.
  induction rs as [|r rs IH]; simpl.
  - reflexivity.
  - rewrite scan_f_snoc, rev_app_distr. simpl.
    now rewrite IH, fold_left_rev_returns_from.
Qed.

Lemma returns_from_length (gamma : float64) (rs : list float64) :
  length (returns_from gamma rs) = length rs.
Proof. induction rs; simpl; congruence. Qed.

(** The backward loop and the reversal, as the forward recurrence. *)
Lemma q_trajectory_of_returns_from (gamma : float64) (path : Path) (rtg : bool) :
  q_trajectory_of gamma path rtg
  = if rtg then Ok (returns_from gamma (reward path))
    else match returns_from gamma (reward path) with
         | [] => Err IndexError
         | q0 :: _ => Ok (repeat q0 (length (reward path)))
         end.
Proof.
  unfold q_trajectory_of.
  rewrite reward_to_go_loop_scan_f. cbn [app].
  rewrite scan_f_rev_returns_from.
  destruct rtg; cbn [negb]; [reflexivity|].
  now rewrite returns_from_length.
Qed.

Lemma q_trajectory_of_length (gamma : float64) (path : Path) (rtg : bool)
      (q : list float64) :
  q_trajectory_of gamma path rtg = Ok q -> length q = length (reward path).
Proof.
  rewrite q_trajectory_of_returns_from. destruct rtg.
  - intros [= <-]. apply returns_from_length.
  - destruct (returns_from gamma (reward path)); [discriminate|].
    intros [= <-]. apply repeat_length.
Qed.

Lemma q_trajectory_of_error (gamma : float64) (path : Path) (rtg : bool) (e : Exn) :
  q_trajectory_of gamma path rtg = Err e <->
  e = IndexError /\ rtg = false /\ reward path = [].
Proof.
  rewrite q_trajectory_of_returns_from. destruct rtg.
  - split; [discriminate | now intros (_ & H & _)].
  - destruct (reward path) as [|r rs]; simpl.
    + split; [now intros [= <-] | now intros (-> & _)].
    + split; [discriminate | now intros (_ & _ & H)].
Qed.

(** X1. [_compute_q_values] with reward-to-go never fails, whatever the
    rewards are; whenever it succeeds, in either mode, it answers one
    return per reward of the batch; and the returns of a batch made of two
    batches are those of the first followed by those of the second. *)
Theorem compute_q_values_shape (gamma : float64) :
  (forall paths, exists q_n, _compute_q_values gamma paths true = Ok q_n)
  /\ (forall paths rtg q_n,
         _compute_q_values gamma paths rtg = Ok q_n ->
         length q_n = total_rewards paths)
  /\ (forall paths1 paths2 rtg q1 q2,
         _compute_q_values gamma paths1 rtg = Ok q1 ->
         _compute_q_values gamma paths2 rtg = Ok q2 ->
         _compute_q_values gamma (paths1 ++ paths2) rtg = Ok (q1 ++ q2)).
Proof.
  split; [|split].
  - induction paths as [|path paths [q_n IH]]; cbn [_compute_q_values].
    + now exists [].
    + rewrite q_trajectory_of_returns_from, IH. eauto.
  - induction paths as [|path paths IH]; intros rtg q_n; cbn [_compute_q_values].
    + now intros [= <-].
    + destruct (q_trajectory_of gamma path rtg) as [q|e] eqn:Eq; [|discriminate].
      destruct (_compute_q_values gamma paths rtg) as [q'|e] eqn:E; [|discriminate].
      intros [= <-]. unfold total_rewards in *. simpl.
      rewrite !length_app, (IH rtg q' E).
      now rewrite (q_trajectory_of_length _ _ _ _ Eq).
  - induction paths1 as [|path paths1 IH]; intros paths2 rtg q1 q2;
      cbn [_compute_q_values app].
    + now intros [= <-].
    + destruct (q_trajectory_of gamma path rtg) as [q|e]; [|discriminate].
      destruct (_compute_q_values gamma paths1 rtg) as [q'|e] eqn:E1;
        [|discriminate].
      intros [= <-] H2. rewrite (IH paths2 rtg q' q2 E1 H2).
      now rewrite app_assoc.
Qed.

(** X2. The only way [_compute_q_values] fails is [IndexError], and it
    does so exactly when reward-to-go is disabled and some path of the
    batch has no reward at all ([q_trajectory[0]] on an empty list). *)
Theorem compute_q_values_error (gamma : float64) (paths : list Path) (rtg : bool)
        (e : Exn) :
  _compute_q_values gamma paths rtg = Err e <->
  e = IndexError /\ rtg = false /\ Exists (fun path => reward path = []) paths.
Proof.
  induction paths as [|path paths IH]; cbn [_compute_q_values].
  - split; [discriminate|]. intros (_ & _ & H). inversion H.
  - destruct (q_trajectory_of gamma path rtg) as [q|e'] eqn:Eq.
    + assert (Hne : ~ (rtg = false /\ reward path = [])).
      { intros [H1 H2].
        assert (Hx : q_trajectory_of gamma path rtg = Err IndexError)
          by (apply q_trajectory_of_error; auto).
        congruence. }
      destruct (_compute_q_values gamma paths rtg) as [q'|e''].
      * split; [discriminate|]. intros (-> & -> & Hx).
        inversion Hx as [? ? Hp|? ? Hp]; subst.
        -- destruct Hne. auto.
        -- destruct IH as [_ IH].
           discriminate (IH (conj eq_refl (conj eq_refl Hp))).
      * split.
        -- intros [= ->]. destruct IH as [IH _].
           destruct (IH eq_refl) as (He & Hr & Hx). auto.
        -- intros (-> & -> & Hx).
           inversion Hx as [? ? Hp|? ? Hp]; subst.
           ++ destruct Hne. auto.
           ++ destruct IH as [_ IH].
              exact (IH (conj eq_refl (conj eq_refl Hp))).
    + apply q_trajectory_of_error in Eq. destruct Eq as (-> & -> & Hp).
      split.
      * intros [= <-]. auto.
      * now intros (-> & _).
Qed.

(** X3. For rewards of any kind, with reward-to-go each return is its
    reward plus [gamma] times the return of the next step (0 after the
    last), and without it every entry of a non-empty trajectory is the
    first of these returns. *)
Theorem q_trajectory_recurrence (gamma : float64) (o : list Obs) (a : list Act)
        (r : float64) (rewards : list float64) :
  exists q_rest,
    q_trajectory_of gamma {| observation := o; reward := rewards; action := a |} true
    = Ok q_rest
    /\ q_trajectory_of gamma
         {| observation := o; reward := r :: rewards; action := a |} true
       = Ok (f_add r (f_mul (hd (finite 0) q_rest) gamma) :: q_rest)
    /\ q_trajectory_of gamma
         {| observation := o; reward := r :: rewards; action := a |} false
       = Ok (repeat (f_add r (f_mul (hd (finite 0) q_rest) gamma))
                    (S (length rewards))).
Proof.
  exists (returns_from gamma rewards).
  rewrite !q_trajectory_of_returns_from. simpl. auto.
Qed.

(** ** Statistics of the rescaled baseline *)

Local Open Scope R_scope.

Lemma rescale_baseline_finite (q b : list R) :
  q <> [] ->
  rescale_baseline (map finite q) (map finite b)
  = map finite (map (fun x => x * Rstd q + Rmean q) b).
Proof.
  intros H. unfold rescale_baseline.
  rewrite (np_mean_finite H), (np_std_finite H), !map_map.
  apply map_ext. intros x. cbn [f_add f_mul lift2]. f_equal. ring.
Qed.

(** X4. The baseline predictions are rescaled by an affine map: if they
    have mean [mb] and standard deviation [sb], the rescaled baseline has
    mean [mb * s + m] and standard deviation [sb * s], where [m] and [s]
    are those of the Q-values.  Standardised predictions (mean 0,
    deviation 1) are thus given exactly the statistics of the Q-values. *)
Theorem rescale_baseline_statistics (q_n b : list float64) (m s mb sb : R) :
  np_mean q_n = finite m ->
  np_std q_n = finite s ->
  np_mean b = finite mb ->
  np_std b = finite sb ->
  np_mean (rescale_baseline q_n b) = finite (mb * s + m)
  /\ np_std (rescale_baseline q_n b) = finite (sb * s)
  /\ (mb = 0 -> sb = 1 ->
      np_mean (rescale_baseline q_n b) = np_mean q_n
      /\ np_std (rescale_baseline q_n b) = np_std q_n).
Proof.
  intros Hm Hs Hmb Hsb.
  destruct (np_std_finite_inv _ Hs) as (q & Hq & ->).
  destruct (np_std_finite_inv _ Hsb) as (bl & Hb & ->).
  assert (Hne : map (fun x => x * Rstd q + Rmean q) bl <> []).
  { destruct bl; [congruence | discriminate]. }
  assert (Hmean : np_mean (rescale_baseline (map finite q) (map finite bl))
                  = finite (mb * s + m)).
  { rewrite (rescale_baseline_finite q bl Hq), (np_mean_finite Hne).
    rewrite (Rmean_affine _ _ Hb).
    rewrite (np_mean_finite Hq) in Hm. rewrite (np_std_finite Hq) in Hs.
    rewrite (np_mean_finite Hb) in Hmb.
    congruence. }
  assert (Hstd : np_std (rescale_baseline (map finite q) (map finite bl))
                 = finite (sb * s)).
  { rewrite (rescale_baseline_finite q bl Hq), (np_std_finite Hne).
    rewrite (Rstd_affine _ _ Hb).
    rewrite (np_std_finite Hq) in Hs. rewrite (np_std_finite Hb) in Hsb.
    injection Hs as <-. injection Hsb as <-.
    rewrite Rabs_pos_eq; [reflexivity|]. apply sqrt_pos. }
  split; [exact Hmean|]. split; [exact Hstd|].
  intros -> ->. rewrite Hmean, Hstd, Hm, Hs.
  split; f_equal; ring.
Qed.

Local Close Scope R_scope.

(** ** What a rollout does with a batch *)

Lemma compute_q_values_defined (gamma : float64) (paths : list Path) (rtg : bool) :
  Forall (fun path => reward path <> []) paths ->
  exists q_n,
    _compute_q_values gamma paths rtg = Ok q_n
    /\ length q_n = total_rewards paths.
Proof.
  induction 1 as [|path paths Hp _ (q_n & IH & Hl)]; cbn [_compute_q_values].
  - now exists [].
  - rewrite IH, q_trajectory_of_returns_from.
    unfold total_rewards in *. cbn [map concat]. rewrite length_app, <- Hl.
    destruct rtg.
    + eexists. split; [reflexivity|].
      now rewrite length_app, returns_from_length.
    + destruct (reward path) as [|r rs] eqn:E; [congruence|].
      cbn [returns_from]. eexists. split; [reflexivity|].
      now rewrite length_app, repeat_length.
Qed.

Lemma batch_ok_lengths (paths : list Path) :
  Forall path_ok paths ->
  length (concat (map observation paths)) = total_rewards paths
  /\ length (concat (map action paths)) = total_rewards paths.
Proof.
  unfold total_rewards.
  induction 1 as [|path paths (Ho & Ha & _) _ [IHo IHa]]; [now split|].
  cbn [map concat]. rewrite !length_app. split; congruence.
Qed.

Lemma normalize_length (adv_n : list float64) :
  length (normalize adv_n) = length adv_n.
Proof. apply length_map. Qed.

Lemma np_concatenate_paths {A : Type} (g : Path -> list A) (paths : list Path) :
  paths <> [] -> np_concatenate (map g paths) = Ok (concat (map g paths)).
Proof. destruct paths; [congruence | reflexivity]. Qed.

(** What is left of [_rollout] once the simulation has answered a batch
    whose Q-values are defined. *)
Lemma _rollout_after_simulate (self : Agent) (sim : list Path * nat)
      (q_n : list float64) (t : list Label) (f : Final unit) :
  fst sim <> [] ->
  _compute_q_values (gamma self) (fst sim) (reward_to_go self) = Ok q_n ->
  runs (_rollout self) (L_simulate sim :: t) f ->
  runs (ba <- (if nn_baseline self then
                 bp <- call (predict_baseline
                               (concat (map observation (fst sim)))) ;;
                 adv_n <- lift_result
                            (np_broadcast f_sub q_n (rescale_baseline q_n bp)) ;;
                 Ret (bp, adv_n)
               else Ret ([], q_n)) ;;
        call (results_put
                (rollout_result self (fst sim) q_n (fst ba) (snd ba))) ;;;
        call (paths_queue_put (fst sim))) t f.
Proof.
  intros Hne Eq. unfold _rollout. simpl.
  intros [[E _]|(x & t1 & E & H)]; [discriminate|].
  injection E as <- <-.
  rewrite !np_concatenate_paths in H by exact Hne.
  cbn [lift_result bind] in H. rewrite Eq in H.
  cbn [lift_result bind] in H. exact H.
Qed.

Lemma publish_rollout_runs (r : PartialResult) (paths : list Path)
      (t : list Label) (f : Final unit) :
  runs (call (results_put r) ;;; call (paths_queue_put paths)) t f ->
  (t = [] /\ f = Pending)
  \/ (t = [L_results_put r] /\ f = Pending)
  \/ (t = [L_results_put r; L_paths_put paths] /\ f = Returned tt).
Proof.
  simpl. intros [H|([] & t1 & -> & [[-> ->]|([] & t2 & -> & -> & ->)])]; auto.
Qed.

(** X7. A simulation that answers no path at all makes [_rollout] die
    of [ValueError] at once ([np.concatenate] of an empty list), before
    anything is put on a queue. *)
Theorem _rollout_no_paths (self : Agent) (n : nat) (t : list Label)
        (f : Final unit) :
  runs (_rollout self) (L_simulate ([], n) :: t) f ->
  t = [] /\ f = Raised ValueError.
Proof.
  unfold _rollout. simpl.
  intros [[E _]|(x & t1 & E & H)]; [discriminate|].
  injection E as <- <-. exact H.
Qed.

(** X8. Without a baseline, a rollout of a batch as [_simulate] builds
    them raises nothing: it puts one result and then the paths.  The
    result holds one action and one advantage per observation, as many
    as the batch has time steps, and no baseline data. *)
Theorem _rollout_publishes_aligned (self : Agent) (sim : list Path * nat)
        (t : list Label) (f : Final unit) :
  nn_baseline self = false ->
  batch_ok (fst sim) ->
  runs (_rollout self) (L_simulate sim :: t) f ->
  exists r,
    aligned r
    /\ length (observations r) = total_rewards (fst sim)
    /\ normalized_q_n r = [] /\ baseline_prediction r = []
    /\ ((t = [] /\ f = Pending)
        \/ (t = [L_results_put r] /\ f = Pending)
        \/ (t = [L_results_put r; L_paths_put (fst sim)] /\ f = Returned tt)).
Proof.
  intros Hb [Hne Hok] H.
  destruct (compute_q_values_defined (gamma self) (fst sim) (reward_to_go self))
    as (q_n & Eq & Hl).
  { revert Hok. apply Forall_impl. now intros path (_ & _ & Hr). }
  apply (_rollout_after_simulate self sim q_n t f Hne Eq) in H.
  rewrite Hb in H. cbn [bind fst snd] in H.
  apply publish_rollout_runs in H.
  destruct (batch_ok_lengths (fst sim) Hok) as [Ho Ha].
  exists (rollout_result self (fst sim) q_n [] q_n).
  split; [|split; [|split; [|split; [|exact H]]]].
  - unfold aligned, rollout_result. cbn. split; [congruence|].
    destruct (normalize_advantages self);
      rewrite ?normalize_length; congruence.
  - exact Ho.
  - unfold rollout_result. cbn. now rewrite Hb.
  - reflexivity.
Qed.

(** X9. With a baseline, the policy model is asked for one prediction
    per observation of the batch.  If it answers that many, the rollout
    raises nothing and its result is aligned, with the predictions as
    they came and one regression target per observation.  If it answers
    any other number of predictions, neither side being a single value
    that NumPy would broadcast, the rollout dies of [ValueError] before
    anything is put on a queue. *)
Theorem _rollout_baseline_shapes (self : Agent) (sim : list Path * nat)
        (ob_no : list Obs) (bp : list float64) (t : list Label)
        (f : Final unit) :
  nn_baseline self = true ->
  batch_ok (fst sim) ->
  runs (_rollout self) (L_simulate sim :: L_predict_baseline ob_no bp :: t) f ->
  ob_no = concat (map observation (fst sim))
  /\ (length bp = total_rewards (fst sim) ->
      exists r,
        aligned r
        /\ baseline_prediction r = bp
        /\ length (normalized_q_n r) = length (observations r)
        /\ ((t = [] /\ f = Pending)
            \/ (t = [L_results_put r] /\ f = Pending)
            \/ (t = [L_results_put r; L_paths_put (fst sim)]
                /\ f = Returned tt)))
  /\ (length bp <> total_rewards (fst sim) ->
      length bp <> 1 -> total_rewards (fst sim) <> 1 ->
      t = [] /\ f = Raised ValueError).
Proof.
  intros Hb [Hne Hok] H.
  destruct (compute_q_values_defined (gamma self) (fst sim) (reward_to_go self))
    as (q_n & Eq & Hl).
  { revert Hok. apply Forall_impl. now intros path (_ & _ & Hr). }
  apply (_rollout_after_simulate self sim q_n _ f Hne Eq) in H.
  rewrite Hb in H. simpl in H.
  destruct H as [[E _]|(x & t1 & E & H)]; [discriminate|].
  injection E as <- <- <-.
  destruct (batch_ok_lengths (fst sim) Hok) as [Ho Ha].
  assert (Hr : length (rescale_baseline q_n bp) = length bp) by apply length_map.
  split; [reflexivity|]. split.
  - intros Hx. unfold np_broadcast in H.
    rewrite Hr, Hx, Hl, Nat.eqb_refl in H.
    cbn [lift_result bind fst snd] in H.
    apply publish_rollout_runs in H.
    eexists. split; [|split; [|split; [|exact H]]].
    + unfold aligned, rollout_result. cbn.
      split; [congruence|].
      assert (Hc : length (map (fun p => f_sub (fst p) (snd p))
                               (combine q_n (rescale_baseline q_n bp)))
                   = total_rewards (fst sim)).
      { rewrite length_map, length_combine, Hr, Hx, Hl. apply Nat.min_id. }
      destruct (normalize_advantages self);
        rewrite ?normalize_length; congruence.
    + reflexivity.
    + unfold rollout_result. cbn. rewrite Hb.
      unfold baseline_targets. rewrite length_map. congruence.
  - intros Hx H1 Hq. unfold np_broadcast in H.
    rewrite Hr, Hl in H.
    destruct (Nat.eqb_spec (total_rewards (fst sim)) (length bp)) as [E|_];
      [congruence|].
    destruct q_n as [|q0 [|q1 q_n]]; simpl in Hl.
    + destruct bp as [|x0 [|x1 bp]]; simpl in *; try congruence; exact H.
    + congruence.
    + destruct bp as [|x0 [|x1 bp]]; simpl in *; try congruence; exact H.
Qed.

(** ** The simulation loop *)

Lemma total_rewards_cons (path : Path) (paths : list Path) :
  total_rewards (path :: paths) = length (reward path) + total_rewards paths.
Proof. unfold total_rewards. cbn [map concat]. apply length_app. Qed.

Lemma total_rewards_app (paths1 paths2 : list Path) :
  total_rewards (paths1 ++ paths2) = total_rewards paths1 + total_rewards paths2.
Proof.
  unfold total_rewards. now rewrite map_app, concat_app, length_app.
Qed.

Lemma total_rewards_ge_length (paths : list Path) :
  Forall path_ok paths -> length paths <= total_rewards paths.
Proof.
  induction 1 as [|path paths (_ & _ & Hr) _ IH]; [apply Nat.le_refl|].
  rewrite total_rewards_cons. destruct (reward path); [congruence|].
  simpl. lia.
Qed.

Section SimulateProperties.

Variable World : Type.
Variable env_reset : World -> Obs * World.
Variable run_agent : World -> Obs -> list Act * World.
Variable env_step : World -> Act -> Obs * float64 * bool * World.
Variable max_path_length : option Z.
Variable min_timesteps_per_batch : Q.

Local Abbreviation episode_ := (episode World run_agent env_step max_path_length).
Local Abbreviation collect_ :=
  (collect_paths World env_reset run_agent env_step max_path_length
                 min_timesteps_per_batch).
Local Abbreviation simulate_ :=
  (simulate_batch World env_reset run_agent env_step max_path_length
                  min_timesteps_per_batch).
Local Abbreviation enough_ := (enough_timesteps min_timesteps_per_batch).

Lemma episode_finished (fuel : nat) :
  forall w ob obs acs rewards steps res w',
    episode_ fuel w ob obs acs rewards steps = Finished res w' ->
    exists o a r,
      res = (obs ++ o, acs ++ a, rewards ++ r)
      /\ length o = length r /\ length a = length r
      /\ 1 <= length r
      /\ match max_path_length with
         | None => length r = 1
         | Some n => (Z.of_nat (length r) <= Z.max 1 (n - steps + 1))%Z
         end.
Proof.
  induction fuel as [|fuel IH]; intros w ob obs acs rewards steps res w';
    [discriminate|].
  cbn [episode].
  destruct (run_agent w ob) as [[|ac acr] w1]; [discriminate|].
  destruct (env_step w1 ac) as [[[ob' rew] done] w2].
  assert (Hone : exists o a r : list _,
             (obs ++ [ob], acs ++ [ac], rewards ++ [rew])
             = (obs ++ o, acs ++ a, rewards ++ r)
             /\ length o = length r /\ length a = length r
             /\ 1 <= length r
             /\ match max_path_length with
                | None => length r = 1
                | Some n => (Z.of_nat (length r) <= Z.max 1 (n - steps + 1))%Z
                end).
  { exists [ob], [ac], [rew]. simpl. repeat split; try lia.
    destruct max_path_length; simpl; lia. }
  destruct done.
  - intros [= <- <-]. exact Hone.
  - destruct max_path_length as [limit|] eqn:El; [|discriminate].
    destruct (steps + 1 >? limit)%Z eqn:Eg.
    + intros [= <- <-]. exact Hone.
    + intros H. apply IH in H.
      destruct H as (o & a & r & -> & Ho & Ha & H1 & Hl).
      exists (ob :: o), (ac :: a), (rew :: r).
      rewrite <- !app_assoc. simpl. repeat split; try lia.
Qed.

Lemma episode_ends (fuel : nat) :
  forall w ob obs acs rewards steps,
    1 <= fuel ->
    (forall limit, max_path_length = Some limit ->
                   (limit - steps + 1 <= Z.of_nat fuel)%Z) ->
    episode_ fuel w ob obs acs rewards steps <> Unfinished.
Proof.
  induction fuel as [|fuel IH]; intros w ob obs acs rewards steps H1 Hl; [lia|].
  cbn [episode].
  destruct (run_agent w ob) as [[|ac acr] w1]; [discriminate|].
  destruct (env_step w1 ac) as [[[ob' rew] done] w2].
  destruct done; [discriminate|].
  destruct max_path_length as [limit|] eqn:El; [|discriminate].
  destruct (steps + 1 >? limit)%Z eqn:Eg; [discriminate|].
  specialize (Hl limit eq_refl).
  apply IH; [lia|]. intros limit' [= <-]. lia.
Qed.

Lemma episode_more_fuel (fuel : nat) :
  forall fuel' w ob obs acs rewards steps,
    fuel <= fuel' ->
    episode_ fuel w ob obs acs rewards steps <> Unfinished ->
    episode_ fuel' w ob obs acs rewards steps
    = episode_ fuel w ob obs acs rewards steps.
Proof.
  induction fuel as [|fuel IH]; intros fuel' w ob obs acs rewards steps Hle;
    [intros H; now destruct H|].
  destruct fuel' as [|fuel']; [lia|].
  cbn [episode].
  destruct (run_agent w ob) as [[|ac acr] w1]; [reflexivity|].
  destruct (env_step w1 ac) as [[[ob' rew] done] w2].
  destruct done; [reflexivity|].
  destruct max_path_length as [limit|]; [|reflexivity].
  destruct (steps + 1 >? limit)%Z; [reflexivity|].
  apply IH. lia.
Qed.

Lemma episode_no_error (fuel : nat) :
  forall w ob obs acs rewards steps e,
    episode_ fuel w ob obs acs rewards steps = Died e ->
    (e = ac_IndexError /\ exists w' ob', fst (run_agent w' ob') = [])
    \/ (e = steps_TypeError /\ max_path_length = None).
Proof.
  induction fuel as [|fuel IH]; intros w ob obs acs rewards steps e;
    [discriminate|].
  cbn [episode].
  destruct (run_agent w ob) as [[|ac acr] w1] eqn:Er.
  - intros [= <-]. left. split; [reflexivity|].
    exists w, ob. now rewrite Er.
  - destruct (env_step w1 ac) as [[[ob' rew] done] w2].
    destruct done; [discriminate|].
    destruct max_path_length as [limit|] eqn:El.
    + destruct (steps + 1 >? limit)%Z; [discriminate|].
      intros H. apply IH in H. destruct H as [H|[_ H]]; [now left|discriminate].
    + intros [= <-]. now right.
Qed.

Lemma enough_timesteps_false (ts : nat) :
  enough_ ts = false -> ts <= Z.to_nat (Qfloor min_timesteps_per_batch).
Proof.
  unfold enough_timesteps. intros H. apply negb_false_iff in H.
  apply Qle_bool_iff, Qfloor_resp_le in H. rewrite Qfloor_Z in H. lia.
Qed.

Lemma collect_paths_finished (episode_fuel fuel : nat) :
  forall w paths ts paths' ts' w',
    collect_ episode_fuel fuel w paths ts = Finished (paths', ts') w' ->
    exists new,
      paths' = paths ++ new /\ new <> []
      /\ Forall path_ok new
      /\ Forall (within_limit max_path_length) new
      /\ ts' = ts + total_rewards new
      /\ enough_ ts' = true
      /\ (forall pre post,
             new = pre ++ post -> pre <> [] -> post <> [] ->
             enough_ (ts + total_rewards pre) = false).
Proof.
  induction fuel as [|fuel IH]; intros w paths ts paths' ts' w'; [discriminate|].
  cbn [collect_paths].
  destruct (env_reset w) as [ob w1].
  destruct (episode_ episode_fuel w1 ob [] [] [] 0%Z)
    as [[[obs acs] rewards] w2|e|] eqn:E; [|discriminate|discriminate].
  apply episode_finished in E.
  destruct E as (o & a & r & [= -> -> ->] & Ho & Ha & H1 & Hl).
  cbn [reward].
  set (path := {| observation := o; reward := r; action := a |}).
  assert (Hok : path_ok path).
  { unfold path_ok. simpl. repeat split; try assumption.
    destruct r; [simpl in H1; lia | discriminate]. }
  assert (Hlim : within_limit max_path_length path).
  { unfold within_limit. simpl.
    destruct max_path_length; [|assumption].
    replace (z - 0 + 1)%Z with (z + 1)%Z in Hl by lia. exact Hl. }
  destruct (enough_ (ts + length r)) eqn:En.
  - intros [= <- <- <-]. exists [path].
    split; [reflexivity|]. split; [discriminate|].
    split; [now constructor|]. split; [now constructor|].
    split; [rewrite total_rewards_cons; simpl; unfold total_rewards; simpl; lia|].
    split; [exact En|].
    intros pre post Hs Hpre Hpost. apply (f_equal (@length Path)) in Hs.
    rewrite length_app in Hs. simpl in Hs.
    destruct pre; [congruence|]. destruct post; [congruence|].
    simpl in Hs. lia.
  - intros H. apply IH in H.
    destruct H as (new & -> & Hne & Hoks & Hlims & -> & Hen & Hmin).
    exists (path :: new).
    split; [now rewrite <- app_assoc|]. split; [discriminate|].
    split; [now constructor|]. split; [now constructor|].
    rewrite total_rewards_cons. cbn [reward path].
    split; [lia|]. split; [exact Hen|].
    intros pre post Hs Hpre Hpost.
    destruct pre as [|p pre]; [congruence|].
    injection Hs as <- Hs. rewrite total_rewards_cons. cbn [reward path].
    destruct pre as [|p' pre].
    + unfold total_rewards. simpl. now rewrite Nat.add_0_r.
    + rewrite Nat.add_assoc. apply (Hmin _ post Hs); [discriminate | exact Hpost].
Qed.

Lemma collect_paths_ends (episode_fuel fuel : nat) :
  episode_bound max_path_length <= episode_fuel ->
  forall w paths ts,
    1 <= fuel ->
    batch_bound min_timesteps_per_batch <= fuel + ts ->
    collect_ episode_fuel fuel w paths ts <> Unfinished.
Proof.
  intros He. induction fuel as [|fuel IH]; intros w paths ts H1 Hb; [lia|].
  cbn [collect_paths].
  destruct (env_reset w) as [ob w1].
  destruct (episode_ episode_fuel w1 ob [] [] [] 0%Z)
    as [[[obs acs] rewards] w2|e|] eqn:E; [|discriminate|].
  - apply episode_finished in E.
    destruct E as (o & a & r & [= -> -> ->] & Ho & Ha & Hr & Hl).
    cbn [reward].
    destruct (enough_ (ts + length r)) eqn:En; [discriminate|].
    apply enough_timesteps_false in En. unfold batch_bound in Hb.
    apply IH; unfold batch_bound; lia.
  - exfalso. revert E. apply episode_ends.
    + unfold episode_bound in He. destruct max_path_length; lia.
    + intros limit El. unfold episode_bound in He. rewrite El in He. lia.
Qed.

Lemma collect_paths_more_fuel (episode_fuel episode_fuel' fuel : nat) :
  episode_fuel <= episode_fuel' ->
  forall fuel' w paths ts,
    fuel <= fuel' ->
    collect_ episode_fuel fuel w paths ts <> Unfinished ->
    collect_ episode_fuel' fuel' w paths ts
    = collect_ episode_fuel fuel w paths ts.
Proof.
  intros He. induction fuel as [|fuel IH]; intros fuel' w paths ts Hle;
    [intros H; now destruct H|].
  destruct fuel' as [|fuel']; [lia|].
  cbn [collect_paths].
  destruct (env_reset w) as [ob w1].
  destruct (episode_ episode_fuel w1 ob [] [] [] 0%Z) as [res w2|e|] eqn:E;
    [| |intros H; now destruct H].
  - rewrite (episode_more_fuel episode_fuel episode_fuel') by (trivial; congruence).
    rewrite E. destruct res as [[obs acs] rewards]. cbn [reward].
    destruct (enough_ (ts + length rewards)); [reflexivity|].
    apply IH. lia.
  - rewrite (episode_more_fuel episode_fuel episode_fuel') by (trivial; congruence).
    now rewrite E.
Qed.

Lemma collect_paths_no_error (episode_fuel fuel : nat) :
  forall w paths ts e,
    collect_ episode_fuel fuel w paths ts = Died e ->
    (e = ac_IndexError /\ exists w' ob', fst (run_agent w' ob') = [])
    \/ (e = steps_TypeError /\ max_path_length = None).
Proof.
  induction fuel as [|fuel IH]; intros w paths ts e; [discriminate|].
  cbn [collect_paths].
  destruct (env_reset w) as [ob w1].
  destruct (episode_ episode_fuel w1 ob [] [] [] 0%Z)
    as [[[obs acs] rewards] w2|e'|] eqn:E; [| |discriminate].
  - cbn [reward]. destruct (enough_ (ts + length rewards)); [discriminate|].
    apply IH.
  - intros [= <-]. now apply episode_no_error in E.
Qed.

(** X10. [_simulate] ends: [max_path_length + 1] iterations of the inner
    loop (one, if there is no limit) and
    [floor(min_timesteps_per_batch) + 1] of the outer one always see both
    loops through, to a batch or to an exception, and iterating longer
    changes nothing. *)
Theorem simulate_batch_ends (episode_fuel fuel : nat) (w : World) :
  episode_bound max_path_length <= episode_fuel ->
  batch_bound min_timesteps_per_batch <= fuel ->
  simulate_ episode_fuel fuel w <> Unfinished
  /\ simulate_ episode_fuel fuel w
     = simulate_ (episode_bound max_path_length)
                 (batch_bound min_timesteps_per_batch) w.
Proof.
  intros He Hf. unfold simulate_batch.
  assert (Hb : collect_ (episode_bound max_path_length)
                        (batch_bound min_timesteps_per_batch) w [] 0
               <> Unfinished).
  { apply collect_paths_ends; [apply Nat.le_refl | unfold batch_bound; lia | lia]. }
  rewrite (collect_paths_more_fuel _ episode_fuel _ He fuel w [] 0 Hf Hb).
  split; [exact Hb | reflexivity].
Qed.

(** X11. [_simulate] raises only for two reasons: [IndexError] when the
    policy answers an empty array of actions, and [TypeError] when there
    is no path limit to compare the step count with.  With a policy that
    always answers an action and a limit that is a number, it returns a
    batch. *)
Theorem simulate_batch_returns (episode_fuel fuel : nat) (w : World) :
  (forall e,
      simulate_ episode_fuel fuel w = Died e ->
      (e = ac_IndexError /\ exists w' ob', fst (run_agent w' ob') = [])
      \/ (e = steps_TypeError /\ max_path_length = None))
  /\ ((forall w' ob', fst (run_agent w' ob') <> []) ->
      max_path_length <> None ->
      exists paths timesteps w',
        simulate_ (episode_bound max_path_length)
                  (batch_bound min_timesteps_per_batch) w
        = Finished (paths, timesteps) w').
Proof.
  split.
  - intros e. apply collect_paths_no_error.
  - intros Hp Hl. unfold simulate_batch.
    destruct (collect_ (episode_bound max_path_length)
                       (batch_bound min_timesteps_per_batch) w [] 0)
      as [[paths ts] w'|e|] eqn:E.
    + now exists paths, ts, w'.
    + apply collect_paths_no_error in E.
      destruct E as [(_ & w' & ob' & H)|[_ H]]; [|contradiction].
      now destruct (Hp w' ob').
    + exfalso. revert E.
      apply collect_paths_ends; [apply Nat.le_refl | unfold batch_bound; lia | lia].
Qed.

(** X12. A batch that [_simulate] returns has at least one path; every
    path has one observation, one action and one reward per step and at
    least one step; the count returned is the number of rewards of the
    batch.  A path has at most [max_path_length + 1] steps, the test
    being [steps > max_path_length] after the step, and exactly one step
    if there is no limit. *)
Theorem simulate_batch_well_formed (episode_fuel fuel : nat) (w w' : World)
        (paths : list Path) (timesteps : nat) :
  simulate_ episode_fuel fuel w = Finished (paths, timesteps) w' ->
  batch_ok paths
  /\ timesteps = total_rewards paths
  /\ Forall (within_limit max_path_length) paths.
Proof.
  unfold simulate_batch. intros H. apply collect_paths_finished in H.
  destruct H as (new & -> & Hne & Hok & Hlim & -> & _).
  repeat split; assumption.
Qed.

(** X13. A batch that [_simulate] returns holds more time steps than
    [min_timesteps_per_batch], and stops at the first path with which it
    does: without its last path (if it has several) it does not.  So it
    has at most [floor(min_timesteps_per_batch) + 1] paths. *)
Theorem simulate_batch_threshold (episode_fuel fuel : nat) (w w' : World)
        (paths : list Path) (timesteps : nat) :
  simulate_ episode_fuel fuel w = Finished (paths, timesteps) w' ->
  (min_timesteps_per_batch < inject_Z (Z.of_nat timesteps))%Q
  /\ (forall pre last,
         paths = pre ++ [last] -> pre <> [] ->
         (inject_Z (Z.of_nat (total_rewards pre)) <= min_timesteps_per_batch)%Q)
  /\ length paths <= batch_bound min_timesteps_per_batch.
Proof.
  unfold simulate_batch. intros H. apply collect_paths_finished in H.
  destruct H as (new & -> & Hne & Hok & Hlim & -> & Hen & Hmin).
  simpl in *.
  assert (Hpre : forall pre last,
             new = pre ++ [last] -> pre <> [] ->
             enough_ (total_rewards pre) = false).
  { intros pre last -> Hp. apply (Hmin pre [last] eq_refl Hp). discriminate. }
  split; [|split].
  - unfold enough_timesteps in Hen. apply negb_true_iff in Hen.
    apply Qnot_le_lt. intros Hle. apply Qle_bool_iff in Hle. congruence.
  - intros pre last Hs Hp. specialize (Hpre pre last Hs Hp).
    unfold enough_timesteps in Hpre. apply negb_false_iff in Hpre.
    now apply Qle_bool_iff.
  - destruct (exists_last Hne) as (pre & last & ->).
    rewrite length_app. simpl. unfold batch_bound.
    destruct pre as [|p pre]; [simpl; lia|].
    assert (Hp : p :: pre <> []) by discriminate.
    specialize (Hpre _ last eq_refl Hp).
    apply enough_timesteps_false in Hpre.
    apply Forall_app in Hok. destruct Hok as [Hok _].
    apply total_rewards_ge_length in Hok. lia.
Qed.

(** X14. [_rollout] on what [_simulate] returns: without a baseline it
    raises nothing, and the result it publishes is aligned and has as
    many entries as [_simulate] counted time steps. *)
Theorem rollout_of_simulated_batch (episode_fuel fuel : nat) (w w' : World)
        (sim : list Path * nat) (self : Agent) (t : list Label)
        (f : Final unit) :
  simulate_ episode_fuel fuel w = Finished sim w' ->
  nn_baseline self = false ->
  runs (_rollout self) (L_simulate sim :: t) f ->
  (forall e, f <> Raised e)
  /\ forall r,
      In (L_results_put r) t ->
      aligned r /\ length (observations r) = snd sim.
Proof.
  destruct sim as [paths ts]. unfold simulate_batch. intros H Hb Hr.
  apply collect_paths_finished in H.
  destruct H as (new & -> & Hne & Hok & _ & -> & _). simpl in *.
  destruct (compute_q_values_defined (gamma self) new (reward_to_go self))
    as (q_n & Eq & Hl).
  { revert Hok. apply Forall_impl. now intros path (_ & _ & H). }
  apply (_rollout_after_simulate self (new, total_rewards new) q_n t f Hne Eq) in Hr.
  rewrite Hb in Hr. cbn [bind fst snd] in Hr.
  apply publish_rollout_runs in Hr.
  destruct (batch_ok_lengths new Hok) as [Ho Ha].
  assert (Hal : aligned (rollout_result self new q_n [] q_n)
                /\ length (observations (rollout_result self new q_n [] q_n))
                   = total_rewards new).
  { unfold aligned, rollout_result. cbn. repeat split; try congruence.
    destruct (normalize_advantages self);
      rewrite ?normalize_length; congruence. }
  split.
  - intros e. destruct Hr as [[_ ->]|[[_ ->]|[_ ->]]]; discriminate.
  - intros r Hin.
    destruct Hr as [[-> _]|[[-> _]|[-> _]]]; simpl in Hin.
    + destruct Hin.
    + destruct Hin as [[= <-]|[]]. exact Hal.
    + destruct Hin as [[= <-]|[Hin|[]]]; [exact Hal | discriminate].
Qed.

End SimulateProperties.

(** ** The loop in either mode *)

Lemma commands_inner (t : list Label) : Forall inner t -> commands t = [].
Proof.
  induction 1 as [|l t [_ Hl] _ IH]; [reflexivity|].
  destruct l; simpl in *; try assumption. discriminate.
Qed.

Lemma phases_inner (t : list Label) : Forall inner t -> phases t = [].
Proof.
  intros H. apply phases_no_debug. revert H. apply Forall_impl.
  now intros l [Hl _].
Qed.

Lemma commands_app (t1 t2 : list Label) :
  commands (t1 ++ t2) = commands t1 ++ commands t2.
Proof.
  induction t1 as [|l t1 IH]; [reflexivity|].
  destruct l; simpl; now rewrite IH.
Qed.

(** A branch is a debug line that names the phase, and then its inside. *)
Lemma branch_phase {A : Type} (msg : string) (s : States) (rest : Prog A)
      (t : list Label) (f : Final A) :
  phase_of (L_debug msg) = Some s ->
  within inner (fun _ => True) rest ->
  runs (call (_agent_debug msg) ;;; rest) t f ->
  (t = [] /\ f = Pending) \/ (phases t = [s] /\ commands t = []).
Proof.
  intros Hs W. simpl. intros [[-> ->]|([] & t' & -> & H)]; [auto|]. right.
  destruct (within_runs _ _ _ W _ _ H) as [Ht _].
  split.
  - cbn [phases]. rewrite Hs. now rewrite (phases_inner t' Ht).
  - cbn [commands]. now apply commands_inner.
Qed.

Lemma rollout_branch_phase (self : Agent) (t : list Label) (f : Final unit) :
  runs (rollout_branch self) t f ->
  (t = [] /\ f = Pending) \/ (phases t = [ROLLOUT] /\ commands t = []).
Proof.
  apply branch_phase; [reflexivity|].
  apply within_bind.
  - apply within__rollout; intros; try exact I; now split.
  - intros _. apply within_bind; [within_call; now split|]. intros _.
    apply within_task_done; [now split | exact I].
Qed.

Lemma train_branch_phase (self : Agent) (t : list Label) (f : Final Agent) :
  runs (train_branch self) t f ->
  (t = [] /\ f = Pending) \/ (phases t = [TRAIN] /\ commands t = []).
Proof.
  apply branch_phase; [reflexivity|].
  apply within_bind; [apply within_drain; now split | intros batch].
  apply within_bind; [within_call; now split | intros e].
  apply within_bind; [apply within_assert; auto | intros _].
  apply within_bind; [apply within_train_on; now split | intros w].
  apply within_publish; [now split|]. intros _. split; [now split | exact I].
Qed.

Lemma update_branch_phase (prev_state : option States) (t : list Label)
      (f : Final unit) :
  runs (update_branch prev_state) t f ->
  (t = [] /\ f = Pending) \/ (phases t = [UPDATE] /\ commands t = []).
Proof.
  apply branch_phase; [reflexivity|].
  apply within_bind; [apply within_assert; auto | intros _].
  apply within_bind; [within_call; now split | intros w].
  apply within_bind; [within_call; now split | intros _].
  apply within_bind; [within_call; now split | intros _].
  apply within_task_done; [now split | exact I].
Qed.

Lemma terminate_branch_phase (t : list Label) (f : Final unit) :
  runs terminate_branch t f ->
  (t = [] /\ f = Pending) \/ (phases t = [TERMINATE] /\ commands t = []).
Proof.
  apply branch_phase; [reflexivity|].
  apply within_bind; [apply within_task_done; [now split | exact I] | intros _].
  apply within_bind; [within_call; now split | intros e].
  apply within_bind; [apply within_assert; auto | intros _].
  apply within_bind; [within_call; now split | intros e'].
  apply within_bind; [apply within_assert; auto | intros _].
  apply within_bind; [within_call; now split | intros e''].
  apply within_assert; auto.
Qed.

(** UPDATE entered right after an UPDATE: the assertion at its head
    fails. *)
Lemma update_after_update_runs (t : list Label) (f : Final unit) :
  runs (update_branch (Some UPDATE)) t f ->
  (t = [] /\ f = Pending)
  \/ (t = [L_debug ".UDPATE"] /\ f = Raised AssertionError).
Proof.
  simpl. intros [[-> ->]|([] & t' & -> & -> & ->)]; auto.
Qed.

(** The choice of the next phase, in both modes. *)
Lemma get_state_transition_runs {B : Type} (self : Agent)
      (prev_state : option States) (k : option States -> Prog B)
      (t : list Label) (f : Final B) :
  runs (state <- get_state_transition self prev_state ;; k state) t f ->
  (t = [] /\ f = Pending)
  \/ exists state t',
      runs (k state) t' f
      /\ ((async_transitions self = true
           /\ state = next_state prev_state /\ t = t')
          \/ (async_transitions self = false /\ t = L_state_get state :: t')).
Proof.
  unfold get_state_transition. destruct (async_transitions self); simpl.
  - intros H. right. exists (next_state prev_state), t. auto.
  - intros [[-> ->]|(x & t' & -> & H)]; [auto|].
    right. exists x, t'. auto.
Qed.

Lemma entered_length (prev_state : option States) :
  length (entered prev_state) <= 1.
Proof. destruct prev_state; simpl; lia. Qed.

(** A run that stands inside its first turn. *)
Lemma loop_shape_stuck (prev_state : option States) (t : list Label)
      (f : Final LoopEnd) (s : States) :
  phases t = [] \/ phases t = [s] ->
  (forall p, f <> Returned (Exited p)) ->
  (prev_state = Some UPDATE -> phases t = [UPDATE] -> f = Raised AssertionError) ->
  loop_shape prev_state t f.
Proof.
  intros Hp Hf Hu. split; [|split].
  - intros pre post E. apply (f_equal (@length States)) in E.
    rewrite length_app in E. simpl in E.
    destruct post; [reflexivity|].
    destruct Hp as [Hp|Hp]; rewrite Hp in E; simpl in E; lia.
  - intros pre post E.
    pose proof (f_equal (@length States) E) as El.
    rewrite !length_app in El. simpl in El.
    pose proof (entered_length prev_state) as Hl.
    destruct Hp as [Hp|Hp]; rewrite Hp in *; simpl in El; [lia|].
    destruct pre; [|simpl in El; lia].
    destruct post; [|simpl in El; lia].
    destruct prev_state as [p|]; simpl in E; [|discriminate].
    injection E as -> ->. split; [reflexivity|]. now apply Hu.
  - intros p E. now destruct (Hf p).
Qed.

Lemma loop_shape_phases (prev_state : option States) (t t' : list Label)
      (f : Final LoopEnd) :
  phases t = phases t' -> loop_shape prev_state t' f -> loop_shape prev_state t f.
Proof. unfold loop_shape. now intros ->. Qed.

(** One turn of the loop in a phase other than TERMINATE. *)
Lemma loop_shape_turn {A : Type} (branch : Prog A) (k : A -> Prog LoopEnd)
      (s : States) (prev_state : option States) :
  s <> TERMINATE ->
  (forall t f, runs branch t f -> (t = [] /\ f = Pending) \/ phases t = [s]) ->
  (prev_state = Some UPDATE -> s = UPDATE ->
   forall t f, runs branch t f -> phases t = [s] -> f = Raised AssertionError) ->
  (forall a t f, runs (k a) t f -> loop_shape (Some s) t f) ->
  forall t f, runs (bind branch k) t f -> loop_shape prev_state t f.
Proof.
  intros Hs Hb Hu Hk t f H.
  destruct (runs_bind_inv _ _ _ _ H)
    as [(a & t1 & t2 & -> & H1 & H2)|[(e & H1 & ->)|[H1 ->]]].
  - destruct (Hb _ _ H1) as [[_ Hf]|Hp]; [discriminate|].
    destruct (Hk a t2 f H2) as (IH1 & IH2 & IH3).
    unfold loop_shape. rewrite phases_app, Hp. cbn [app].
    split; [|split].
    + intros pre post E. destruct pre as [|x pre]; simpl in E.
      * injection E as E _. now destruct Hs.
      * injection E as _ E. now apply (IH1 pre post).
    + intros pre post E.
      destruct prev_state as [p|]; cbn [entered app] in E.
      * destruct pre as [|x pre]; simpl in E.
        -- injection E as -> -> _.
           discriminate (Hu eq_refl eq_refl _ _ H1 Hp).
        -- injection E as _ E. now apply (IH2 pre post).
      * now apply (IH2 pre post).
    + intros p E. destruct (IH3 p E) as [-> [pre E']].
      split; [reflexivity|]. exists (s :: pre). now rewrite E'.
  - apply loop_shape_stuck with (s := s).
    + destruct (Hb _ _ H1) as [[-> _]|Hp]; auto.
    + discriminate.
    + intros -> Hp.
      destruct (Hb _ _ H1) as [[_ Hf]|Hp']; [discriminate|].
      assert (s = UPDATE) as -> by congruence.
      injection (Hu eq_refl eq_refl _ _ H1 Hp) as ->. reflexivity.
  - apply loop_shape_stuck with (s := s).
    + destruct (Hb _ _ H1) as [[-> _]|Hp]; auto.
    + discriminate.
    + intros -> Hp.
      destruct (Hb _ _ H1) as [[-> _]|Hp']; [discriminate|].
      assert (s = UPDATE) as -> by congruence.
      discriminate (Hu eq_refl eq_refl _ _ H1 Hp).
Qed.

Lemma loop_shape_terminate (prev_state : option States) (t : list Label)
      (f : Final LoopEnd) :
  runs (terminate_branch ;;; Ret (Exited (Some TERMINATE))) t f ->
  loop_shape prev_state t f.
Proof.
  intros H.
  destruct (runs_bind_inv _ _ _ _ H)
    as [(a & t1 & t2 & -> & H1 & [-> ->])|[(e & H1 & ->)|[H1 ->]]].
  - destruct (terminate_branch_phase _ _ H1) as [[_ Hf]|[Hp _]]; [discriminate|].
    unfold loop_shape. rewrite app_nil_r, Hp. split; [|split].
    + intros pre post E. apply (f_equal (@length States)) in E.
      rewrite length_app in E. simpl in E. destruct post; [reflexivity|].
      simpl in E. lia.
    + intros pre post E. exfalso.
      pose proof (f_equal (@length States) E) as El.
      rewrite !length_app in El. simpl in El.
      pose proof (entered_length prev_state) as Hl.
      destruct pre; [|simpl in El; lia].
      destruct prev_state as [p|]; simpl in E; discriminate.
    + intros p [= <-]. split; [reflexivity|]. now exists [].
  - apply loop_shape_stuck with (s := TERMINATE).
    + destruct (terminate_branch_phase _ _ H1) as [[-> _]|[Hp _]]; auto.
    + discriminate.
    + intros _ Hp.
      destruct (terminate_branch_phase _ _ H1) as [[-> _]|[Hp' _]];
        [discriminate | congruence].
  - apply loop_shape_stuck with (s := TERMINATE).
    + destruct (terminate_branch_phase _ _ H1) as [[-> _]|[Hp _]]; auto.
    + discriminate.
    + intros _ Hp.
      destruct (terminate_branch_phase _ _ H1) as [[-> _]|[Hp' _]];
        [discriminate | congruence].
Qed.

Lemma run_loop_shape (fuel : nat) :
  forall self prev_state t f,
    runs (run_loop fuel self prev_state) t f ->
    loop_shape prev_state t f.
Proof.
  induction fuel as [|fuel IH]; intros self prev_state t f H.
  - simpl in H. destruct H as [-> ->].
    apply loop_shape_stuck with (s := ROLLOUT); [now left | discriminate|].
    discriminate.
  - cbn [run_loop] in H. apply get_state_transition_runs in H.
    destruct H as [[-> ->]|(state & t' & H & Hm)].
    { apply loop_shape_stuck with (s := ROLLOUT);
        [now left | discriminate | discriminate]. }
    apply loop_shape_phases with (t' := t').
    { destruct Hm as [(_ & _ & ->)|[_ ->]]; reflexivity. }
    clear Hm t. destruct state as [[| | |]|].
    + revert t' f H. apply loop_shape_turn with (s := ROLLOUT).
      * discriminate.
      * intros t f H. destruct (rollout_branch_phase _ _ _ H) as [?|[? _]]; auto.
      * discriminate.
      * intros a t f H. exact (IH _ _ _ _ H).
    + revert t' f H. apply loop_shape_turn with (s := TRAIN).
      * discriminate.
      * intros t f H. destruct (train_branch_phase _ _ _ H) as [?|[? _]]; auto.
      * discriminate.
      * intros a t f H. exact (IH _ _ _ _ H).
    + apply loop_shape_terminate. exact H.
    + revert t' f H. apply loop_shape_turn with (s := UPDATE).
      * discriminate.
      * intros t f H. destruct (update_branch_phase _ _ _ H) as [?|[? _]]; auto.
      * intros -> _ t f H Hp.
        destruct (update_after_update_runs _ _ H) as [[-> _]|[_ ->]];
          [discriminate | reflexivity].
      * intros a t f H. exact (IH _ _ _ _ H).
    + simpl in H. destruct H as [-> ->].
      apply loop_shape_stuck with (s := ROLLOUT);
        [now left | discriminate | discriminate].
Qed.

Lemma run_runs (fuel : nat) (self : Agent) (t : list Label) (f : Final LoopEnd) :
  runs (run fuel self) t f ->
  (t = [] /\ f = Pending)
  \/ exists t', t = L_setup :: t' /\ runs (run_loop fuel self None) t' f.
Proof.
  unfold run. simpl. intros [[-> ->]|([] & t' & -> & H)]; eauto.
Qed.

Lemma schedule_from_no_terminate (n : nat) :
  forall s, s <> TERMINATE -> ~ In TERMINATE (schedule_from s n).
Proof.
  induction n as [|n IH]; intros s Hs; simpl; [tauto|].
  intros [E|E]; [congruence|].
  revert E. apply IH. destruct s; discriminate.
Qed.

(** X15. In either mode a worker never gets through two UPDATE phases in
    a row: right after the debug line of the second, the assertion
    [prev_state is not UPDATE] ends the run, before any weights are
    taken. *)
Theorem update_never_twice (fuel : nat) (self : Agent) (t : list Label)
        (f : Final LoopEnd) (pre post : list States) :
  runs (run fuel self) t f ->
  phases t = pre ++ UPDATE :: UPDATE :: post ->
  post = [] /\ f = Raised AssertionError.
Proof.
  intros H E. destruct (run_runs _ _ _ _ H) as [[-> _]|(t' & -> & H')].
  - destruct pre; discriminate.
  - destruct (run_loop_shape _ _ _ _ _ H') as (_ & H2 & _).
    exact (H2 pre post E).
Qed.

(** X16. The loop of [run] is left only by the [break] of TERMINATE:
    nothing is entered after TERMINATE, and a run that has returned
    entered TERMINATE last.  In autonomous mode TERMINATE is never
    entered, so [run] never returns: it can only end by an exception. *)
Theorem run_exits_through_terminate (fuel : nat) (self : Agent)
        (t : list Label) (f : Final LoopEnd) :
  runs (run fuel self) t f ->
  (forall pre post, phases t = pre ++ TERMINATE :: post -> post = [])
  /\ (forall p, f = Returned (Exited p) ->
                p = Some TERMINATE /\ exists pre, phases t = pre ++ [TERMINATE])
  /\ (async_transitions self = true ->
      ~ In TERMINATE (phases t) /\ forall p, f <> Returned (Exited p)).
Proof.
  intros H. destruct (run_runs _ _ _ _ H) as [[-> ->]|(t' & -> & H')].
  - split; [|split; [|split]]; try discriminate; try tauto.
    intros pre post E. destruct pre; discriminate.
  - destruct (run_loop_shape _ _ _ _ _ H') as (H1 & _ & H3).
    split; [exact H1|]. split; [exact H3|].
    intros Ha.
    assert (Hn : ~ In TERMINATE (phases t')).
    { destruct (@run_loop_async_phases fuel self None t' f Ha H') as [E _].
      rewrite E. apply schedule_from_no_terminate. discriminate. }
    split; [exact Hn|].
    intros p E. destruct (H3 p E) as [_ [pre Ep]].
    apply Hn. rewrite Ep. apply in_or_app. right. now left.
Qed.

(** ** The loop in synchronous mode *)

(** A TRAIN branch that returns in synchronous mode leaves the agent as
    it was. *)
Lemma train_branch_sync_returns (self self' : Agent) (t : list Label) :
  async_transitions self = false ->
  runs (train_branch self) t (Returned self') ->
  self' = self.
Proof.
  intros Hs H.
  destruct (train_branch_runs H)
    as [[_ Hf]|(rs & _ & [[_ Hf]|[(_ & _ & Hf)|(Hl & t' & -> & H')]])];
    try discriminate.
  destruct (train_on_runs _ _ _ _ _ H') as [[Hf _]|(w & t'' & -> & H'')];
    [discriminate|].
  destruct (publish_sync_runs _ _ _ _ Hs H'')
    as [(j & _ & _ & Hf)|[[_ Hf]|[_ Hf]]]; try discriminate.
  now injection Hf.
Qed.

(** One turn of the synchronous loop, after its command [Some s]. *)
Lemma commands_shape_turn {A : Type} (branch : Prog A) (k : A -> Prog LoopEnd)
      (s : States) (Good : A -> Prop) :
  (forall t f, runs branch t f ->
               (t = [] /\ f = Pending) \/ (phases t = [s] /\ commands t = [])) ->
  (forall a t, runs branch t (Returned a) -> Good a) ->
  (forall a t f, Good a -> runs (k a) t f -> commands_shape t f) ->
  forall t f,
    runs (bind branch k) t f ->
    commands_shape (L_state_get (Some s) :: t) f.
Proof.
  intros Hb Hg Hk t f H.
  assert (Hstuck : forall f1 : Final A,
             runs branch t f1 ->
             (f = Pending \/ (f1 <> Pending /\ phases t = [s])) ->
             commands_shape (L_state_get (Some s) :: t) f).
  { intros f1 H1 Hf. unfold commands_shape. cbn [commands phases phase_of is_debug].
    destruct (Hb _ _ H1) as [[-> ->]|[Hp Hc]].
    - destruct Hf as [->|[Hf _]]; [|now destruct Hf]. simpl. split.
      + right. left. now exists s.
      + intros [E|[]]. discriminate.
    - rewrite Hp, Hc. simpl. split; [now left|].
      intros [E|[]]. discriminate. }
  destruct (runs_bind_inv _ _ _ _ H)
    as [(a & t1 & t2 & -> & H1 & H2)|[(e & H1 & ->)|[H1 ->]]].
  - destruct (Hb _ _ H1) as [[_ Hf]|[Hp Hc]]; [discriminate|].
    destruct (Hk a t2 f (Hg _ _ H1) H2) as [IH1 IH2].
    unfold commands_shape. cbn [commands phases phase_of is_debug].
    rewrite commands_app, phases_app, Hp, Hc. cbn [app map]. split.
    + destruct IH1 as [E|[(s' & E & ->)|[E ->]]]; rewrite E.
      * now left.
      * right. left. now exists s'.
      * right. right. now split.
    + intros [E|Hin]; [discriminate|].
      destruct (IH2 Hin) as [-> [t3 ->]]. split; [reflexivity|].
      exists (L_state_get (Some s) :: t1 ++ t3).
      simpl. now rewrite app_assoc.
  - apply (Hstuck _ H1). right. split; [discriminate|].
    destruct (Hb _ _ H1) as [[_ Hf]|[Hp _]]; [discriminate | exact Hp].
  - apply (Hstuck _ H1). now left.
Qed.

Lemma run_loop_sync_commands (fuel : nat) :
  forall self prev_state t f,
    async_transitions self = false ->
    runs (run_loop fuel self prev_state) t f ->
    commands_shape t f.
Proof.
  induction fuel as [|fuel IH]; intros self prev_state t f Hs H.
  - simpl in H. destruct H as [-> ->]. split; [now left | intros []].
  - cbn [run_loop] in H. unfold get_state_transition in H.
    rewrite Hs in H. cbn [negb bind call runs label] in H.
    destruct H as [[-> ->]|(state & t' & -> & H)].
    { split; [now left | intros []]. }
    destruct state as [[| | |]|].
    + revert t' f H. apply commands_shape_turn with (Good := fun _ => True).
      * apply rollout_branch_phase.
      * trivial.
      * intros a t f _ H. exact (IH _ _ _ _ Hs H).
    + revert t' f H.
      apply commands_shape_turn with (Good := fun self' => self' = self).
      * apply train_branch_phase.
      * intros self' t H. exact (train_branch_sync_returns _ _ _ Hs H).
      * intros self' t f -> H. exact (IH _ _ _ _ Hs H).
    + revert t' f H. apply commands_shape_turn with (Good := fun _ => True).
      * apply terminate_branch_phase.
      * trivial.
      * intros a t f _ [-> ->]. split; [now left | intros []].
    + revert t' f H. apply commands_shape_turn with (Good := fun _ => True).
      * apply update_branch_phase.
      * trivial.
      * intros a t f _ H. exact (IH _ _ _ _ Hs H).
    + simpl in H. destruct H as [-> ->]. split.
      * right. right. now split.
      * intros _. split; [reflexivity|]. now exists [].
Qed.

(** X17. In synchronous mode the phases a worker enters are the commands
    it takes from the command queue, in their order: every command is
    followed by the debug line of its phase before the next one is taken.
    A command that is no member of [States] is the last thing the worker
    sees: it raises [ValueError] at once. *)
Theorem sync_phases_follow_commands (fuel : nat) (self : Agent)
        (t : list Label) (f : Final LoopEnd) :
  async_transitions self = false ->
  runs (run fuel self) t f ->
  (commands t = map Some (phases t)
   \/ (exists s, commands t = map Some (phases t) ++ [Some s] /\ f = Pending)
   \/ (commands t = map Some (phases t) ++ [None] /\ f = Raised ValueError))
  /\ (In None (commands t) ->
      f = Raised ValueError /\ exists t1, t = t1 ++ [L_state_get None]).
Proof.
  intros Hs H. destruct (run_runs _ _ _ _ H) as [[-> ->]|(t' & -> & H')].
  - split; [now left | intros []].
  - destruct (run_loop_sync_commands _ _ _ _ _ Hs H') as [H1 H2].
    split; [exact H1|].
    intros Hin. destruct (H2 Hin) as [-> [t1 ->]].
    split; [reflexivity|]. now exists (L_setup :: t1).
Qed.

(** ** Acknowledgements *)

Lemma acks_cons (l : Label) (t : list Label) : acks (l :: t) = acks [l] + acks t.
Proof. destruct l as [| | | | | | | | | | | | |[|]| | | | |]; reflexivity. Qed.

Lemma acks_app (t1 t2 : list Label) : acks (t1 ++ t2) = acks t1 + acks t2.
Proof.
  induction t1 as [|l t1 IH]; [reflexivity|].
  rewrite <- app_comm_cons, (acks_cons l (t1 ++ t2)), (acks_cons l t1), IH. lia.
Qed.

Lemma owes_runs {A : Type} (p : Prog A) :
  forall n t f,
    owes n p -> runs p t f ->
    acks t <= n /\ forall a, f = Returned a -> acks t = n.
Proof.
  induction p as [a|e|X op k IH]; intros n t f Ho H;
    cbn [owes] in Ho; cbn [runs] in H.
  - destruct H as [-> ->]. subst n. split; [simpl; lia | reflexivity].
  - destruct H as [-> ->]. split; [simpl; lia | discriminate].
  - destruct H as [[-> ->]|(x & t' & -> & H)].
    + split; [simpl; lia | discriminate].
    + destruct (Ho x) as [Hl Ho'].
      destruct (IH x _ _ _ Ho' H) as [H1 H2].
      rewrite acks_cons. split; [lia|].
      intros a E. rewrite (H2 a E). lia.
Qed.

Lemma owes_bind {A B : Type} (p : Prog A) (k : A -> Prog B) (m : nat) :
  forall n, owes n p -> (forall a, owes m (k a)) -> owes (n + m) (bind p k).
Proof.
  induction p as [a|e|X op k' IH]; intros n Ho Hk; cbn [owes bind] in *.
  - subst n. apply Hk.
  - exact I.
  - intros x. destruct (Ho x) as [Hl Ho']. split; [lia|].
    replace (n + m - acks [label op x]) with (n - acks [label op x] + m) by lia.
    now apply IH.
Qed.

Lemma owes_then {A B : Type} (p : Prog A) (k : A -> Prog B) (m : nat) :
  owes 0 p -> (forall a, owes m (k a)) -> owes m (bind p k).
Proof. intros Ho Hk. exact (owes_bind p k m 0 Ho Hk). Qed.

Lemma within_owes {A : Type} (p : Prog A) :
  within (fun l => acks [l] = 0) (fun _ => True) p -> owes 0 p.
Proof.
  induction p as [a|e|X op k IH]; cbn [owes within]; intros W;
    [reflexivity | exact I|].
  intros x. destruct (W x) as [Hl W']. rewrite Hl. split; [lia|]. now apply IH.
Qed.

Lemma owes_call {X : Type} (op : Op X) :
  (forall x, acks [label op x] = 0) -> owes 0 (call op).
Proof. intros H. apply within_owes, within_call. exact H. Qed.

Lemma owes_task_done : owes 1 task_done.
Proof. intros [|]; simpl; split; auto. Qed.

Lemma owes_assert (b : bool) : owes 0 (assert b).
Proof. destruct b; simpl; auto. Qed.

Lemma owes_rollout_branch (self : Agent) : owes 1 (rollout_branch self).
Proof.
  unfold rollout_branch.
  apply owes_then; [now apply owes_call | intros _].
  apply owes_then; [|intros _].
  { apply within_owes, within__rollout; intros; try exact I; reflexivity. }
  apply owes_then; [now apply owes_call | intros _].
  apply owes_task_done.
Qed.

Lemma owes_train_branch (self : Agent) :
  async_transitions self = false -> owes 1 (train_branch self).
Proof.
  intros Hs. unfold train_branch.
  apply owes_then; [now apply owes_call | intros _].
  apply owes_then; [apply within_owes, within_drain; reflexivity | intros batch].
  apply owes_then; [now apply owes_call | intros e].
  apply owes_then; [apply owes_assert | intros _].
  apply owes_then; [apply within_owes, within_train_on; reflexivity | intros w].
  unfold publish. rewrite Hs.
  apply owes_then; [apply within_owes, within_put_weights; reflexivity | intros _].
  apply (owes_bind task_done (fun _ => Ret self) 0 1 owes_task_done).
  reflexivity.
Qed.

Lemma owes_update_branch (prev_state : option States) :
  owes 1 (update_branch prev_state).
Proof.
  unfold update_branch.
  apply owes_then; [now apply owes_call | intros _].
  apply owes_then; [apply owes_assert | intros _].
  apply owes_then; [now apply owes_call | intros w].
  apply owes_then; [now apply owes_call | intros _].
  apply owes_then; [now apply owes_call | intros _].
  apply owes_task_done.
Qed.

Lemma owes_terminate_branch : owes 1 terminate_branch.
Proof.
  unfold terminate_branch.
  apply owes_then; [now apply owes_call | intros _].
  apply (owes_bind task_done _ 0 1 owes_task_done). intros _.
  apply owes_then; [now apply owes_call | intros e].
  apply owes_then; [apply owes_assert | intros _].
  apply owes_then; [now apply owes_call | intros e'].
  apply owes_then; [apply owes_assert | intros _].
  apply owes_then; [now apply owes_call | intros e''].
  apply owes_assert.
Qed.

(** One turn of the synchronous loop, after its command. *)
Lemma acks_balance_turn {A : Type} (branch : Prog A) (k : A -> Prog LoopEnd)
      (state : option States) (Good : A -> Prop) :
  owes 1 branch ->
  (forall t f, runs branch t f -> commands t = []) ->
  (forall a t, runs branch t (Returned a) -> Good a) ->
  (forall a t f, Good a -> runs (k a) t f -> acks_balance t f) ->
  forall t f,
    runs (bind branch k) t f ->
    acks_balance (L_state_get state :: t) f.
Proof.
  intros Ho Hc Hg Hk t f H. unfold acks_balance.
  cbn [acks commands length].
  destruct (runs_bind_inv _ _ _ _ H)
    as [(a & t1 & t2 & -> & H1 & H2)|[(e & H1 & ->)|[H1 ->]]].
  - destruct (owes_runs _ _ _ _ Ho H1) as [_ Ha].
    destruct (Hk a t2 f (Hg _ _ H1) H2) as [IH1 IH2].
    rewrite acks_app, commands_app, (Hc _ _ H1), (Ha a eq_refl).
    cbn [app]. split; [lia|]. intros r E. rewrite (IH2 r E). lia.
  - destruct (owes_runs _ _ _ _ Ho H1) as [Hl _].
    rewrite (Hc _ _ H1). simpl. split; [lia | discriminate].
  - destruct (owes_runs _ _ _ _ Ho H1) as [Hl _].
    rewrite (Hc _ _ H1). simpl. split; [lia | discriminate].
Qed.

Lemma branch_commands {A : Type} (branch : Prog A) (s : States) :
  (forall t f, runs branch t f ->
               (t = [] /\ f = Pending) \/ (phases t = [s] /\ commands t = [])) ->
  forall t f, runs branch t f -> commands t = [].
Proof. intros Hb t f H. destruct (Hb t f H) as [[-> _]|[_ Hc]]; auto. Qed.

Lemma run_loop_sync_acks (fuel : nat) :
  forall self prev_state t f,
    async_transitions self = false ->
    runs (run_loop fuel self prev_state) t f ->
    acks_balance t f.
Proof.
  induction fuel as [|fuel IH]; intros self prev_state t f Hs H.
  - simpl in H. destruct H as [-> ->]. split; [simpl; lia | reflexivity].
  - cbn [run_loop] in H. unfold get_state_transition in H.
    rewrite Hs in H. cbn [negb bind call runs label] in H.
    destruct H as [[-> ->]|(state & t' & -> & H)].
    { split; [simpl; lia | discriminate]. }
    destruct state as [[| | |]|].
    + revert t' f H. apply acks_balance_turn with (Good := fun _ => True).
      * apply owes_rollout_branch.
      * apply (branch_commands _ ROLLOUT), rollout_branch_phase.
      * trivial.
      * intros a t f _ H. exact (IH _ _ _ _ Hs H).
    + revert t' f H.
      apply acks_balance_turn with (Good := fun self' => self' = self).
      * now apply owes_train_branch.
      * apply (branch_commands _ TRAIN), train_branch_phase.
      * intros self' t H. exact (train_branch_sync_returns _ _ _ Hs H).
      * intros self' t f -> H. exact (IH _ _ _ _ Hs H).
    + revert t' f H. apply acks_balance_turn with (Good := fun _ => True).
      * apply owes_terminate_branch.
      * apply (branch_commands _ TERMINATE), terminate_branch_phase.
      * trivial.
      * intros a t f _ [-> ->]. split; [simpl; lia | reflexivity].
    + revert t' f H. apply acks_balance_turn with (Good := fun _ => True).
      * apply owes_update_branch.
      * apply (branch_commands _ UPDATE), update_branch_phase.
      * trivial.
      * intros a t f _ H. exact (IH _ _ _ _ Hs H).
    + simpl in H. destruct H as [-> ->]. split; [simpl; lia | discriminate].
Qed.

(** X18. In synchronous mode a worker acknowledges ([task_done]) every
    command it takes exactly once, and before it takes the next: along
    every run the acknowledgements are never ahead of the commands taken
    and at most one behind, and they are level whenever [run] has
    returned.  This is what the coordinator's [join] on the command queue
    counts on. *)
Theorem sync_acknowledges_every_command (fuel : nat) (self : Agent)
        (t : list Label) (f : Final LoopEnd) :
  async_transitions self = false ->
  runs (run fuel self) t f ->
  acks t <= length (commands t) <= S (acks t)
  /\ (forall r, f = Returned r -> acks t = length (commands t)).
Proof.
  intros Hs H. destruct (run_runs _ _ _ _ H) as [[-> ->]|(t' & -> & H')].
  - split; [simpl; lia | discriminate].
  - exact (run_loop_sync_acks _ _ _ _ _ Hs H').
Qed.

(** ** A lone worker in UPDATE and in ROLLOUT *)

(** X19. UPDATE of a lone worker.  Entered right after an UPDATE it dies
    of [AssertionError] with the model and the queues untouched.
    Otherwise it waits while the parameters queue is empty, and else
    takes the oldest weights off that queue, loads exactly these, and
    acknowledges its command ([ValueError] if none is left to
    acknowledge). *)
Theorem update_loads_oldest_weights (prev_state : option States) (m : Model)
        (c : Channels) :
  (is_not_UPDATE prev_state = false ->
   final (exec (update_branch prev_state) m c) = Raised AssertionError
   /\ model_after (exec (update_branch prev_state) m c) = m
   /\ channels_after (exec (update_branch prev_state) m c) = c)
  /\ (is_not_UPDATE prev_state = true ->
      network_weights c = [] ->
      final (exec (update_branch prev_state) m c) = Pending
      /\ model_after (exec (update_branch prev_state) m c) = m
      /\ channels_after (exec (update_branch prev_state) m c) = c)
  /\ (forall w q,
         is_not_UPDATE prev_state = true ->
         network_weights c = w :: q ->
         model_after (exec (update_branch prev_state) m c)
         = model_load_weights m w
         /\ network_weights (channels_after (exec (update_branch prev_state) m c))
            = q
         /\ (forall u,
                unfinished_tasks c = S u ->
                final (exec (update_branch prev_state) m c) = Returned tt
                /\ unfinished_tasks
                     (channels_after (exec (update_branch prev_state) m c)) = u)
         /\ (unfinished_tasks c = 0 ->
             final (exec (update_branch prev_state) m c) = Raised ValueError)).
Proof.
  unfold update_branch. split; [|split].
  - intros ->. simpl. auto.
  - intros -> E. simpl. rewrite E. simpl. auto.
  - intros w q -> E. simpl. rewrite E. simpl.
    split; [|split; [|split]].
    + destruct (unfinished_tasks c); reflexivity.
    + destruct (unfinished_tasks c); reflexivity.
    + intros u ->. simpl. auto.
    + intros ->. reflexivity.
Qed.

(** What a lone worker's [_rollout] leaves, without a baseline, when the
    simulation answers a batch as [_simulate] builds them. *)
Lemma _rollout_exec (self : Agent) (m : Model) (c : Channels)
      (q_n : list float64) :
  nn_baseline self = false ->
  fst (fst (simulate m)) <> [] ->
  _compute_q_values (gamma self) (fst (fst (simulate m))) (reward_to_go self)
  = Ok q_n ->
  exec (_rollout self) m c
  = {| trace :=
         [L_simulate (fst (simulate m));
          L_results_put (rollout_result self (fst (fst (simulate m))) q_n [] q_n);
          L_paths_put (fst (fst (simulate m)))];
       final := Returned tt;
       model_after := snd (simulate m);
       channels_after :=
         set_paths_queue
           (set_results c
              (results c
                 ++ [rollout_result self (fst (fst (simulate m))) q_n [] q_n]))
           (paths_queue c ++ [fst (fst (simulate m))]) |}.
Proof.
  intros Hb Hne Eq. unfold _rollout. cbn [bind call exec handle].
  rewrite !np_concatenate_paths by exact Hne.
  cbn [lift_result bind]. rewrite Eq. cbn [lift_result bind].
  rewrite Hb. cbn [bind exec handle fst snd]. unfold rollout_result.
  rewrite Hb. reflexivity.
Qed.

(** X20. ROLLOUT of a lone worker, without a baseline, on a batch as
    [_simulate] builds them: one aligned result goes to the results
    queue and the paths go to the trajectory queue, behind what is there,
    before the worker looks at the command queue.  It then waits for as
    long as a command is queued, and acknowledges its own only once the
    queue is empty ([ValueError] if none is left to acknowledge). *)
Theorem rollout_branch_publishes_then_waits (self : Agent) (m : Model)
        (c : Channels) :
  nn_baseline self = false ->
  batch_ok (fst (fst (simulate m))) ->
  exists r,
    aligned r
    /\ results (channels_after (exec (rollout_branch self) m c))
       = results c ++ [r]
    /\ paths_queue (channels_after (exec (rollout_branch self) m c))
       = paths_queue c ++ [fst (fst (simulate m))]
    /\ network_weights (channels_after (exec (rollout_branch self) m c))
       = network_weights c
    /\ state_queue (channels_after (exec (rollout_branch self) m c))
       = state_queue c
    /\ model_after (exec (rollout_branch self) m c) = snd (simulate m)
    /\ (state_queue c <> [] ->
        final (exec (rollout_branch self) m c) = Pending
        /\ unfinished_tasks (channels_after (exec (rollout_branch self) m c))
           = unfinished_tasks c)
    /\ (state_queue c = [] ->
        (forall u,
            unfinished_tasks c = S u ->
            final (exec (rollout_branch self) m c) = Returned tt
            /\ unfinished_tasks (channels_after (exec (rollout_branch self) m c))
               = u)
        /\ (unfinished_tasks c = 0 ->
            final (exec (rollout_branch self) m c) = Raised ValueError)).
Proof.
  intros Hb [Hne Hok].
  destruct (compute_q_values_defined (gamma self) (fst (fst (simulate m)))
                                     (reward_to_go self))
    as (q_n & Eq & Hl).
  { revert Hok. apply Forall_impl. now intros path (_ & _ & H). }
  destruct (batch_ok_lengths _ Hok) as [Ho Ha].
  exists (rollout_result self (fst (fst (simulate m))) q_n [] q_n).
  split.
  { unfold aligned, rollout_result. cbn. split; [congruence|].
    destruct (normalize_advantages self);
      rewrite ?normalize_length; congruence. }
  unfold rollout_branch. cbn [bind call exec handle].
  rewrite exec_bind, (_rollout_exec self m c q_n Hb Hne Eq).
  unfold exec_then. cbn [final model_after channels_after trace
                         bind call exec handle observe state_queue
                         set_paths_queue set_results].
  destruct (state_queue c) as [|s q] eqn:Es; cbn [is_empty].
  - cbn [exec handle observe task_done bind call unfinished_tasks
         set_paths_queue set_results].
    destruct (unfinished_tasks c) as [|u] eqn:Eu; simpl;
      repeat split; try congruence; try discriminate.
  - simpl. repeat split; congruence.
Qed.

(** ** From ROLLOUT to TRAIN *)

(** The whole ROLLOUT branch of a lone worker whose command queue is
    empty and who has a command to acknowledge. *)
Lemma rollout_branch_exec (self : Agent) (m : Model) (c : Channels)
      (q_n : list float64) (u : nat) :
  nn_baseline self = false ->
  fst (fst (simulate m)) <> [] ->
  _compute_q_values (gamma self) (fst (fst (simulate m))) (reward_to_go self)
  = Ok q_n ->
  state_queue c = [] ->
  unfinished_tasks c = S u ->
  exec (rollout_branch self) m c
  = {| trace :=
         [L_debug ".ROLLOUT";
          L_simulate (fst (simulate m));
          L_results_put (rollout_result self (fst (fst (simulate m))) q_n [] q_n);
          L_paths_put (fst (fst (simulate m)));
          L_state_wait_empty;
          L_task_done true];
       final := Returned tt;
       model_after := snd (simulate m);
       channels_after :=
         set_state_queue
           (set_paths_queue
              (set_results c
                 (results c
                    ++ [rollout_result self (fst (fst (simulate m))) q_n [] q_n]))
              (paths_queue c ++ [fst (fst (simulate m))]))
           [] u |}.
Proof.
  intros Hb Hne Eq Hq Hu.
  unfold rollout_branch. cbn [bind call exec handle].
  rewrite exec_bind, (_rollout_exec self m c q_n Hb Hne Eq).
  unfold exec_then. cbn [final model_after channels_after trace
                         bind call exec handle observe state_queue
                         set_paths_queue set_results].
  rewrite Hq. cbn [is_empty exec handle observe task_done bind call
                   unfinished_tasks set_paths_queue set_results].
  rewrite Hu. simpl. rewrite Hq. reflexivity.
Qed.

(** X21. An autonomous worker that is the only agent trains on its own
    rollout.  From freshly started, with nothing on the results queue, an
    empty command queue and a command it may acknowledge, its first two
    turns are ROLLOUT and TRAIN; the one result TRAIN takes from the
    results queue is the one ROLLOUT put there, the policy is trained on
    exactly its observations, actions and advantages, and the results
    queue is empty again afterwards. *)
Theorem autonomous_trains_on_own_rollout (self : Agent) (m : Model)
        (c : Channels) (u : nat) :
  async_transitions self = true ->
  num_agents self = 1 ->
  nn_baseline self = false ->
  batch_ok (fst (fst (simulate m))) ->
  results c = [] ->
  state_queue c = [] ->
  unfinished_tasks c = S u ->
  exists r w self',
    aligned r
    /\ phases (trace (exec (run_loop 2 self None) m c)) = [ROLLOUT; TRAIN]
    /\ received (trace (exec (run_loop 2 self None) m c)) = [r]
    /\ In (L_results_put r) (trace (exec (run_loop 2 self None) m c))
    /\ In (L_train_agent (observations r) (actions r) (advantages r) w)
          (trace (exec (run_loop 2 self None) m c))
    /\ results (channels_after (exec (run_loop 2 self None) m c)) = []
    /\ final (exec (run_loop 2 self None) m c)
       = Returned (Running self' (Some TRAIN)).
Proof.
  intros Ha Hn Hb [Hne Hok] Hr Hq Hu.
  destruct (compute_q_values_defined (gamma self) (fst (fst (simulate m)))
                                     (reward_to_go self))
    as (q_n & Eq & Hl).
  { revert Hok. apply Forall_impl. now intros path (_ & _ & H). }
  destruct (batch_ok_lengths _ Hok) as [Ho Hac].
  set (r := rollout_result self (fst (fst (simulate m))) q_n [] q_n).
  assert (Hal : aligned r).
  { unfold aligned, r, rollout_result. cbn. split; [congruence|].
    destruct (normalize_advantages self);
      rewrite ?normalize_length; congruence. }
  cbn [run_loop]. unfold get_state_transition. rewrite Ha.
  cbn [negb bind next_state].
  rewrite exec_bind, (rollout_branch_exec self m c q_n u Hb Hne Eq Hq Hu).
  fold r. unfold exec_then.
  cbn [final model_after channels_after trace].
  rewrite exec_bind. unfold train_branch, train_on, publish.
  rewrite Hn, Hb, Ha. cbn [drain bind call exec handle results set_results
                           set_paths_queue set_state_queue].
  rewrite Hr. cbn [app].
  cbn [exec_then exec handle observe final model_after channels_after trace
       bind call results set_results is_empty assert extend no_results
       observations actions advantages app].
  exists r, (fst (model_train_agent (snd (simulate m)) (observations r)
                                    (actions r) (advantages r))).
  destruct (EPOCHES_PER_SYNC self <=? epoch_since_last_sync self)%Z;
    eexists; (split; [exact Hal|]); simpl; repeat split;
    repeat (first [left; reflexivity | right]).
Qed.

(** ** What TRAIN trains on *)

Lemma train_tail_agent_label (self : Agent) (batch : PartialResult)
      (t : list Label) (f : Final Agent) :
  runs (weights <- train_on self batch ;; publish self weights) t f ->
  forall obs acs adv w,
    In (L_train_agent obs acs adv w) t ->
    obs = observations batch /\ acs = actions batch /\ adv = advantages batch.
Proof.
  intros H.
  set (P := fun l : Label =>
              forall obs acs adv w,
                l = L_train_agent obs acs adv w ->
                obs = observations batch /\ acs = actions batch
                /\ adv = advantages batch).
  assert (W : within P (fun _ => True)
                     (weights <- train_on self batch ;; publish self weights)).
  { apply within_bind.
    - unfold train_on. apply within_bind.
      + destruct (nn_baseline self); [|exact I].
        within_call. discriminate.
      + intros _. within_call. now intros obs acs adv w [= <- <- <- _].
    - intros w. apply within_publish.
      + discriminate.
      + intros _. split; [|exact I]. intros ok. discriminate. }
  destruct (within_runs _ _ _ W _ _ H) as [Ht _].
  intros obs acs adv w Hin. rewrite Forall_forall in Ht.
  exact (Ht _ Hin obs acs adv w eq_refl).
Qed.

Lemma aligned_concat (rs : list PartialResult) :
  Forall aligned rs ->
  length (concat (map actions rs)) = length (concat (map observations rs))
  /\ length (concat (map advantages rs)) = length (concat (map observations rs)).
Proof.
  induction 1 as [|r rs [Ha Hd] _ [IHa IHd]]; [now split|].
  cbn [map concat]. rewrite !length_app. split; congruence.
Qed.

(** X22. TRAIN calls the policy update only after the emptiness check of
    the results queue has answered [True], on the concatenation of the
    [num_agents] results it took, in the order taken; if each of these
    has one action and one advantage per observation, so have the arrays
    the policy is trained on. *)
Theorem train_keeps_alignment (self : Agent) (t : list Label) (f : Final Agent)
        (obs : list Obs) (acs : list Act) (adv : list float64) (w : Weights) :
  runs (train_branch self) t f ->
  In (L_train_agent obs acs adv w) t ->
  In (L_results_empty true) t
  /\ length (received t) = num_agents self
  /\ obs = concat (map observations (received t))
  /\ acs = concat (map actions (received t))
  /\ adv = concat (map advantages (received t))
  /\ (Forall aligned (received t) ->
      length acs = length obs /\ length adv = length obs).
Proof.
  intros H Hin.
  assert (Hg : forall rs, ~ In (L_train_agent obs acs adv w) (map L_results_get rs)).
  { intros rs Hi. apply in_map_iff in Hi. destruct Hi as (r & Hr & _). discriminate. }
  destruct (train_branch_runs H)
    as [[-> _]|(rs & _ & [[-> _]|[(_ & -> & _)|(Hl & t' & -> & H')]])].
  - destruct Hin.
  - destruct Hin as [Hin|Hin]; [discriminate | now apply Hg in Hin].
  - destruct Hin as [Hin|Hin]; [discriminate|].
    apply in_app_or in Hin. destruct Hin as [Hin|[Hin|[]]];
      [now apply Hg in Hin | discriminate].
  - destruct (train_tail_runs _ _ _ _ H') as [Hr _].
    destruct Hin as [Hin|Hin]; [discriminate|].
    apply in_app_or in Hin. destruct Hin as [Hin|[Hin|Hin]];
      [now apply Hg in Hin | discriminate |].
    destruct (train_tail_agent_label _ _ _ _ H' _ _ _ _ Hin) as (-> & -> & ->).
    assert (Hrec : received (L_debug ".TRAIN"
                               :: map L_results_get rs
                               ++ L_results_empty true :: t') = rs).
    { cbn [received]. rewrite received_app, received_gets. cbn [received].
      now rewrite Hr, app_nil_r. }
    rewrite Hrec.
    destruct (batch_of_fields rs) as (-> & -> & -> & _).
    split; [right; apply in_or_app; right; now left|].
    split; [exact Hl|]. repeat (split; [reflexivity|]).
    apply aligned_concat.
Qed.

(** ** The share of one agent in the batch *)

Lemma floor_log2_small (a b : Z) :
  (0 < a)%Z -> (0 < b)%Z -> (a < 2 ^ 53 * b)%Z -> (floor_log2 a b <= 52)%Z.
Proof.
  intros Ha Hb Hab. unfold floor_log2.
  destruct (Z.leb_spec b a) as [Hle|Hlt].
  - assert (H1 : (0 < a / b)%Z) by (apply Z.div_str_pos; lia).
    assert (H2 : (a / b < 2 ^ 53)%Z) by (apply Z.div_lt_upper_bound; lia).
    apply (Z.log2_lt_pow2 _ 53 H1) in H2. lia.
  - pose proof (Z.log2_up_nonneg ((b + a - 1) / a)). lia.
Qed.

Lemma round_half_even_floor (N D : Z) : (N / D <= round_half_even N D)%Z.
Proof.
  unfold round_half_even.
  destruct (_ <? _)%Z; [lia|].
  destruct (_ <? _)%Z; [lia|].
  destruct (Z.even _); lia.
Qed.

Lemma enough_timesteps_value (m e : Z) (ts : nat) :
  (e <= 0)%Z ->
  enough_timesteps (float64_value m e) ts = true ->
  (m < Z.of_nat ts * 2 ^ (- e))%Z.
Proof.
  intros He H. unfold enough_timesteps in H. apply negb_true_iff in H.
  assert (Hlt : (float64_value m e < inject_Z (Z.of_nat ts))%Q).
  { apply Qnot_le_lt. intros Hle. apply Qle_bool_iff in Hle. congruence. }
  unfold float64_value in Hlt. rewrite Qred_correct in Hlt.
  assert (Hp : (0 < 2 ^ (- e))%Z) by (apply Z.pow_pos_nonneg; lia).
  destruct (Z.leb_spec 0 e) as [H0|H0].
  - assert (e = 0%Z) as -> by lia. rewrite <- Zlt_Qlt in Hlt.
    change (2 ^ (- 0))%Z with 1%Z. change (2 ^ 0)%Z with 1%Z in Hlt. lia.
  - unfold Qlt in Hlt. cbn [Qnum Qden inject_Z] in Hlt.
    rewrite Z2Pos.id in Hlt by exact Hp. lia.
Qed.

Lemma enough_timesteps_share (min_timesteps : Z) (n ts : nat) (share : Q) :
  (min_timesteps < 2 ^ 53 * Z.of_nat n)%Z ->
  per_agent_timesteps min_timesteps n = inr share ->
  enough_timesteps share ts = true ->
  (min_timesteps < Z.of_nat ts * Z.of_nat n)%Z.
Proof.
  intros Hb Hs Hts. unfold per_agent_timesteps, int_true_divide in Hs.
  destruct (Z.eqb_spec (Z.of_nat n) 0) as [|Hn]; [discriminate|].
  destruct (nearest_float64 _ _) as [m e] eqn:Em.
  destruct (Z.eqb_spec min_timesteps 0) as [->|Hm].
  - injection Hs as <-. unfold enough_timesteps in Hts.
    apply negb_true_iff in Hts.
    assert (Hlt : (0 < inject_Z (Z.of_nat ts))%Q).
    { apply Qnot_le_lt. intros Hle. apply Qle_bool_iff in Hle. congruence. }
    rewrite <- (Zlt_Qlt 0) in Hlt. nia.
  - destruct (Z.ltb_spec 0 min_timesteps) as [Hpos|Hneg]; [|nia].
    destruct (_ <=? _)%Z; [discriminate|].
    destruct (Z.ltb_spec 0 (min_timesteps * Z.of_nat n)) as [_|Hc]; [|nia].
    injection Hs as <-.
    rewrite (Z.abs_eq min_timesteps), (Z.abs_eq (Z.of_nat n)) in Em by lia.
    unfold nearest_float64 in Em. injection Em as Em Ee.
    pose proof (floor_log2_small min_timesteps (Z.of_nat n)
                                 Hpos ltac:(lia) Hb) as Hfl.
    assert (He : (e <= 0)%Z) by lia.
    pose proof (enough_timesteps_value m e ts He Hts) as Hlt.
    rewrite Ee in Em.
    set (s := (2 ^ (- e))%Z) in *.
    assert (Hs : (0 < s)%Z) by (apply Z.pow_pos_nonneg; lia).
    assert (Hm' : ((min_timesteps * s) / Z.of_nat n <= m)%Z).
    { rewrite <- Em. destruct (Z.leb_spec 0 e) as [H0|H0].
      - assert (e = 0%Z) as E0 by lia. subst s. rewrite E0.
        change (2 ^ (- 0))%Z with 1%Z. change (2 ^ 0)%Z with 1%Z.
        rewrite !Z.mul_1_r. apply round_half_even_floor.
      - apply round_half_even_floor. }
    pose proof (Z.mod_pos_bound (min_timesteps * s) (Z.of_nat n) ltac:(lia)) as Hr.
    pose proof (Z.div_mod (min_timesteps * s) (Z.of_nat n) Hn) as Hd.
    nia.
Qed.

(** The mantissa is nearest indeed. *)
Lemma round_half_even_nearest (N D : Z) :
  (0 < D)%Z -> (2 * Z.abs (N - round_half_even N D * D) <= D)%Z.
Proof.
  intros HD. unfold round_half_even.
  pose proof (Z.mod_pos_bound N D HD) as Hr.
  pose proof (Z.div_mod N D ltac:(lia)) as Hd.
  destruct (Z.ltb_spec (2 * (N mod D)) D);
    [|destruct (Z.ltb_spec D (2 * (N mod D))); [|destruct (Z.even _)]]; nia.
Qed.

Lemma shares_add_up (min_timesteps : Z) (n : nat) (tss : list nat) :
  Forall (fun ts => (min_timesteps < Z.of_nat ts * Z.of_nat n)%Z) tss ->
  tss <> [] ->
  (Z.of_nat (length tss) * min_timesteps
   < Z.of_nat (fold_right Nat.add 0%nat tss) * Z.of_nat n)%Z.
Proof.
  induction 1 as [|ts tss Hts Hall IH]; [congruence|]. intros _.
  destruct tss as [|ts' tss].
  - cbn [length fold_right]. rewrite Nat.add_0_r. lia.
  - specialize (IH ltac:(discriminate)).
    change (fold_right Nat.add 0%nat (ts :: ts' :: tss))
      with (ts + fold_right Nat.add 0%nat (ts' :: tss)).
    change (length (ts :: ts' :: tss)) with (S (length (ts' :: tss))).
    lia.
Qed.

(** X23. Why [__init__] divides [min_timesteps_per_batch] by
    [num_agents]: when each of the [num_agents] agents has simulated
    until its own batch was enough for its share, the batches together
    hold more than [min_timesteps_per_batch] time steps, as long as the
    share is below [2 ^ 53], where the rounding of the division cannot
    pass a whole number. *)
Theorem agents_together_exceed_batch (min_timesteps_per_batch : Z)
        (num_agents : nat) (share : Q) (timesteps : list nat) :
  (min_timesteps_per_batch < 2 ^ 53 * Z.of_nat num_agents)%Z ->
  per_agent_timesteps min_timesteps_per_batch num_agents = inr share ->
  length timesteps = num_agents ->
  Forall (fun ts => enough_timesteps share ts = true) timesteps ->
  (min_timesteps_per_batch < Z.of_nat (fold_right Nat.add 0%nat timesteps))%Z.
Proof.
  intros Hb Hs Hl Hall.
  assert (Hn : num_agents <> 0%nat).
  { intros ->. discriminate. }
  assert (Hne : timesteps <> []) by (destruct timesteps; simpl in Hl; congruence).
  assert (Hz : Forall (fun ts => (min_timesteps_per_batch
                                  < Z.of_nat ts * Z.of_nat num_agents)%Z)
                      timesteps).
  { revert Hall. apply Forall_impl. intros ts.
    now apply enough_timesteps_share with (share := share). }
  pose proof (shares_add_up _ _ _ Hz Hne) as H. rewrite Hl in H. nia.
Qed.

(** ** The autonomous loop under obliging answers *)

Lemma proceeds_runs {A : Type} (P : Label -> Prop) (R : A -> Prop) (p : Prog A) :
  proceeds P R p ->
  forall t f,
    runs p t f -> Forall P t ->
    (forall e, f <> Raised e) /\ (forall a, f = Returned a -> R a).
Proof.
  induction p as [a|e|X op k IH]; simpl; intros Hp t f H Ht.
  - destruct H as [-> ->]. split; [discriminate|]. now intros a' [= <-].
  - destruct Hp.
  - destruct H as [[-> ->]|(x & t' & -> & H)].
    + split; discriminate.
    + inversion Ht as [|l t0 Hl Ht']; subst.
      exact (IH x (Hp x Hl) _ _ H Ht').
Qed.

Lemma proceeds_bind {A B : Type} (P : Label -> Prop) (R : A -> Prop)
      (R' : B -> Prop) (p : Prog A) (k : A -> Prog B) :
  proceeds P R p ->
  (forall a, R a -> proceeds P R' (k a)) ->
  proceeds P R' (bind p k).
Proof.
  induction p as [a|e|X op k' IH]; simpl; intros Hp Hk.
  - now apply Hk.
  - assumption.
  - intros x Hx. apply IH; auto.
Qed.

Lemma proceeds_call {X : Type} (P : Label -> Prop) (R : X -> Prop) (op : Op X) :
  (forall x, P (label op x) -> R x) -> proceeds P R (call op).
Proof. intros H x Hx. simpl. auto. Qed.

(** Where every operation has an answer in [P], a program that proceeds
    has a run that returns. *)
Lemma proceeds_returns {A : Type} (P : Label -> Prop) (R : A -> Prop)
      (p : Prog A) :
  (forall (X : Type) (op : Op X), exists x, P (label op x)) ->
  proceeds P R p ->
  exists t a, runs p t (Returned a) /\ Forall P t /\ R a.
Proof.
  intros HP. induction p as [a|e|X op k IH]; simpl; intros Hp.
  - exists [], a. auto.
  - destruct Hp.
  - destruct (HP X op) as [x Hx].
    destruct (IH x (Hp x Hx)) as (t & a & H & Ht & Ha).
    exists (label op x :: t), a. split; [|split].
    + right. exists x, t. auto.
    + now constructor.
    + exact Ha.
Qed.

Lemma obliging_answers (o0 : Obs) (a0 : Act) (w0 : Weights) (X : Type)
      (op : Op X) :
  exists x, obliging (label op x).
Proof.
  destruct op; simpl;
    try (exists tt; exact I); try (exists true; reflexivity);
    try (exists w0; exact I).
  - exists ([{| observation := [o0]; reward := [finite 0]; action := [a0] |}],
            1%nat).
    split; [discriminate|]. constructor; [|constructor].
    repeat split. discriminate.
  - exists (repeat (finite 0) (length ob_no)). apply repeat_length.
  - exists no_results. exact I.
  - exists None. exact I.
Qed.

Lemma proceeds_task_done : proceeds obliging (fun _ => True) task_done.
Proof. intros ok Hok. simpl in Hok. subst ok. exact I. Qed.

Lemma proceeds__rollout (self : Agent) :
  proceeds obliging (fun _ => True) (_rollout self).
Proof.
  unfold _rollout. intros sim [Hne Hok]. cbn [bind call].
  rewrite !np_concatenate_paths by exact Hne. cbn [lift_result bind].
  destruct (compute_q_values_defined (gamma self) (fst sim) (reward_to_go self))
    as (q_n & Eq & Hl).
  { revert Hok. apply Forall_impl. now intros path (_ & _ & H). }
  rewrite Eq. cbn [lift_result bind].
  destruct (nn_baseline self); cbn [bind call].
  - intros bp Hbp. simpl in Hbp.
    destruct (batch_ok_lengths (fst sim) Hok) as [Ho _].
    unfold np_broadcast, rescale_baseline.
    rewrite length_map, Hbp, Ho, Hl, Nat.eqb_refl.
    cbn [lift_result bind fst snd]. intros [] _ [] _. exact I.
  - cbn [fst snd]. intros [] _ [] _. exact I.
Qed.

Lemma proceeds_rollout_branch (self : Agent) :
  proceeds obliging (fun _ => True) (rollout_branch self).
Proof.
  unfold rollout_branch.
  apply proceeds_bind with (R := fun _ => True); [now apply proceeds_call|].
  intros _ _.
  apply proceeds_bind with (R := fun _ => True); [apply proceeds__rollout|].
  intros _ _.
  apply proceeds_bind with (R := fun _ => True); [now apply proceeds_call|].
  intros _ _. apply proceeds_task_done.
Qed.

Lemma proceeds_drain (n : nat) :
  forall acc, proceeds obliging (fun _ => True) (drain n acc).
Proof.
  induction n as [|n IH]; intros acc; simpl; [exact I|].
  intros r _. apply IH.
Qed.

Lemma proceeds_train_branch (self : Agent) :
  async_transitions self = true ->
  proceeds obliging (fun self' => async_transitions self' = true)
           (train_branch self).
Proof.
  intros Ha. unfold train_branch.
  apply proceeds_bind with (R := fun _ => True); [now apply proceeds_call|].
  intros _ _.
  apply proceeds_bind with (R := fun _ => True); [apply proceeds_drain|].
  intros batch _.
  apply proceeds_bind with (R := fun e => e = true);
    [apply proceeds_call; now intros e He|].
  intros e ->. cbn [assert bind].
  apply proceeds_bind with (R := fun _ => True).
  - unfold train_on.
    apply proceeds_bind with (R := fun _ => True);
      [destruct (nn_baseline self); [now apply proceeds_call | exact I]|].
    intros _ _. now apply proceeds_call.
  - intros w _. unfold publish. rewrite Ha.
    destruct (_ <=? _)%Z; simpl; [intros [] _|]; exact Ha.
Qed.

Lemma proceeds_update_branch (prev_state : option States) :
  is_not_UPDATE prev_state = true ->
  proceeds obliging (fun _ => True) (update_branch prev_state).
Proof.
  intros Hp. unfold update_branch. rewrite Hp.
  intros [] _ w _ [] _ [] _. apply proceeds_task_done.
Qed.

(** Under obliging answers the autonomous loop raises nothing and uses up
    its turns. *)
Lemma proceeds_run_loop (fuel : nat) :
  forall self prev_state,
    async_transitions self = true ->
    prev_state <> Some TERMINATE ->
    proceeds obliging (fun r => exists self' p, r = Running self' p)
             (run_loop fuel self prev_state).
Proof.
  induction fuel as [|fuel IH]; intros self prev_state Ha Hp.
  - simpl. eauto.
  - cbn [run_loop]. unfold get_state_transition. rewrite Ha. cbn [negb bind].
    assert (Rollout :
              proceeds obliging (fun r => exists self' p, r = Running self' p)
                       (rollout_branch self ;;; run_loop fuel self (Some ROLLOUT))).
    { apply proceeds_bind with (R := fun _ => True);
        [apply proceeds_rollout_branch|].
      intros _ _. now apply IH. }
    destruct prev_state as [[| | |]|]; cbn [next_state].
    + apply proceeds_bind with (R := fun self' => async_transitions self' = true);
        [now apply proceeds_train_branch|].
      intros self' Ha'. now apply IH.
    + apply proceeds_bind with (R := fun _ => True);
        [now apply proceeds_update_branch|].
      intros _ _. now apply IH.
    + congruence.
    + exact Rollout.
    + exact Rollout.
Qed.

(** An autonomous loop that has returned went through all its turns. *)
Lemma run_loop_async_returned (fuel : nat) :
  forall self prev_state t r,
    async_transitions self = true ->
    runs (run_loop fuel self prev_state) t (Returned r) ->
    length (phases t) = fuel.
Proof.
  induction fuel as [|fuel IH]; intros self prev_state t r Ha H.
  - simpl in H. now destruct H as [-> _].
  - cbn [run_loop] in H. unfold get_state_transition in H.
    rewrite Ha in H. cbn [negb bind] in H.
    assert (Rollout :
              runs (rollout_branch self ;;; run_loop fuel self (Some ROLLOUT))
                   t (Returned r) ->
              length (phases t) = S fuel).
    { intros H'.
      destruct (runs_bind_inv _ _ _ _ H')
        as [(a & t1 & t2 & -> & H1 & H2)|[(e & _ & E)|[_ E]]];
        [|discriminate|discriminate].
      destruct (rollout_branch_phase _ _ _ H1) as [[_ E]|[E _]]; [discriminate|].
      rewrite phases_app, E. cbn [app length]. f_equal.
      exact (IH _ _ _ _ Ha H2). }
    destruct prev_state as [[| | |]|]; cbn [next_state] in H.
    + destruct (runs_bind_inv _ _ _ _ H)
        as [(self' & t1 & t2 & -> & H1 & H2)|[(e & _ & E)|[_ E]]];
        [|discriminate|discriminate].
      destruct (train_branch_phase _ _ _ H1) as [[_ E]|[E _]]; [discriminate|].
      rewrite phases_app, E. cbn [app length]. f_equal.
      refine (IH self' _ _ _ _ H2).
      destruct (train_branch_async_runs Ha H1)
        as [[_ E']|(t' & _ & [[_ Hr]|(_ & t1' & w & _ & _ & E')])].
      * discriminate.
      * destruct (Hr _ eq_refl) as [_ ->]. exact Ha.
      * injection E' as ->. exact Ha.
    + destruct (runs_bind_inv _ _ _ _ H)
        as [(a & t1 & t2 & -> & H1 & H2)|[(e & _ & E)|[_ E]]];
        [|discriminate|discriminate].
      destruct (update_branch_phase _ _ _ H1) as [[_ E]|[E _]]; [discriminate|].
      rewrite phases_app, E. cbn [app length]. f_equal.
      exact (IH _ _ _ _ Ha H2).
    + simpl in H. destruct H as [_ H]. discriminate.
    + exact (Rollout H).
    + exact (Rollout H).
Qed.

(** C3. In autonomous mode, whatever the other processes do and for every
    number of agents, the phases a worker enters are [ROLLOUT, TRAIN,
    UPDATE, ROLLOUT, ...] from the start, up to where the run stands; no
    UPDATE follows an UPDATE; and a run that ends in an [AssertionError]
    ends in TRAIN, so the assertion at the head of UPDATE never fails.
    The phases are entered indeed: a run that has gone through its [fuel]
    turns of the loop has entered exactly the first [fuel] phases of the
    schedule and stands at the head of the loop; as long as the answers of
    the outside world are obliging (the simulation answers a batch of
    well-formed paths, the baseline one prediction per observation, the
    results queue is empty after the drain of TRAIN and [task_done] finds
    a command to acknowledge) the run raises nothing, so it stands in an
    operation or has gone through all its turns; and such a run through
    all the turns exists. *)
Theorem autonomous_phases (fuel : nat) (self : Agent) (t : list Label)
        (f : Final LoopEnd) :
  async_transitions self = true ->
  runs (run fuel self) t f ->
  phases t = schedule (length (phases t))
  /\ (forall i, nth_error (phases t) i = Some UPDATE ->
                nth_error (phases t) (S i) <> Some UPDATE)
  /\ (f = Raised AssertionError -> exists pre, phases t = pre ++ [TRAIN])
  /\ (forall r, f = Returned r ->
                phases t = schedule fuel
                /\ exists self' prev_state, r = Running self' prev_state)
  /\ (Forall obliging t -> forall e, f <> Raised e)
  /\ (forall (o0 : Obs) (a0 : Act) (w0 : Weights),
         exists t' r,
           runs (run fuel self) t' (Returned r)
           /\ Forall obliging t'
           /\ phases t' = schedule fuel).
Proof.
  intros Ha H.
  assert (Hgo : proceeds obliging (fun r => exists self' p, r = Running self' p)
                         (run fuel self)).
  { unfold run.
    apply proceeds_bind with (R := fun _ => True); [now apply proceeds_call|].
    intros _ _. now apply proceeds_run_loop. }
  assert (Hfull : forall t0 r,
             runs (run fuel self) t0 (Returned r) -> phases t0 = schedule fuel).
  { intros t0 r H0.
    destruct (run_runs _ _ _ _ H0) as [[_ E]|(t' & -> & H')]; [discriminate|].
    destruct (@run_loop_async_phases fuel self None t' _ Ha H') as [E _].
    change (phases (L_setup :: t')) with (phases t').
    rewrite E. now rewrite (run_loop_async_returned _ _ _ _ _ Ha H'). }
  assert (Hsafe : phases t = schedule (length (phases t))
                  /\ (f = Raised AssertionError ->
                      exists pre, phases t = pre ++ [TRAIN])).
  { destruct (run_runs _ _ _ _ H) as [[-> ->]|(t' & -> & H')].
    - split; [reflexivity | discriminate].
    - exact (@run_loop_async_phases fuel self None t' f Ha H'). }
  destruct Hsafe as [H1 H2].
  split; [exact H1|]. split; [|split; [exact H2|split; [|split]]].
  - rewrite H1. apply schedule_from_no_double_update.
  - intros r ->. split; [exact (Hfull _ _ H)|].
    destruct (run_runs _ _ _ _ H) as [[_ E]|(t' & -> & H')]; [discriminate|].
    destruct (run_loop_shape _ _ _ _ _ H') as (_ & _ & H3).
    destruct r as [p|self' p]; [|eauto].
    destruct (H3 p eq_refl) as [_ [pre Ep]]. exfalso.
    destruct (@run_loop_async_phases fuel self None t' _ Ha H') as [E _].
    apply (schedule_from_no_terminate (length (phases t')) ROLLOUT);
      [discriminate|].
    change (first_phase None) with ROLLOUT in E.
    rewrite <- E, Ep. apply in_or_app. right. now left.
  - intros Ht. exact (proj1 (proceeds_runs _ _ _ Hgo _ _ H Ht)).
  - intros o0 a0 w0.
    destruct (proceeds_returns _ _ _ (obliging_answers o0 a0 w0) Hgo)
      as (t' & r & H' & Ht' & _).
    exists t', r. split; [exact H'|]. split; [exact Ht'|].
    exact (Hfull _ _ H').
Qed.

End Agent.

Arguments Raised {A} e.
Arguments Pending {A}.
Arguments Returned {A} a.
Arguments Finished {World A} a w.
Arguments Died {World A} e.
Arguments Unfinished {World A}.
Arguments reward_to_go_loop_on {Num} add mul gamma reversed_rewards q q_trajectory.
Arguments q_trajectory_on {Num} zero add mul gamma rewards reward_to_go.
Arguments compute_q_values_on {Num} zero add mul gamma rewards_of_paths reward_to_go.
Arguments returns_on {Num} zero add mul gamma rewards.
Arguments power_on {Num} mul one g k.
Arguments discounted_from {Num} zero add mul one k g rs.
Arguments discounted_return {Num} zero add mul one g rs.
Arguments discounted_returns {Num} zero add mul one g rs.

(** * A concrete pool

    Observations, actions and weights are numbers.  The model of a process
    is the version of its weights: training answers the next version, and
    loading sets it.  Every simulation yields one path of one step with
    reward 1. *)

Definition demo_simulate (m : nat) : list (Path nat nat) * nat * nat :=
  ([{| observation := [m]; reward := [finite 1]; action := [0] |}], 1, m).

Definition demo_predict_baseline (m : nat) (ob_no : list nat) : list float64 :=
  map (fun _ => finite 0) ob_no.

Definition demo_train_baseline (m : nat) (obs : list nat)
           (bp nq : list float64) : nat := m.

Definition demo_train_agent (m : nat) (obs acs : list nat)
           (adv : list float64) : nat * nat := (S m, S m).

Definition demo_load_weights (m w : nat) : nat := w.

Definition demo_exec {A : Type} (p : Prog nat nat nat A) (m : nat)
           (c : Channels nat nat nat) : Run nat nat nat nat A :=
  exec demo_simulate demo_predict_baseline demo_train_baseline
       demo_train_agent demo_load_weights p m c.

Definition demo_agent (nn_baseline : bool) (num_agents : nat)
           (async_transitions : bool) : Agent :=
  {| gamma := finite 1;
     reward_to_go := true;
     normalize_advantages := false;
     nn_baseline := nn_baseline;
     num_agents := num_agents;
     async_transitions := async_transitions;
     epoch_since_last_sync := 1;
     EPOCHES_PER_SYNC := 5 |}.

(** Freshly created queues. *)
Definition fresh_queues : Channels nat nat nat :=
  {| results := []; state_queue := []; unfinished_tasks := 0;
     network_weights := []; paths_queue := [] |}.

Definition demo_result (o : nat) (nq : list float64) : PartialResult nat nat :=
  {| observations := [o]; actions := [0]; advantages := [finite 1];
     normalized_q_n := nq; baseline_prediction := [finite 0] |}.

(** Two results queued for a TRAIN of two agents, one command pending. *)
Definition two_results : Channels nat nat nat :=
  {| results := [demo_result 7 []; demo_result 8 []];
     state_queue := []; unfinished_tasks := 1;
     network_weights := []; paths_queue := [] |}.

(** What an autonomous worker needs from outside to get through five
    rounds: weights to load in each UPDATE, and commands it may
    acknowledge. *)
Definition five_rounds : Channels nat nat nat :=
  {| results := []; state_queue := []; unfinished_tasks := 10;
     network_weights := [10; 20; 30; 40; 50]; paths_queue := [] |}.

(** Two synchronous workers at the head of their loops. *)
Definition two_workers : list (Worker nat nat nat nat) :=
  [ {| code := run_loop nat nat nat 1 (demo_agent false 2 false) (Some UPDATE);
       local := 0 |};
    {| code := run_loop nat nat nat 1 (demo_agent false 2 false) (Some UPDATE);
       local := 0 |} ].

(** The first worker takes its command and acknowledges, then the second
    runs to its end, then the first. *)
Definition demo_schedule : list nat := [0; 0; 0; 1; 1; 1; 1; 1; 1; 0; 0; 0].

Definition demo_pool_end : list (Worker nat nat nat nat) * Channels nat nat nat :=
  run_schedule nat nat nat nat
               demo_simulate demo_predict_baseline demo_train_baseline
               demo_train_agent demo_load_weights
               demo_schedule two_workers (broadcast TERMINATE 2 fresh_queues).

Definition demo_autonomous_run : Run nat nat nat nat LoopEnd :=
  demo_exec (run nat nat nat 15 (demo_agent false 1 true)) 0 five_rounds.

Definition demo_train_run : Run nat nat nat nat Agent :=
  demo_exec (train_branch nat nat nat (demo_agent false 2 false)) 0 two_results.

(** One TERMINATE broadcast to a lone worker. *)
Definition demo_terminate_run : Run nat nat nat nat LoopEnd :=
  demo_exec (run_loop nat nat nat 1 (demo_agent false 1 false) (Some UPDATE)) 0
            (broadcast TERMINATE 1 fresh_queues).

(** A rollout with the baseline enabled, and a TRAIN of one agent on a
    result that carries the targets [[3]]. *)
Definition demo_rollout_run : Run nat nat nat nat unit :=
  demo_exec (_rollout nat nat nat (demo_agent true 1 false)) 0 fresh_queues.



(** ** Further concrete inputs *)

(** A batch of two paths, of one and of two steps, and a path without any
    step. *)
Definition demo_paths : list (Path nat nat) :=
  [ {| observation := [0]; reward := [finite 1]; action := [0] |};
    {| observation := [1; 2]; reward := [finite 1; finite 1]; action := [0; 0] |} ].

Definition no_step : Path nat nat :=
  {| observation := []; reward := []; action := [] |}.

(** A simulation that answers no path. *)
Definition demo_no_paths_run : Run nat nat nat nat unit :=
  exec (fun m : nat => (([] : list (Path nat nat), 0), m))
       demo_predict_baseline demo_train_baseline demo_train_agent
       demo_load_weights
       (_rollout nat nat nat (demo_agent false 1 false)) 0 fresh_queues.

(** A rollout without the baseline. *)
Definition demo_plain_rollout_run : Run nat nat nat nat unit :=
  demo_exec (_rollout nat nat nat (demo_agent false 1 false)) 0 fresh_queues.

(** A toy environment.  The world is a counter of steps; an episode is
    done when the count is even; the policy answers the observation as
    its action.  Paths are limited to 2 steps and the batch is to hold
    more than 5/2 time steps. *)
Definition toy_reset (w : nat) : nat * nat := (w, w).

Definition toy_run_agent (w : nat) (ob : nat) : list nat * nat := ([ob], w).

Definition toy_step (w : nat) (ac : nat) : nat * float64 * bool * nat :=
  (S w, finite 1, Nat.even w, S w).

Definition toy_simulate (episode_fuel fuel : nat) (w : nat)
  : Outcome nat (list (Path nat nat) * nat) :=
  simulate_batch nat nat nat toy_reset toy_run_agent toy_step
                 (Some 2%Z) (5 # 2)%Q episode_fuel fuel w.

Definition toy_paths : list (Path nat nat) :=
  [ {| observation := [1; 2]; reward := [finite 1; finite 1]; action := [1; 2] |};
    {| observation := [3; 4]; reward := [finite 1; finite 1]; action := [3; 4] |} ].

(** A rollout on the batch of the toy environment. *)
Definition toy_rollout_run : Run nat nat nat nat unit :=
  exec (fun m : nat => ((toy_paths, 4), m))
       demo_predict_baseline demo_train_baseline demo_train_agent
       demo_load_weights
       (_rollout nat nat nat (demo_agent false 1 false)) 0 fresh_queues.

(** Commands for a lone synchronous worker: two UPDATEs in a row, and an
    UPDATE followed by TERMINATE, with the weights the first UPDATE
    loads. *)
Definition two_updates : Channels nat nat nat :=
  {| results := []; state_queue := [Some UPDATE; Some UPDATE];
     unfinished_tasks := 2; network_weights := [5; 6]; paths_queue := [] |}.

Definition update_then_terminate : Channels nat nat nat :=
  {| results := []; state_queue := [Some UPDATE; Some TERMINATE];
     unfinished_tasks := 2; network_weights := [5]; paths_queue := [] |}.

Definition demo_two_updates_run : Run nat nat nat nat LoopEnd :=
  demo_exec (run nat nat nat 3 (demo_agent false 1 false)) 0 two_updates.

Definition demo_sync_run : Run nat nat nat nat LoopEnd :=
  demo_exec (run nat nat nat 3 (demo_agent false 1 false)) 0
            update_then_terminate.

(** One command to acknowledge and nothing else queued. *)
Definition one_command_taken : Channels nat nat nat :=
  {| results := []; state_queue := []; unfinished_tasks := 1;
     network_weights := []; paths_queue := [] |}.

(** ** The claims at concrete inputs *)

Example demo_five_rounds :
  let r := demo_exec (run nat nat nat 15 (demo_agent false 1 true)) 0 five_rounds in
  phases (trace r) = schedule 15
  /\ published (trace r) = [41]
  /\ final r = Returned (Running (demo_agent false 1 true) (Some UPDATE)).
Proof. vm_compute. auto. Qed.

Lemma np_mean_std_pair (a b : R) :
  (a <= b)%R ->
  np_mean [finite a; finite b] = finite ((a + b) / 2)
  /\ np_std [finite a; finite b] = finite ((b - a) / 2).
Proof.
  intros Hab.
  change [finite a; finite b] with (map finite [a; b]).
  rewrite np_mean_finite, np_std_finite by discriminate.
  assert (Hm : Rmean [a; b] = ((a + b) / 2)%R).
  { unfold Rmean. simpl. field. }
  split; f_equal; [exact Hm|].
  unfold Rstd. apply sqrt_lem_1; [apply Rvar_nonneg; discriminate | lra |].
  unfold Rvar. rewrite Hm. unfold Rmean. simpl. field.
Qed.

Lemma train_drains_num_agents_witness :
  runs (train_branch nat nat nat (demo_agent false 2 false))
       (trace demo_train_run) (final demo_train_run)
  /\ length (results two_results) = num_agents (demo_agent false 2 false)
  /\ received (trace demo_train_run) = [demo_result 7 []; demo_result 8 []]
  /\ In (L_results_empty nat nat nat true) (trace demo_train_run)
  /\ results (channels_after demo_train_run) = [].
Proof.
  pose proof (train_drains_num_agents demo_simulate demo_predict_baseline
                demo_train_baseline demo_train_agent demo_load_weights
                (demo_agent false 2 false)) as (Hruns & _ & Hexec).
  assert (H : runs (train_branch nat nat nat (demo_agent false 2 false))
                   (trace demo_train_run) (final demo_train_run)).
  { unfold demo_train_run, demo_exec. apply exec_runs. }
  pose proof (Hruns _ _ H) as _.
  destruct (Hexec 0 two_results) as (Hrec & _ & _ & _ & Hfull).
  destruct (Hfull eq_refl) as [Hin Hempty].
  split; [exact H|]. split; [reflexivity|].
  split; [exact Hrec|]. split; [exact Hin | exact Hempty].
Defined.

(** The answers the lone worker gets on [five_rounds] are obliging. *)
Example demo_autonomous_obliging :
  Forall (obliging nat nat nat) (trace demo_autonomous_run).
Proof.
  vm_compute trace.
  repeat (constructor;
          [first [exact I | reflexivity
                 | split; [discriminate|];
                   constructor; [repeat split; discriminate | constructor]]|]).
  constructor.
Qed.

Lemma autonomous_phases_witness :
  async_transitions (demo_agent false 1 true) = true
  /\ runs (run nat nat nat 15 (demo_agent false 1 true))
          (trace demo_autonomous_run) (final demo_autonomous_run)
  /\ final demo_autonomous_run
     = Returned (Running (demo_agent false 1 true) (Some UPDATE))
  /\ Forall (obliging nat nat nat) (trace demo_autonomous_run)
  /\ phases (trace demo_autonomous_run)
     = schedule (length (phases (trace demo_autonomous_run)))
  /\ (forall i,
         nth_error (phases (trace demo_autonomous_run)) i = Some UPDATE ->
         nth_error (phases (trace demo_autonomous_run)) (S i) <> Some UPDATE)
  /\ (final demo_autonomous_run = Raised AssertionError ->
      exists pre, phases (trace demo_autonomous_run) = pre ++ [TRAIN])
  /\ (forall r,
         final demo_autonomous_run = Returned r ->
         phases (trace demo_autonomous_run) = schedule 15
         /\ exists self' prev_state, r = Running self' prev_state)
  /\ (Forall (obliging nat nat nat) (trace demo_autonomous_run) ->
      forall e, final demo_autonomous_run <> Raised e)
  /\ (forall o0 a0 w0 : nat,
         exists t' r,
           runs (run nat nat nat 15 (demo_agent false 1 true)) t' (Returned r)
           /\ Forall (obliging nat nat nat) t'
           /\ phases t' = schedule 15).
Proof.
  assert (H : runs (run nat nat nat 15 (demo_agent false 1 true))
                   (trace demo_autonomous_run) (final demo_autonomous_run)).
  { unfold demo_autonomous_run, demo_exec. apply exec_runs. }
  split; [reflexivity|]. split; [exact H|].
  split; [vm_compute; reflexivity|].
  split; [exact demo_autonomous_obliging|].
  exact (autonomous_phases nat nat nat 15 (demo_agent false 1 true)
                           (trace demo_autonomous_run)
                           (final demo_autonomous_run) eq_refl H).
Defined.

(** Integers are exact: the returns of rewards [[1; 2; 3]] at discount 2,
    and the same loop on binary64 numbers where nothing is rounded. *)
Lemma Z_exact : semi_ring_theory 0%Z 1%Z Z.add Z.mul eq.
Proof. constructor; intros; ring. Qed.

Lemma compute_q_values_returns_witness :
  semi_ring_theory 0%Z 1%Z Z.add Z.mul eq
  /\ compute_q_values_on 0%Z Z.add Z.mul 2%Z [[1; 2; 3]%Z] true
     = Ok [17; 8; 3]%Z
  /\ compute_q_values_on 0%Z Z.add Z.mul 2%Z [[1; 2; 3]%Z] false
     = Ok [17; 17; 17]%Z
  /\ compute_q_values_on 0%Z Z.add Z.mul 2%Z [[1; 2; 3; 4]%Z] true
     = Ok (discounted_returns 0%Z Z.add Z.mul 1%Z 2%Z [1; 2; 3; 4]%Z)
  /\ compute_q_values_on 0%float PrimFloat.add PrimFloat.mul 0.5%float
                         [[1; 2; 3]%float] true
     = Ok [2.75; 3.5; 3]%float.
Proof.
  pose proof (@compute_q_values_returns nat nat Z 0%Z Z.add Z.mul 2%Z)
    as (_ & _ & _ & _ & Hexact & _).
  destruct (Hexact 1%Z Z_exact) as (H3 & Hgo & Hfull).
  split; [exact Z_exact|].
  split; [exact (H3 1 2 3)%Z|].
  split; [exact (Hfull 1 [2; 3])%Z|].
  split; [exact (Hgo [1; 2; 3; 4]%Z)|].
  exact (proj1 (proj1 (@compute_q_values_returns nat nat float 0%float
                         PrimFloat.add PrimFloat.mul 0.5%float) 1 2 3)%float).
Defined.

Lemma normalize_statistics_witness :
  np_std [finite 0; finite 2] = finite 1
  /\ (0 < 1)%R
  /\ np_mean (normalize [finite 0; finite 2]) = finite 0
  /\ np_std (normalize [finite 0; finite 2]) = finite (1 / (1 + eps))
  /\ (1 - 1 / (1 + eps) = eps / (1 + eps))%R
  /\ (0 < 1 / (1 + eps) < 1)%R
  /\ ((1 - eps <= 1)%R -> normalized_within_eps [finite 0; finite 2]).
Proof.
  assert (Hs : np_std [finite 0; finite 2] = finite 1).
  { destruct (np_mean_std_pair 0 2) as [_ H]; [lra|].
    rewrite H. f_equal. lra. }
  assert (Hpos : (0 < 1)%R) by lra.
  split; [exact Hs|]. split; [exact Hpos|].
  exact (normalize_statistics [finite 0; finite 2] Hs Hpos).
Defined.

Lemma autonomous_sync_every_fifth_train_witness :
  async_transitions (demo_agent false 1 true) = true
  /\ epoch_since_last_sync (demo_agent false 1 true) = 1%Z
  /\ EPOCHES_PER_SYNC (demo_agent false 1 true) = 5%Z
  /\ runs (run nat nat nat 15 (demo_agent false 1 true))
          (trace demo_autonomous_run) (final demo_autonomous_run)
  /\ (forall t1 w t2,
         trace demo_autonomous_run = t1 ++ L_weights_put nat nat w :: t2 ->
         5 <= trains t1 /\ trains t1 mod 5 = 0
         /\ length (published t1) + 1 = trains t1 / 5)
  /\ (forall t1 t2,
         trace demo_autonomous_run = t1 ++ L_debug nat nat nat ".UDPATE" :: t2 ->
         length (published t1) = trains t1 / 5).
Proof.
  assert (H : runs (run nat nat nat 15 (demo_agent false 1 true))
                   (trace demo_autonomous_run) (final demo_autonomous_run)).
  { unfold demo_autonomous_run, demo_exec. apply exec_runs. }
  repeat (split; [reflexivity|]). split; [exact H|].
  exact (autonomous_sync_every_fifth_train (self := demo_agent false 1 true)
           eq_refl eq_refl eq_refl H).
Defined.

Example demo_train_run_publishes :
  published (trace demo_train_run) = [1; 1]
  /\ final demo_train_run = Returned (demo_agent false 2 false).
Proof. vm_compute. auto. Qed.

Lemma train_sync_publishes_witness :
  async_transitions (demo_agent false 2 false) = false
  /\ runs (train_branch nat nat nat (demo_agent false 2 false))
          (trace demo_train_run) (Returned (demo_agent false 2 false))
  /\ (exists rs w,
         length rs = num_agents (demo_agent false 2 false) /\
         trace demo_train_run
         = L_debug nat nat nat ".TRAIN" :: map (L_results_get nat) rs
             ++ L_results_empty nat nat nat true
             :: training_labels (demo_agent false 2 false) (batch_of rs) w
             ++ repeat (L_weights_put nat nat w)
                       (num_agents (demo_agent false 2 false))
             ++ [L_task_done nat nat nat true] /\
         published (trace demo_train_run)
         = repeat w (num_agents (demo_agent false 2 false)) /\
         demo_agent false 2 false = demo_agent false 2 false)
  /\ length (published (trace demo_train_run))
     <= num_agents (demo_agent false 2 false)
  /\ length (results two_results) = num_agents (demo_agent false 2 false)
  /\ unfinished_tasks two_results = 1
  /\ final demo_train_run = Returned (demo_agent false 2 false)
  /\ network_weights (channels_after demo_train_run) = [1; 1]
  /\ unfinished_tasks (channels_after demo_train_run) = 0.
Proof.
  assert (H : runs (train_branch nat nat nat (demo_agent false 2 false))
                   (trace demo_train_run) (Returned (demo_agent false 2 false))).
  { exact (exec_runs demo_simulate demo_predict_baseline demo_train_baseline
             demo_train_agent demo_load_weights
             (train_branch nat nat nat (demo_agent false 2 false)) 0 two_results). }
  destruct (@train_sync_publishes nat nat nat nat demo_simulate
              demo_predict_baseline demo_train_baseline demo_train_agent
              demo_load_weights (demo_agent false 2 false) eq_refl)
    as (Hdone & Hany & Halone).
  destruct (Halone 0 two_results 0 eq_refl eq_refl)
    as (Hfinal & _ & Hqueue & Hleft).
  split; [reflexivity|]. split; [exact H|].
  split; [exact (Hdone _ _ H)|]. split; [exact (Hany _ _ H)|].
  split; [reflexivity|]. split; [reflexivity|].
  split; [exact Hfinal|]. split; [exact Hqueue | exact Hleft].
Defined.

Example demo_pool_end_clean :
  fst demo_pool_end
  = [ {| code := Ret nat nat nat (Exited (Some TERMINATE)); local := 0 |};
      {| code := Ret nat nat nat (Exited (Some TERMINATE)); local := 0 |} ]
  /\ snd demo_pool_end = fresh_queues.
Proof. vm_compute. auto. Qed.

Lemma terminate_shuts_down_witness :
  (async_transitions (demo_agent false 1 false) = false
   /\ runs (run_loop nat nat nat 1 (demo_agent false 1 false) (Some UPDATE))
           (L_state_get nat nat nat (Some TERMINATE)
              :: tl (trace demo_terminate_run))
           (final demo_terminate_run)
   /\ (forall r, final demo_terminate_run = Returned r ->
                 r = Exited (Some TERMINATE) /\
                 tl (trace demo_terminate_run)
                 = [L_debug nat nat nat ".TERMINATE"; L_task_done nat nat nat true;
                    L_results_empty nat nat nat true;
                    L_weights_empty nat nat nat true;
                    L_paths_empty nat nat nat true]))
  /\ (two_workers <> []
      /\ state_queue fresh_queues = []
      /\ pool_steps demo_simulate demo_predict_baseline demo_train_baseline
                    demo_train_agent demo_load_weights
                    (two_workers,
                     broadcast TERMINATE (length two_workers) fresh_queues)
                    demo_pool_end
      /\ Forall (fun w => exists r, code w = Ret nat nat nat r) (fst demo_pool_end)
      /\ Forall (fun w => code w = Ret nat nat nat (Exited (Some TERMINATE)))
                (fst demo_pool_end)
      /\ results (snd demo_pool_end) = []
      /\ state_queue (snd demo_pool_end) = []
      /\ network_weights (snd demo_pool_end) = []
      /\ paths_queue (snd demo_pool_end) = []).
Proof.
  destruct (terminate_shuts_down nat nat nat nat demo_simulate
              demo_predict_baseline demo_train_baseline demo_train_agent
              demo_load_weights) as [Hone Hpool].
  assert (H : runs (run_loop nat nat nat 1 (demo_agent false 1 false) (Some UPDATE))
                   (L_state_get nat nat nat (Some TERMINATE)
                      :: tl (trace demo_terminate_run))
                   (final demo_terminate_run)).
  { exact (exec_runs demo_simulate demo_predict_baseline demo_train_baseline
             demo_train_agent demo_load_weights
             (run_loop nat nat nat 1 (demo_agent false 1 false) (Some UPDATE)) 0
             (broadcast TERMINATE 1 fresh_queues)). }
  assert (Hsteps : pool_steps demo_simulate demo_predict_baseline
                     demo_train_baseline demo_train_agent demo_load_weights
                     (two_workers,
                      broadcast TERMINATE (length two_workers) fresh_queues)
                     demo_pool_end).
  { apply run_schedule_steps. }
  assert (Hheads : Forall (fun w : Worker nat nat nat nat =>
                             exists fuel self prev_state,
                               async_transitions self = false /\
                               code w = run_loop nat nat nat (S fuel) self prev_state)
                          two_workers).
  { repeat constructor;
      exists 0, (demo_agent false 2 false), (Some UPDATE); split; reflexivity. }
  assert (Hends : Forall (fun w => exists r, code w = Ret nat nat nat r)
                         (fst demo_pool_end)).
  { repeat constructor; eexists; reflexivity. }
  assert (Hne : two_workers <> []) by discriminate.
  split.
  - split; [reflexivity|]. split; [exact H|].
    destruct (Hone 0 (demo_agent false 1 false) (Some UPDATE) _ _ eq_refl H)
      as (_ & Hret & _). exact Hret.
  - split; [exact Hne|]. split; [reflexivity|]. split; [exact Hsteps|].
    split; [exact Hends|].
    exact (Hpool two_workers fresh_queues (fst demo_pool_end) (snd demo_pool_end)
             Hne Hheads eq_refl Hsteps Hends).
Defined.


(** C8 fails on the code. An autonomous worker on freshly created queues
    runs its first ROLLOUT, then waits on the command queue and calls
    [task_done] on it, which raises [ValueError] as no command was ever
    put: the run ends there.  When the outside world does keep the command
    queue acknowledgeable, every ROLLOUT and every UPDATE of the five
    rounds uses it: fifteen phases, ten acknowledgements and five waits. *)
Theorem autonomous_worker_uses_command_queue :
  phases (trace (demo_exec (run nat nat nat 3 (demo_agent false 1 true)) 0
                           fresh_queues))
  = [ROLLOUT]
  /\ filter (@touches_state_queue nat nat nat)
            (trace (demo_exec (run nat nat nat 3 (demo_agent false 1 true)) 0
                              fresh_queues))
     = [L_state_wait_empty nat nat nat; L_task_done nat nat nat false]
  /\ final (demo_exec (run nat nat nat 3 (demo_agent false 1 true)) 0 fresh_queues)
     = Raised ValueError
  /\ phases (trace demo_autonomous_run) = schedule 15
  /\ length (filter (@touches_state_queue nat nat nat) (trace demo_autonomous_run))
     = 15
  /\ unfinished_tasks (channels_after demo_autonomous_run) = 0.
Proof. vm_compute. repeat split; reflexivity. Qed.

(** ** The further properties at concrete inputs *)

Lemma compute_q_values_shape_witness :
  exists q_n,
    _compute_q_values (finite 1) demo_paths true = Ok q_n
    /\ length q_n = total_rewards nat nat demo_paths.
Proof.
  destruct (compute_q_values_shape nat nat (finite 1)) as (H1 & H2 & _).
  destruct (H1 demo_paths) as [q_n E].
  exists q_n. split; [exact E|]. exact (H2 demo_paths true q_n E).
Defined.

Lemma compute_q_values_error_witness :
  Exists (fun path : Path nat nat => reward path = []) [no_step]
  /\ _compute_q_values (finite 1) [no_step] false = Err IndexError.
Proof.
  assert (H : Exists (fun path : Path nat nat => reward path = []) [no_step]).
  { constructor. reflexivity. }
  split; [exact H|].
  apply (compute_q_values_error nat nat (finite 1) [no_step] false IndexError).
  auto.
Defined.

Lemma rescale_baseline_statistics_witness :
  np_mean [finite 0; finite 4] = finite 2
  /\ np_std [finite 0; finite 4] = finite 2
  /\ np_mean [finite (-1); finite 1] = finite 0
  /\ np_std [finite (-1); finite 1] = finite 1
  /\ np_mean (rescale_baseline [finite 0; finite 4] [finite (-1); finite 1])
     = np_mean [finite 0; finite 4]
  /\ np_std (rescale_baseline [finite 0; finite 4] [finite (-1); finite 1])
     = np_std [finite 0; finite 4].
Proof.
  assert (Hq : np_mean [finite 0; finite 4] = finite 2
               /\ np_std [finite 0; finite 4] = finite 2).
  { destruct (np_mean_std_pair 0 4) as [Ha Hb]; [lra|].
    rewrite Ha, Hb. split; f_equal; lra. }
  assert (Hb : np_mean [finite (-1); finite 1] = finite 0
               /\ np_std [finite (-1); finite 1] = finite 1).
  { destruct (np_mean_std_pair (-1) 1) as [Ha Hb]; [lra|].
    rewrite Ha, Hb. split; f_equal; lra. }
  destruct Hq as [Hqm Hqs]. destruct Hb as [Hbm Hbs].
  repeat (split; [assumption|]).
  destruct (rescale_baseline_statistics _ _ _ _ _ _ Hqm Hqs Hbm Hbs)
    as (_ & _ & H).
  exact (H eq_refl eq_refl).
Defined.

Lemma _rollout_no_paths_witness :
  runs (_rollout nat nat nat (demo_agent false 1 false))
       (L_simulate nat ([], 0) :: tl (trace demo_no_paths_run))
       (final demo_no_paths_run)
  /\ tl (trace demo_no_paths_run) = []
  /\ final demo_no_paths_run = Raised ValueError.
Proof.
  assert (H : runs (_rollout nat nat nat (demo_agent false 1 false))
                   (L_simulate nat ([], 0) :: tl (trace demo_no_paths_run))
                   (final demo_no_paths_run)).
  { exact (exec_runs (fun m : nat => (([] : list (Path nat nat), 0), m))
             demo_predict_baseline demo_train_baseline demo_train_agent
             demo_load_weights
             (_rollout nat nat nat (demo_agent false 1 false)) 0 fresh_queues). }
  split; [exact H|].
  exact (_rollout_no_paths nat nat nat (demo_agent false 1 false) 0 _ _ H).
Defined.

Lemma demo_batch_ok : batch_ok nat nat (fst (fst (demo_simulate 0))).
Proof.
  split; [discriminate|]. repeat constructor. discriminate.
Qed.

Lemma _rollout_publishes_aligned_witness :
  nn_baseline (demo_agent false 1 false) = false
  /\ batch_ok nat nat (fst (fst (demo_simulate 0)))
  /\ runs (_rollout nat nat nat (demo_agent false 1 false))
          (L_simulate nat (fst (demo_simulate 0))
             :: tl (trace demo_plain_rollout_run))
          (final demo_plain_rollout_run)
  /\ exists r,
      aligned nat nat r
      /\ length (observations r) = total_rewards nat nat (fst (fst (demo_simulate 0)))
      /\ normalized_q_n r = [] /\ baseline_prediction r = []
      /\ ((tl (trace demo_plain_rollout_run) = []
           /\ final demo_plain_rollout_run = Pending)
          \/ (tl (trace demo_plain_rollout_run) = [L_results_put nat r]
              /\ final demo_plain_rollout_run = Pending)
          \/ (tl (trace demo_plain_rollout_run)
              = [L_results_put nat r; L_paths_put nat (fst (fst (demo_simulate 0)))]
              /\ final demo_plain_rollout_run = Returned tt)).
Proof.
  assert (H : runs (_rollout nat nat nat (demo_agent false 1 false))
                   (L_simulate nat (fst (demo_simulate 0))
                      :: tl (trace demo_plain_rollout_run))
                   (final demo_plain_rollout_run)).
  { exact (exec_runs demo_simulate demo_predict_baseline demo_train_baseline
             demo_train_agent demo_load_weights
             (_rollout nat nat nat (demo_agent false 1 false)) 0 fresh_queues). }
  split; [reflexivity|]. split; [exact demo_batch_ok|]. split; [exact H|].
  exact (_rollout_publishes_aligned nat nat nat (demo_agent false 1 false)
           (fst (demo_simulate 0)) _ _ eq_refl demo_batch_ok H).
Defined.

Lemma _rollout_baseline_shapes_witness :
  nn_baseline (demo_agent true 1 false) = true
  /\ batch_ok nat nat (fst (fst (demo_simulate 0)))
  /\ runs (_rollout nat nat nat (demo_agent true 1 false))
          (L_simulate nat (fst (demo_simulate 0))
             :: L_predict_baseline nat nat [0] [finite 0]
             :: tl (tl (trace demo_rollout_run)))
          (final demo_rollout_run)
  /\ length [finite 0] = total_rewards nat nat (fst (fst (demo_simulate 0)))
  /\ exists r,
      aligned nat nat r
      /\ baseline_prediction r = [finite 0]
      /\ length (normalized_q_n r) = length (observations r)
      /\ ((tl (tl (trace demo_rollout_run)) = []
           /\ final demo_rollout_run = Pending)
          \/ (tl (tl (trace demo_rollout_run)) = [L_results_put nat r]
              /\ final demo_rollout_run = Pending)
          \/ (tl (tl (trace demo_rollout_run))
              = [L_results_put nat r;
                 L_paths_put nat (fst (fst (demo_simulate 0)))]
              /\ final demo_rollout_run = Returned tt)).
Proof.
  assert (H : runs (_rollout nat nat nat (demo_agent true 1 false))
                   (L_simulate nat (fst (demo_simulate 0))
                      :: L_predict_baseline nat nat [0] [finite 0]
                      :: tl (tl (trace demo_rollout_run)))
                   (final demo_rollout_run)).
  { exact (exec_runs demo_simulate demo_predict_baseline demo_train_baseline
             demo_train_agent demo_load_weights
             (_rollout nat nat nat (demo_agent true 1 false)) 0 fresh_queues). }
  split; [reflexivity|]. split; [exact demo_batch_ok|]. split; [exact H|].
  split; [reflexivity|].
  destruct (_rollout_baseline_shapes nat nat nat (demo_agent true 1 false)
              (fst (demo_simulate 0)) [0] [finite 0] _ _
              eq_refl demo_batch_ok H) as (_ & Hsame & _).
  exact (Hsame eq_refl).
Defined.

Example toy_simulate_batch : toy_simulate 3 3 1 = Finished (toy_paths, 4) 5.
Proof. reflexivity. Qed.

Lemma simulate_batch_ends_witness :
  episode_bound (Some 2%Z) <= 5
  /\ batch_bound (5 # 2)%Q <= 7
  /\ toy_simulate 5 7 1 <> Unfinished
  /\ toy_simulate 5 7 1 = toy_simulate 3 3 1.
Proof.
  assert (He : episode_bound (Some 2%Z) <= 5) by (vm_compute; lia).
  assert (Hb : batch_bound (5 # 2)%Q <= 7) by (vm_compute; lia).
  split; [exact He|]. split; [exact Hb|].
  exact (simulate_batch_ends nat nat nat toy_reset toy_run_agent toy_step
           (Some 2%Z) (5 # 2)%Q 5 7 1 He Hb).
Defined.

Lemma simulate_batch_returns_witness :
  (forall w ob, fst (toy_run_agent w ob) <> [])
  /\ Some 2%Z <> None
  /\ exists paths timesteps w',
      toy_simulate 3 3 1 = Finished (paths, timesteps) w'.
Proof.
  assert (Hp : forall w ob, fst (toy_run_agent w ob) <> []) by discriminate.
  assert (Hl : Some 2%Z <> None) by discriminate.
  split; [exact Hp|]. split; [exact Hl|].
  destruct (simulate_batch_returns nat nat nat toy_reset toy_run_agent toy_step
              (Some 2%Z) (5 # 2)%Q 3 3 1) as [_ H].
  exact (H Hp Hl).
Defined.

Lemma simulate_batch_well_formed_witness :
  toy_simulate 3 3 1 = Finished (toy_paths, 4) 5
  /\ batch_ok nat nat toy_paths
  /\ 4 = total_rewards nat nat toy_paths
  /\ Forall (within_limit nat nat (Some 2%Z)) toy_paths.
Proof.
  split; [exact toy_simulate_batch|].
  exact (simulate_batch_well_formed nat nat nat toy_reset toy_run_agent toy_step
           (Some 2%Z) (5 # 2)%Q 3 3 1 5 toy_paths 4 toy_simulate_batch).
Defined.

Lemma simulate_batch_threshold_witness :
  toy_simulate 3 3 1 = Finished (toy_paths, 4) 5
  /\ ((5 # 2) < inject_Z (Z.of_nat 4))%Q
  /\ (forall pre last,
         toy_paths = pre ++ [last] -> pre <> [] ->
         (inject_Z (Z.of_nat (total_rewards nat nat pre)) <= 5 # 2)%Q)
  /\ length toy_paths <= batch_bound (5 # 2)%Q.
Proof.
  split; [exact toy_simulate_batch|].
  exact (simulate_batch_threshold nat nat nat toy_reset toy_run_agent toy_step
           (Some 2%Z) (5 # 2)%Q 3 3 1 5 toy_paths 4 toy_simulate_batch).
Defined.

Lemma rollout_of_simulated_batch_witness :
  toy_simulate 3 3 1 = Finished (toy_paths, 4) 5
  /\ nn_baseline (demo_agent false 1 false) = false
  /\ runs (_rollout nat nat nat (demo_agent false 1 false))
          (L_simulate nat (toy_paths, 4) :: tl (trace toy_rollout_run))
          (final toy_rollout_run)
  /\ (forall e, final toy_rollout_run <> Raised e)
  /\ (forall r,
         In (L_results_put nat r) (tl (trace toy_rollout_run)) ->
         aligned nat nat r /\ length (observations r) = 4).
Proof.
  assert (H : runs (_rollout nat nat nat (demo_agent false 1 false))
                   (L_simulate nat (toy_paths, 4) :: tl (trace toy_rollout_run))
                   (final toy_rollout_run)).
  { exact (exec_runs (fun m : nat => ((toy_paths, 4), m))
             demo_predict_baseline demo_train_baseline demo_train_agent
             demo_load_weights
             (_rollout nat nat nat (demo_agent false 1 false)) 0 fresh_queues). }
  split; [exact toy_simulate_batch|]. split; [reflexivity|].
  split; [exact H|].
  exact (rollout_of_simulated_batch nat nat nat nat toy_reset toy_run_agent
           toy_step (Some 2%Z) (5 # 2)%Q 3 3 1 5 (toy_paths, 4)
           (demo_agent false 1 false) _ _ toy_simulate_batch eq_refl H).
Defined.

Example demo_two_updates :
  phases (trace demo_two_updates_run) = [UPDATE; UPDATE]
  /\ final demo_two_updates_run = Raised AssertionError
  /\ network_weights (channels_after demo_two_updates_run) = [6].
Proof. vm_compute. auto. Qed.

Lemma update_never_twice_witness :
  runs (run nat nat nat 3 (demo_agent false 1 false))
       (trace demo_two_updates_run) (final demo_two_updates_run)
  /\ phases (trace demo_two_updates_run) = [] ++ UPDATE :: UPDATE :: []
  /\ final demo_two_updates_run = Raised AssertionError.
Proof.
  assert (H : runs (run nat nat nat 3 (demo_agent false 1 false))
                   (trace demo_two_updates_run) (final demo_two_updates_run)).
  { unfold demo_two_updates_run, demo_exec. apply exec_runs. }
  assert (E : phases (trace demo_two_updates_run) = [] ++ UPDATE :: UPDATE :: [])
    by reflexivity.
  split; [exact H|]. split; [exact E|].
  exact (proj2 (update_never_twice nat nat nat 3 (demo_agent false 1 false)
                  _ _ [] [] H E)).
Defined.

Example demo_sync :
  commands nat nat nat (trace demo_sync_run) = [Some UPDATE; Some TERMINATE]
  /\ phases (trace demo_sync_run) = [UPDATE; TERMINATE]
  /\ acks nat nat nat (trace demo_sync_run) = 2
  /\ final demo_sync_run = Returned (Exited (Some TERMINATE)).
Proof. vm_compute. auto. Qed.

Lemma run_exits_through_terminate_witness :
  runs (run nat nat nat 3 (demo_agent false 1 false))
       (trace demo_sync_run) (final demo_sync_run)
  /\ final demo_sync_run = Returned (Exited (Some TERMINATE))
  /\ exists pre, phases (trace demo_sync_run) = pre ++ [TERMINATE].
Proof.
  assert (H : runs (run nat nat nat 3 (demo_agent false 1 false))
                   (trace demo_sync_run) (final demo_sync_run)).
  { unfold demo_sync_run, demo_exec. apply exec_runs. }
  assert (E : final demo_sync_run = Returned (Exited (Some TERMINATE)))
    by reflexivity.
  split; [exact H|]. split; [exact E|].
  destruct (run_exits_through_terminate nat nat nat 3 (demo_agent false 1 false)
              _ _ H) as (_ & Hexit & _).
  exact (proj2 (Hexit _ E)).
Defined.

Lemma sync_phases_follow_commands_witness :
  async_transitions (demo_agent false 1 false) = false
  /\ runs (run nat nat nat 3 (demo_agent false 1 false))
          (trace demo_sync_run) (final demo_sync_run)
  /\ (commands nat nat nat (trace demo_sync_run) = map Some (phases (trace demo_sync_run))
      \/ (exists s,
             commands nat nat nat (trace demo_sync_run)
             = map Some (phases (trace demo_sync_run)) ++ [Some s]
             /\ final demo_sync_run = Pending)
      \/ (commands nat nat nat (trace demo_sync_run)
          = map Some (phases (trace demo_sync_run)) ++ [None]
          /\ final demo_sync_run = Raised ValueError)).
Proof.
  assert (H : runs (run nat nat nat 3 (demo_agent false 1 false))
                   (trace demo_sync_run) (final demo_sync_run)).
  { unfold demo_sync_run, demo_exec. apply exec_runs. }
  split; [reflexivity|]. split; [exact H|].
  exact (proj1 (sync_phases_follow_commands nat nat nat 3
                  (demo_agent false 1 false) _ _ eq_refl H)).
Defined.

Lemma sync_acknowledges_every_command_witness :
  async_transitions (demo_agent false 1 false) = false
  /\ runs (run nat nat nat 3 (demo_agent false 1 false))
          (trace demo_sync_run) (final demo_sync_run)
  /\ acks nat nat nat (trace demo_sync_run) <= length (commands nat nat nat (trace demo_sync_run))
     <= S (acks nat nat nat (trace demo_sync_run))
  /\ (forall r, final demo_sync_run = Returned r ->
                acks nat nat nat (trace demo_sync_run)
                = length (commands nat nat nat (trace demo_sync_run))).
Proof.
  assert (H : runs (run nat nat nat 3 (demo_agent false 1 false))
                   (trace demo_sync_run) (final demo_sync_run)).
  { unfold demo_sync_run, demo_exec. apply exec_runs. }
  split; [reflexivity|]. split; [exact H|].
  exact (sync_acknowledges_every_command nat nat nat 3
           (demo_agent false 1 false) _ _ eq_refl H).
Defined.

Lemma update_loads_oldest_weights_witness :
  is_not_UPDATE (Some TRAIN) = true
  /\ network_weights two_updates = 5 :: [6]
  /\ unfinished_tasks two_updates = 2
  /\ model_after (demo_exec (update_branch nat nat nat (Some TRAIN)) 0 two_updates)
     = 5
  /\ network_weights
       (channels_after
          (demo_exec (update_branch nat nat nat (Some TRAIN)) 0 two_updates))
     = [6]
  /\ final (demo_exec (update_branch nat nat nat (Some TRAIN)) 0 two_updates)
     = Returned tt
  /\ unfinished_tasks
       (channels_after
          (demo_exec (update_branch nat nat nat (Some TRAIN)) 0 two_updates))
     = 1.
Proof.
  destruct (update_loads_oldest_weights nat nat nat nat demo_simulate
              demo_predict_baseline demo_train_baseline demo_train_agent
              demo_load_weights (Some TRAIN) 0 two_updates) as (_ & _ & H).
  destruct (H 5 [6] eq_refl eq_refl) as (Hm & Hq & Hu & _).
  destruct (Hu 1 eq_refl) as [Hf Hl].
  do 3 (split; [reflexivity|]).
  split; [exact Hm|]. split; [exact Hq|]. split; [exact Hf | exact Hl].
Defined.

Lemma rollout_branch_publishes_then_waits_witness :
  nn_baseline (demo_agent false 1 false) = false
  /\ batch_ok nat nat (fst (fst (demo_simulate 0)))
  /\ exists r,
      aligned nat nat r
      /\ results (channels_after
                    (demo_exec (rollout_branch nat nat nat (demo_agent false 1 false))
                               0 one_command_taken))
         = results one_command_taken ++ [r]
      /\ paths_queue (channels_after
                        (demo_exec (rollout_branch nat nat nat
                                                   (demo_agent false 1 false))
                                   0 one_command_taken))
         = paths_queue one_command_taken ++ [fst (fst (demo_simulate 0))]
      /\ final (demo_exec (rollout_branch nat nat nat (demo_agent false 1 false))
                          0 one_command_taken)
         = Returned tt.
Proof.
  split; [reflexivity|]. split; [exact demo_batch_ok|].
  destruct (rollout_branch_publishes_then_waits nat nat nat nat demo_simulate
              demo_predict_baseline demo_train_baseline demo_train_agent
              demo_load_weights (demo_agent false 1 false) 0 one_command_taken
              eq_refl demo_batch_ok)
    as (r & Ha & Hr & Hp & _ & _ & _ & _ & Hq).
  destruct (Hq eq_refl) as [Hu _]. destruct (Hu 0 eq_refl) as [Hf _].
  exists r. split; [exact Ha|]. split; [exact Hr|]. split; [exact Hp | exact Hf].
Defined.

Lemma autonomous_trains_on_own_rollout_witness :
  async_transitions (demo_agent false 1 true) = true
  /\ num_agents (demo_agent false 1 true) = 1
  /\ nn_baseline (demo_agent false 1 true) = false
  /\ batch_ok nat nat (fst (fst (demo_simulate 0)))
  /\ results one_command_taken = []
  /\ state_queue one_command_taken = []
  /\ unfinished_tasks one_command_taken = 1
  /\ exists r w self',
      aligned nat nat r
      /\ phases (trace (demo_exec (run_loop nat nat nat 2 (demo_agent false 1 true)
                                            None) 0 one_command_taken))
         = [ROLLOUT; TRAIN]
      /\ received (trace (demo_exec (run_loop nat nat nat 2
                                              (demo_agent false 1 true) None)
                                    0 one_command_taken))
         = [r]
      /\ In (L_results_put nat r)
            (trace (demo_exec (run_loop nat nat nat 2 (demo_agent false 1 true)
                                        None) 0 one_command_taken))
      /\ In (L_train_agent (observations r) (actions r) (advantages r) w)
            (trace (demo_exec (run_loop nat nat nat 2 (demo_agent false 1 true)
                                        None) 0 one_command_taken))
      /\ results (channels_after
                    (demo_exec (run_loop nat nat nat 2 (demo_agent false 1 true)
                                         None) 0 one_command_taken))
         = []
      /\ final (demo_exec (run_loop nat nat nat 2 (demo_agent false 1 true) None)
                          0 one_command_taken)
         = Returned (Running self' (Some TRAIN)).
Proof.
  do 3 (split; [reflexivity|]). split; [exact demo_batch_ok|].
  do 3 (split; [reflexivity|]).
  exact (autonomous_trains_on_own_rollout nat nat nat nat demo_simulate
           demo_predict_baseline demo_train_baseline demo_train_agent
           demo_load_weights (demo_agent false 1 true) 0 one_command_taken 0
           eq_refl eq_refl eq_refl demo_batch_ok eq_refl eq_refl eq_refl).
Defined.

Lemma train_keeps_alignment_witness :
  runs (train_branch nat nat nat (demo_agent false 2 false))
       (trace demo_train_run) (final demo_train_run)
  /\ In (L_train_agent [7; 8] [0; 0] [finite 1; finite 1] 1)
        (trace demo_train_run)
  /\ In (L_results_empty nat nat nat true) (trace demo_train_run)
  /\ length (received (trace demo_train_run))
     = num_agents (demo_agent false 2 false)
  /\ [7; 8] = concat (map (@observations nat nat) (received (trace demo_train_run)))
  /\ (Forall (aligned nat nat) (received (trace demo_train_run)) ->
      length [0; 0] = length [7; 8]
      /\ length [finite 1; finite 1] = length [7; 8]).
Proof.
  assert (H : runs (train_branch nat nat nat (demo_agent false 2 false))
                   (trace demo_train_run) (final demo_train_run)).
  { unfold demo_train_run, demo_exec. apply exec_runs. }
  assert (Hin : In (L_train_agent [7; 8] [0; 0] [finite 1; finite 1] 1)
                   (trace demo_train_run)).
  { unfold demo_train_run, demo_exec. cbn. do 4 right. left. reflexivity. }
  destruct (train_keeps_alignment nat nat nat (demo_agent false 2 false) _ _
              _ _ _ _ H Hin) as (He & Hl & Ho & _ & _ & Hal).
  split; [exact H|]. split; [exact Hin|]. split; [exact He|].
  split; [exact Hl|]. split; [exact Ho | exact Hal].
Defined.

(** The division of [__init__] at its edges: one third, a tie that goes
    to the even mantissa, no float64 large enough, no agent at all; and a
    share of [2 ^ 53] that a batch of [2 ^ 53 + 1] steps exceeds although
    [2 ^ 53 + 1] steps were asked for. *)
Example per_agent_timesteps_edges :
  per_agent_timesteps 1 3 = inr (6004799503160661 # 18014398509481984)%Q
  /\ per_agent_timesteps (2 ^ 53 + 1) 1 = inr (inject_Z (2 ^ 53))
  /\ per_agent_timesteps (2 ^ 53 + 3) 1 = inr (inject_Z (2 ^ 53 + 4))
  /\ per_agent_timesteps (10 ^ 400) 1 = inl OverflowError
  /\ per_agent_timesteps 1000 0 = inl ZeroDivisionError
  /\ enough_timesteps (inject_Z (2 ^ 53)) (Z.to_nat (2 ^ 53 + 1)) = true.
Proof.
  do 5 (split; [vm_compute; reflexivity|]).
  unfold enough_timesteps. rewrite Z2Nat.id by (vm_compute; discriminate).
  vm_compute. reflexivity.
Qed.

Lemma agents_together_exceed_batch_witness :
  (5 < 2 ^ 53 * Z.of_nat 2)%Z
  /\ per_agent_timesteps 5 2 = inr (5 # 2)%Q
  /\ length [4%nat; 3%nat] = 2
  /\ Forall (fun ts => enough_timesteps (5 # 2)%Q ts = true) [4%nat; 3%nat]
  /\ (5 < Z.of_nat (fold_right Nat.add 0%nat [4%nat; 3%nat]))%Z.
Proof.
  assert (Hb : (5 < 2 ^ 53 * Z.of_nat 2)%Z) by (vm_compute; reflexivity).
  assert (Hs : per_agent_timesteps 5 2 = inr (5 # 2)%Q)
    by (vm_compute; reflexivity).
  assert (Hl : length [4%nat; 3%nat] = 2) by reflexivity.
  assert (Hall : Forall (fun ts => enough_timesteps (5 # 2)%Q ts = true) [4%nat; 3%nat]).
  { repeat constructor. }
  split; [exact Hb|]. split; [exact Hs|]. split; [exact Hl|].
  split; [exact Hall|].
  exact (agents_together_exceed_batch 5 2 (5 # 2)%Q [4%nat; 3%nat] Hb Hs Hl Hall).
Defined.
